(** * voxelWars: terrain generator and chunk meshers

    A shallow embedding of the chunk generator (generateHeightMap,
    generateChunk, generateTree, getTerrainHeight, isSolid) and of the
    chunk meshers (getBlock, shouldRenderFace, createSimpleChunkMesh,
    createChunkMesh, createGreedyChunkMesh), with the properties of the
    specification stated and proved over it.  Further parts embedded: the
    flat-index helpers, the client's Player (health, attack cooldown, the
    frame update), the renderer's two click handlers, getPlayerColor, the
    clouds of the Environment component and the bot's findNearestPlayer.
    [Math.sqrt], [Math.random] and [Date.now] are parameters of the
    functions that call them.

    JavaScript numbers that hold loop counters and coordinates are
    integers ([Z]); the noise and height arithmetic, and the positions,
    velocities and health of players and clouds, are carried out over
    exact rationals ([Q]).  Arrays are lists read with stdpp's lookup. *)

From Stdlib Require Import ZArith QArith Qround Qminmax Qabs Lia Lra Lqa.
From Stdlib Require Import Psatz Ascii String.
From stdpp Require Import base decidable option list list_numbers strings.

Local Open Scope Z_scope.

(** ** Block types (BlockType, BlockColors, Block) *)

Inductive BlockType : Set :=
  | AIR | GRASS | DIRT | STONE | WOOD | LEAVES | WATER.

#[global] Instance BlockType_eq_dec : EqDecision BlockType.
Proof. solve_decision. Defined.

#[global] Instance BlockType_inhabited : Inhabited BlockType := populate AIR.

(** [BlockColors]: the palette entry of a block type, as the number that
    the hexadecimal colour string denotes. *)
Definition BlockColors (t : BlockType) : Z :=
  match t with
  | GRASS => 0x7EC850
  | DIRT => 0x8B4513
  | STONE => 0x808080
  | WOOD => 0x8B4513
  | LEAVES => 0x228B22
  | WATER => 0x4A90E2
  | AIR => 0x000000
  end.

Module Block.
(** [static isSolid(blockType)] *)
Definition isSolid (blockType : BlockType) : bool :=
  bool_decide (blockType ≠ AIR).

(** [static getColor(blockType)]; every block type has a palette entry,
    so the magenta fallback is never taken. *)
Definition getColor (blockType : BlockType) : Z := BlockColors blockType.
End Block.

(** The three 8-bit channels that [new THREE.Color(hex)] extracts; the
    buffers keep them as integers (THREE scales each one by 1/255). *)
Definition threeColor (hex : Z) : Z * Z * Z :=
  (Z.land (Z.shiftr hex 16) 255, Z.land (Z.shiftr hex 8) 255, Z.land hex 255).

(** ** Chunk grids *)

Definition CHUNK_SIZE : Z := 16.
Definition CHUNK_HEIGHT : Z := 64.

(** A chunk is the nested array [chunk[x][y][z]]. *)
Abbreviation Chunk := (list (list (list BlockType))).

(** The grid that generateChunk allocates: 16 planes of 64 rows of 16 cells. *)
Definition wf_chunk (c : Chunk) : Prop :=
  length c = Z.to_nat CHUNK_SIZE ∧
  Forall (λ plane, length plane = Z.to_nat CHUNK_HEIGHT ∧
            Forall (λ row : list BlockType, length row = Z.to_nat CHUNK_SIZE) plane) c.

Definition inGrid (x y z : Z) : Prop :=
  0 ≤ x < CHUNK_SIZE ∧ 0 ≤ y < CHUNK_HEIGHT ∧ 0 ≤ z < CHUNK_SIZE.

#[global] Instance inGrid_dec x y z : Decision (inGrid x y z).
Proof. unfold inGrid. apply _. Defined.

(** The read [chunkData[x][y][z]], for indices inside the allocated grid
    (every raw read of the source is at such indices). *)
Definition cellAt (c : Chunk) (x y z : Z) : BlockType :=
  ((c !!! Z.to_nat x) !!! Z.to_nat y) !!! Z.to_nat z.

(** [for (let i = lo; i < hi; i++) body] as a fold over the index range. *)
Definition forZ {S : Type} (lo hi : Z) (body : Z → S → S) (s : S) : S :=
  fold_left (λ s i, body i s) (seqZ lo (hi - lo)) s.

(** ** Face exposure (client mesher) *)

Definition getBlock (chunkData : Chunk) (x y z : Z) : BlockType :=
  if (x <? 0) || (x >=? CHUNK_SIZE) || (y <? 0) || (y >=? CHUNK_HEIGHT)
     || (z <? 0) || (z >=? CHUNK_SIZE)
  then AIR
  else cellAt chunkData x y z.

Definition shouldRenderFace (chunkData : Chunk) (x y z : Z) (direction : Z * Z * Z) : bool :=
  let '(dx, dy, dz) := direction in
  let neighborType := getBlock chunkData (x + dx) (y + dy) (z + dz) in
  bool_decide (neighborType = AIR).

(** ** Geometry buffers *)

(** The four arrays the meshers push to, and the running vertex offset. *)
Record Buffers : Type := mkBuffers {
  vertices : list Z;
  normals : list Z;
  colors : list Z;
  indices : list Z;
  vertexOffset : Z
}.

Definition emptyBuffers : Buffers := mkBuffers [] [] [] [] 0.

(** The THREE.Mesh that a mesher returns: its geometry attributes and the
    two shadow flags (the material is the same constant in both meshers). *)
Record Mesh : Type := mkMesh {
  position : list Z;
  normal : list Z;
  color : list Z;
  index : list Z;
  castShadow : bool;
  receiveShadow : bool
}.

(** The tail shared by both meshers: null for an empty vertex array, the
    mesh otherwise. *)
Definition finishMesh (b : Buffers) : option Mesh :=
  if bool_decide (length (vertices b) = 0%nat) then None
  else Some (mkMesh (vertices b) (normals b) (colors b) (indices b) true true).

Definition pushIndices (b : Buffers) : Buffers :=
  let vo := vertexOffset b in
  mkBuffers (vertices b) (normals b) (colors b)
    (indices b ++ [vo + 0; vo + 1; vo + 2; vo + 0; vo + 2; vo + 3])
    (vo + 4).

(** ** The naive mesher *)

Record Face : Type := mkFace {
  fnormal : Z * Z * Z;
  fvertices : list (Z * Z * Z);
  fdir : Z * Z * Z
}.

Definition faces : list Face := [
  (* Front (+Z) *)
  mkFace (0, 0, 1) [(0, 0, 1); (1, 0, 1); (1, 1, 1); (0, 1, 1)] (0, 0, 1);
  (* Back (-Z) *)
  mkFace (0, 0, -1) [(1, 0, 0); (0, 0, 0); (0, 1, 0); (1, 1, 0)] (0, 0, -1);
  (* Top (+Y) *)
  mkFace (0, 1, 0) [(0, 1, 0); (0, 1, 1); (1, 1, 1); (1, 1, 0)] (0, 1, 0);
  (* Bottom (-Y) *)
  mkFace (0, -1, 0) [(0, 0, 0); (1, 0, 0); (1, 0, 1); (0, 0, 1)] (0, -1, 0);
  (* Right (+X) *)
  mkFace (1, 0, 0) [(1, 0, 0); (1, 0, 1); (1, 1, 1); (1, 1, 0)] (1, 0, 0);
  (* Left (-X) *)
  mkFace (-1, 0, 0) [(0, 0, 1); (0, 0, 0); (0, 1, 0); (0, 1, 1)] (-1, 0, 0)
].

(** One iteration of [for (const vertex of face.vertices)]. *)
Definition pushFaceVertex (x y z : Z) (face : Face) (blockColor : Z * Z * Z)
    (b : Buffers) (vertex : Z * Z * Z) : Buffers :=
  let '(vx, vy, vz) := vertex in
  let '(nx, ny, nz) := fnormal face in
  let '(r, g, bl) := blockColor in
  mkBuffers (vertices b ++ [x + vx; y + vy; z + vz])
            (normals b ++ [nx; ny; nz])
            (colors b ++ [r; g; bl])
            (indices b) (vertexOffset b).

(** The body of [for (const face of faces)]. *)
Definition renderFace (chunkData : Chunk) (x y z : Z) (blockColor : Z * Z * Z)
    (b : Buffers) (face : Face) : Buffers :=
  if shouldRenderFace chunkData x y z (fdir face)
  then pushIndices (fold_left (pushFaceVertex x y z face blockColor) (fvertices face) b)
  else b.

(** The body of the innermost cell loop. *)
Definition renderCell (chunkData : Chunk) (x y z : Z) (b : Buffers) : Buffers :=
  let blockType := cellAt chunkData x y z in
  if bool_decide (blockType = AIR) then b
  else
    let blockColor := threeColor (Block.getColor blockType) in
    fold_left (renderFace chunkData x y z blockColor) faces b.

Definition simpleBuffers (chunkData : Chunk) : Buffers :=
  forZ 0 CHUNK_SIZE (λ x,
    forZ 0 CHUNK_HEIGHT (λ y,
      forZ 0 CHUNK_SIZE (λ z, renderCell chunkData x y z))) emptyBuffers.

Definition createSimpleChunkMesh (chunkData : Chunk) : option Mesh :=
  finishMesh (simpleBuffers chunkData).


(** ** The greedy mesher *)

Definition dims : list (list Z) := [
  [CHUNK_SIZE; CHUNK_HEIGHT; CHUNK_SIZE];
  [CHUNK_HEIGHT; CHUNK_SIZE; CHUNK_SIZE];
  [CHUNK_SIZE; CHUNK_SIZE; CHUNK_HEIGHT]
].

(** [a[k]] and [a[k] = v] on the small index arrays [d], [q], [du], [dv]
    and on the rows of [dims]. *)
Definition at3 (a : list Z) (k : Z) : Z := a !!! Z.to_nat k.
Definition set3 (a : list Z) (k v : Z) : list Z := <[Z.to_nat k := v]> a.
Definition dimsAt (a k : Z) : Z := at3 (dims !!! Z.to_nat a) k.

(** The slice mask: [null] is [None], a block type is [Some]. *)
Abbreviation Mask := (list (option BlockType)).

Definition maskAt (mask : Mask) (idx : Z) : option BlockType :=
  mask !!! Z.to_nat idx.
Definition maskSet (mask : Mask) (idx : Z) (v : option BlockType) : Mask :=
  <[Z.to_nat idx := v]> mask.

(** The sweep vector [q]: zero but for [q[axis] = 1]. *)
Definition sweepDir (axis : Z) : list Z := set3 [0; 0; 0] axis 1.

(** The index array [d] where it is read: [d[axis]] is the slice, and
    [d[u]], [d[v]] were assigned just before (by the mask loops or by the
    quad emission). *)
Definition sliceCoord (axis s u i v j : Z) : list Z :=
  set3 (set3 (set3 [0; 0; 0] axis s) v j) u i.

(** The body of the two mask-building loops. *)
Definition buildMaskCell (chunkData : Chunk) (axis s : Z) (dv du : Z) (mask : Mask) : Mask :=
  let u := (axis + 1) `mod` 3 in
  let v := (axis + 2) `mod` 3 in
  let q := sweepDir axis in
  let d := sliceCoord axis s u du v dv in
  let blockType := getBlock chunkData (at3 d 0) (at3 d 1) (at3 d 2) in
  let neighborType :=
    getBlock chunkData (at3 d 0 + at3 q 0) (at3 d 1 + at3 q 1) (at3 d 2 + at3 q 2) in
  if bool_decide (blockType ≠ AIR) && bool_decide (neighborType = AIR)
  then maskSet mask (at3 d u + at3 d v * dimsAt axis u) (Some blockType)
  else mask.

Definition buildMask (chunkData : Chunk) (axis s : Z) : Mask :=
  let u := (axis + 1) `mod` 3 in
  let v := (axis + 2) `mod` 3 in
  forZ 0 (dimsAt axis v) (λ dv,
    forZ 0 (dimsAt axis u) (λ du, buildMaskCell chunkData axis s dv du))
    (replicate (Z.to_nat (dimsAt axis u * dimsAt axis v)) None).

(** [for (w = 1; i + w < U && mask[i + w + j * U] === currentType; w++) {}]:
    [w] on entry, the final [w] on exit. *)
Fixpoint findWidth (fuel : nat) (mask : Mask) (U i j : Z) (currentType : BlockType)
    (w : Z) : Z :=
  match fuel with
  | O => w
  | S fuel' =>
      if (i + w <? U) && bool_decide (maskAt mask (i + w + j * U) = Some currentType)
      then findWidth fuel' mask U i j currentType (w + 1)
      else w
  end.

(** The inner [k] loop of the height search: [done] becomes true when a
    cell of the prospective row differs from [currentType]. *)
Definition rowDiffers (mask : Mask) (U i j h w : Z) (currentType : BlockType) : bool :=
  existsb (λ k, bool_decide (maskAt mask (i + k + (j + h) * U) ≠ Some currentType))
          (seqZ 0 w).

(** [for (h = 1; j + h < V; h++) { ...; if (done) break; }] *)
Fixpoint findHeight (fuel : nat) (mask : Mask) (U V i j w : Z) (currentType : BlockType)
    (h : Z) : Z :=
  match fuel with
  | O => h
  | S fuel' =>
      if j + h <? V then
        if rowDiffers mask U i j h w currentType then h
        else findHeight fuel' mask U V i j w currentType (h + 1)
      else h
  end.

(** The four corners, normals, colours and indices of one merged quad. *)
Definition pushQuad (d du dv q : list Z) (blockColor : Z * Z * Z) (b : Buffers) : Buffers :=
  let '(r, g, bl) := blockColor in
  let vs :=
    [at3 d 0; at3 d 1; at3 d 2;
     at3 d 0 + at3 du 0; at3 d 1 + at3 du 1; at3 d 2 + at3 du 2;
     at3 d 0 + at3 du 0 + at3 dv 0; at3 d 1 + at3 du 1 + at3 dv 1;
       at3 d 2 + at3 du 2 + at3 dv 2;
     at3 d 0 + at3 dv 0; at3 d 1 + at3 dv 1; at3 d 2 + at3 dv 2] in
  let b1 := mkBuffers (vertices b ++ vs) (normals b) (colors b) (indices b)
                      (vertexOffset b) in
  let b2 := forZ 0 4 (λ _ b,
              mkBuffers (vertices b) (normals b ++ [at3 q 0; at3 q 1; at3 q 2])
                        (colors b ++ [r; g; bl]) (indices b) (vertexOffset b)) b1 in
  pushIndices b2.

(** The two loops that clear the consumed rectangle. *)
Definition clearMask (mask : Mask) (U i j w h : Z) : Mask :=
  forZ 0 h (λ l, forZ 0 w (λ k mask, maskSet mask (i + k + (j + l) * U) None)) mask.

(** [for (let i = 0; i < U;) { ... }] from column [i] on, in row [j] of the
    slice [s]; every iteration advances [i] by at least one. *)
Fixpoint scanRow (fuel : nat) (axis s j i : Z) (st : Buffers * Mask) : Buffers * Mask :=
  let u := (axis + 1) `mod` 3 in
  let v := (axis + 2) `mod` 3 in
  let U := dimsAt axis u in
  let V := dimsAt axis v in
  match fuel with
  | O => st
  | S fuel' =>
      if i <? U then
        match maskAt st.2 (i + j * U) with
        | Some currentType =>
            let w := findWidth (Z.to_nat U) st.2 U i j currentType 1 in
            let h := findHeight (Z.to_nat V) st.2 U V i j w currentType 1 in
            let d := sliceCoord axis s u i v j in
            let du := set3 [0; 0; 0] u w in
            let dv := set3 [0; 0; 0] v h in
            let blockColor := threeColor (Block.getColor currentType) in
            let b' := pushQuad d du dv (sweepDir axis) blockColor st.1 in
            scanRow fuel' axis s j (i + w) (b', clearMask st.2 U i j w h)
        | None => scanRow fuel' axis s j (i + 1) st
        end
      else st
  end.

(** One slice: build the mask, then scan it row by row. *)
Definition meshSlice (chunkData : Chunk) (axis s : Z) (b : Buffers) : Buffers :=
  let u := (axis + 1) `mod` 3 in
  let v := (axis + 2) `mod` 3 in
  (forZ 0 (dimsAt axis v) (λ j, scanRow (Z.to_nat (dimsAt axis u)) axis s j 0)
        (b, buildMask chunkData axis s)).1.

Definition greedyBuffers (chunkData : Chunk) : Buffers :=
  forZ 0 3 (λ axis,
    forZ 0 (dimsAt axis axis) (λ s, meshSlice chunkData axis s)) emptyBuffers.

Definition createGreedyChunkMesh (chunkData : Chunk) : option Mesh :=
  finishMesh (greedyBuffers chunkData).

(** The grid of Air, and a grid with one more block. *)
Definition airChunk : Chunk :=
  replicate (Z.to_nat CHUNK_SIZE)
    (replicate (Z.to_nat CHUNK_HEIGHT) (replicate (Z.to_nat CHUNK_SIZE) AIR)).

Definition putBlock (c : Chunk) (x y z : Z) (t : BlockType) : Chunk :=
  alter (alter (<[Z.to_nat z := t]>) (Z.to_nat y)) (Z.to_nat x) c.


(** ** Terrain generator (server side) *)

Definition MIN_HEIGHT : Z := 5.
Definition MAX_HEIGHT : Z := 50.
Definition TERRAIN_SCALE : Q := 2 # 100.
Definition OCTAVES : Z := 6.
Definition MOUNTAIN_SCALE : Q := 1 # 100.
Definition TREE_PROBABILITY : Q := 5 # 100.
Definition WATER_LEVEL : Z := 12.

(** [a < b] on numbers. *)
Definition Qltb (a b : Q) : bool := negb (Qle_bool b a).

(** The server's [isSolid(chunk, x, y, z)]. *)
Definition isSolid (chunk : Chunk) (x y z : Z) : bool :=
  if (x <? 0) || (x >=? CHUNK_SIZE) || (z <? 0) || (z >=? CHUNK_SIZE)
     || (y <? 0) || (y >=? CHUNK_HEIGHT)
  then false
  else
    let blockType := cellAt chunk x y z in
    bool_decide (blockType ≠ AIR).

(** *** Writes into the grid *)

(** One executed assignment [chunk[x][y][z] = t]. *)
Definition Write : Type := Z * Z * Z * BlockType.

Definition writeInGrid (w : Write) : Prop :=
  let '(x, y, z, _) := w in inGrid x y z.

(** The chunk object while it is being built: the allocated grid, and
    the assignments that landed outside of it ([row[z] = t] with [z] past
    the end of a row grows that row; with a negative [z] it adds a
    property to it). *)
Record Store : Type := mkStore {
  grid : Chunk;
  stray : list Write
}.

(** [a[i]] on an array: [undefined] ([None]) outside of it. *)
Definition jsIndex {A : Type} (a : list A) (i : Z) : option A :=
  if i <? 0 then None else a !! Z.to_nat i.

(** [chunk[x][y][z] = t].  [None] is the TypeError thrown when [chunk[x]]
    or [chunk[x][y]] is undefined; it ends the run. *)
Definition setCell (x y z : Z) (t : BlockType) (st : option Store) : option Store :=
  s ← st;
  plane ← jsIndex (grid s) x;
  row ← jsIndex plane y;
  if (0 <=? z) && (z <? Z.of_nat (length row))
  then Some (mkStore
               (<[Z.to_nat x := <[Z.to_nat y := <[Z.to_nat z := t]> row]> plane]> (grid s))
               (stray s))
  else Some (mkStore (grid s) (stray s ++ [(x, y, z, t)])).

(** The same assignment, recorded instead of executed. *)
Definition logCell (x y z : Z) (t : BlockType) (ws : list Write) : list Write :=
  ws ++ [(x, y, z, t)].

(** *** generateTree

    The tree placer never reads the chunk, so it is written once over an
    arbitrary assignment action [write]: [setCell] executes it, [logCell]
    lists the cells it writes.  [r] is the value of its one
    [Math.random()] call. *)
Section Tree.
Context {S : Type} (write : Z → Z → Z → BlockType → S → S).

Definition generateTreeWith (r : Q) (x y z : Z) (chunk : S) : S :=
  let TREE_HEIGHT := 5 + Qfloor (r * 3) in
  let TRUNK_HEIGHT := TREE_HEIGHT - 2 in
  (* Generate trunk *)
  let chunk :=
    forZ 0 TRUNK_HEIGHT (λ dy chunk,
      let blockY := y + dy in
      if blockY <? CHUNK_HEIGHT then write x blockY z WOOD chunk else chunk) chunk in
  (* Generate leaves (3x3x3 cube at top) *)
  let leavesY := y + TRUNK_HEIGHT in
  let chunk :=
    forZ (-1) 2 (λ dx,
      forZ (-1) 2 (λ dz,
        forZ 0 3 (λ dy chunk,
          let leafX := x + dx in
          let leafZ := z + dz in
          let leafY := leavesY + dy in
          if (leafX >=? 0) && (leafX <? CHUNK_SIZE) &&
             (leafZ >=? 0) && (leafZ <? CHUNK_SIZE) &&
             (leafY <? CHUNK_HEIGHT)
          then
            if negb ((dx =? 0) && (dz =? 0) && (dy =? 0))
            then write leafX leafY leafZ LEAVES chunk
            else chunk
          else chunk))) chunk in
  (* Add top leaf *)
  if leavesY + 3 <? CHUNK_HEIGHT
  then write x (leavesY + 3) z LEAVES chunk
  else chunk.
End Tree.

Definition generateTree (r : Q) (chunk : option Store) (x y z : Z) : option Store :=
  generateTreeWith setCell r x y z chunk.

(** The cells a call of generateTree assigns, in program order (as long
    as no assignment throws). *)
Definition generateTree_writes (r : Q) (x y z : Z) : list Write :=
  generateTreeWith logCell r x y z [].

(** *** Height map and chunk builder *)

Section Terrain.
(** The simplex-noise function created at module load, and [Math.pow]. *)
Variable noise2D : Q → Q → Q.
Variable pow : Q → Q → Q.

(** The state of the octave loop. *)
Record Octave : Type := mkOctave {
  noiseValue : Q;
  amplitude : Q;
  frequency : Q;
  maxValue : Q
}.

Definition octaveStep (worldX worldZ : Q) (o : Octave) : Octave :=
  mkOctave
    (noiseValue o + noise2D (worldX * frequency o) (worldZ * frequency o) * amplitude o)%Q
    (amplitude o * (1 # 2))%Q
    (frequency o * 2)%Q
    (maxValue o + amplitude o)%Q.

(** The body of the two column loops of generateHeightMap. *)
Definition columnHeight (chunkX chunkZ x z : Z) : Z :=
  (* World coordinates *)
  let worldX := inject_Z (chunkX * CHUNK_SIZE + x) in
  let worldZ := inject_Z (chunkZ * CHUNK_SIZE + z) in
  (* Generate multi-octave noise for more detail *)
  let o := forZ 0 OCTAVES (λ _, octaveStep worldX worldZ)
                (mkOctave 0 1 TERRAIN_SCALE 0) in
  (* Normalize to 0-1 range *)
  let noiseValue := ((noiseValue o / maxValue o + 1) / 2)%Q in
  (* Add mountain features with separate noise *)
  let mountainNoise :=
    ((noise2D (worldX * MOUNTAIN_SCALE) (worldZ * MOUNTAIN_SCALE) + 1) / 2)%Q in
  let mountainInfluence := pow mountainNoise (25 # 10) in
  let finalNoise := (noiseValue * (4 # 10) + mountainInfluence * (6 # 10))%Q in
  (* Clamp between 0 and 1 *)
  let clampedNoise := Qmax 0 (Qmin 1 finalNoise) in
  (* Map to height range *)
  Qfloor (inject_Z MIN_HEIGHT + clampedNoise * inject_Z (MAX_HEIGHT - MIN_HEIGHT)).

(** [heightMap[x] = []] and [heightMap[x][z] = height] both assign at the
    current end of the array, which appends. *)
Definition generateHeightMap (chunkX chunkZ : Z) : list (list Z) :=
  forZ 0 CHUNK_SIZE (λ x heightMap,
    heightMap ++ [forZ 0 CHUNK_SIZE (λ z row,
                    row ++ [columnHeight chunkX chunkZ x z]) []]) [].

(** "Initialize chunk with air": again every assignment appends. *)
Definition initChunk : Chunk :=
  forZ 0 CHUNK_SIZE (λ x chunk,
    chunk ++ [forZ 0 CHUNK_HEIGHT (λ y plane,
                plane ++ [forZ 0 CHUNK_SIZE (λ z row, row ++ [AIR]) []]) []]) [].

(** [random n] is the value of the [n]-th call of [Math.random()]. *)
Variable random : nat → Q.

(** The state of generateChunk: the chunk, the registered tree sites and
    the number of [Math.random()] calls made so far. *)
Record Gen : Type := mkGen {
  store : option Store;
  treePositions : list (Z * Z * Z);
  calls : nat
}.

Definition genWrite (x y z : Z) (t : BlockType) (g : Gen) : Gen :=
  mkGen (setCell x y z t (store g)) (treePositions g) (calls g).

(** The body of [for (let y = 0; y < terrainHeight; y++)]. *)
Definition fillCell (x z terrainHeight y : Z) (g : Gen) : Gen :=
  if y =? terrainHeight - 1 then
    (* Top layer is grass *)
    let g := genWrite x y z GRASS g in
    (* Chance to spawn a tree on grass (not too high, not too low) *)
    if (terrainHeight >? 10) && (terrainHeight <? 35) then
      if Qltb (random (calls g)) TREE_PROBABILITY
      then mkGen (store g) (treePositions g ++ [(x, terrainHeight, z)])
                 (Datatypes.S (calls g))
      else mkGen (store g) (treePositions g) (Datatypes.S (calls g))
    else g
  else if y >=? terrainHeight - 4 then
    (* Next 3 layers are dirt *)
    genWrite x y z DIRT g
  else
    (* Everything below is stone *)
    genWrite x y z STONE g.

(** The body of the two column loops of generateChunk. *)
Definition fillColumn (heightMap : list (list Z)) (x z : Z) (g : Gen) : Gen :=
  let terrainHeight := (heightMap !!! Z.to_nat x) !!! Z.to_nat z in
  let g := forZ 0 terrainHeight (fillCell x z terrainHeight) g in
  (* Add water at low elevations *)
  if terrainHeight <? WATER_LEVEL
  then forZ terrainHeight WATER_LEVEL (λ y, genWrite x y z WATER) g
  else g.

(** generateChunk up to, and without, the tree loop. *)
Definition fillTerrain (chunkX chunkZ : Z) (calls0 : nat) : Gen :=
  let chunk := initChunk in
  let heightMap := generateHeightMap chunkX chunkZ in
  forZ 0 CHUNK_SIZE (λ x,
    forZ 0 CHUNK_SIZE (λ z, fillColumn heightMap x z))
    (mkGen (Some (mkStore chunk [])) [] calls0).

(** One iteration of [for (const treePos of treePositions)]. *)
Definition placeTree (g : Gen) (treePos : Z * Z * Z) : Gen :=
  let '(x, y, z) := treePos in
  mkGen (generateTree (random (calls g)) (store g) x y z)
        (treePositions g) (Datatypes.S (calls g)).

(** generateChunk, started after [calls0] calls of [Math.random()]. *)
Definition generateChunkRun (chunkX chunkZ : Z) (calls0 : nat) : Gen :=
  let g := fillTerrain chunkX chunkZ calls0 in
  fold_left placeTree (treePositions g) g.

(** The chunk that generateChunk returns ([None]: it threw). *)
Definition generateChunk (chunkX chunkZ : Z) (calls0 : nat) : option Chunk :=
  grid <$> store (generateChunkRun chunkX chunkZ calls0).
End Terrain.

Section TerrainHeight.
(** [Math.sin] and [Math.cos]. *)
Variables sin cos : Q → Q.

Definition getTerrainHeight (worldX worldZ : Q) : Z :=
  (* Simple noise-based height calculation *)
  let noiseValue :=
    Qabs (sin (worldX * TERRAIN_SCALE) * cos (worldZ * TERRAIN_SCALE)) in
  Qfloor (inject_Z MIN_HEIGHT + noiseValue * inject_Z (MAX_HEIGHT - MIN_HEIGHT)).
End TerrainHeight.

(** A noise field and a random source to run the generator on. *)
Definition testNoise (a b : Q) : Q := ((a + b) * 5 - 1)%Q.
Definition testPow (a b : Q) : Q := (a * a)%Q.
Definition testRandom (n : nat) : Q := if Nat.even n then 1 # 100 else 1 # 2.

(** ** Vocabulary of the properties *)

(** The number of quads a mesher has emitted: the vertex offset advances
    by four per quad. *)
Definition quadCount (b : Buffers) : Z := vertexOffset b / 4.

(** A flat, one block thick slab of type [t]: [W] cells along x and [H]
    cells along z in the layer [y0], from the corner [(x0, y0, z0)]. *)
Definition slabOf (x0 y0 z0 W H : Z) (t : BlockType) (x y z : Z) : BlockType :=
  if decide (x0 ≤ x < x0 + W ∧ y = y0 ∧ z0 ≤ z < z0 + H) then t else AIR.

(** The grid holds that slab and Air everywhere else. *)
Definition isSlab (c : Chunk) (x0 y0 z0 W H : Z) (t : BlockType) : Prop :=
  t ≠ AIR ∧
  (0 ≤ x0 ∧ 0 < W ∧ x0 + W ≤ CHUNK_SIZE) ∧
  (0 ≤ y0 < CHUNK_HEIGHT) ∧
  (0 ≤ z0 ∧ 0 < H ∧ z0 + H ≤ CHUNK_SIZE) ∧
  ∀ x y z, inGrid x y z → cellAt c x y z = slabOf x0 y0 z0 W H t x y z.

(** The grid holds one block of type [t] at [(x0, y0, z0)] and Air
    everywhere else. *)
Definition isSingleCell (c : Chunk) (x0 y0 z0 : Z) (t : BlockType) : Prop :=
  isSlab c x0 y0 z0 1 1 t.

Definition isAllAir (c : Chunk) : Prop :=
  ∀ x y z, inGrid x y z → cellAt c x y z = AIR.

Definition isFullySolid (c : Chunk) : Prop :=
  ∀ x y z, inGrid x y z → cellAt c x y z ≠ AIR.

(** The six quads of the unit cube at [(x, y, z)], as the naive mesher
    pushes them. *)
Definition cubeQuads (x y z : Z) (t : BlockType) (b : Buffers) : Buffers :=
  fold_left (λ b face,
    pushIndices (fold_left (pushFaceVertex x y z face (threeColor (Block.getColor t)))
                           (fvertices face) b)) faces b.

(** The grid whose cell [(x, y, z)] holds [f x y z]. *)
Definition gridOf (f : Z → Z → Z → BlockType) : Chunk :=
  (λ x, (λ y, (λ z, f x y z) <$> seqZ 0 CHUNK_SIZE) <$> seqZ 0 CHUNK_HEIGHT)
    <$> seqZ 0 CHUNK_SIZE.

(** A check of [∀ x y z, inGrid x y z → cellAt c x y z = f x y z]. *)
Definition checkGrid (c : Chunk) (f : Z → Z → Z → BlockType) : bool :=
  forallb (λ x, forallb (λ y, forallb (λ z,
    bool_decide (cellAt c x y z = f x y z))
    (seqZ 0 CHUNK_SIZE)) (seqZ 0 CHUNK_HEIGHT)) (seqZ 0 CHUNK_SIZE).

(** The extent of the grid along the axis 0 (x), 1 (y) or 2 (z). *)
Definition gridExtent (axis : Z) : Z :=
  at3 [CHUNK_SIZE; CHUNK_HEIGHT; CHUNK_SIZE] axis.

(** The normal of each quad in a normal buffer: four vertices of three
    numbers per quad, all four the same. *)
Fixpoint quadNormals (ns : list Z) : list (Z * Z * Z) :=
  match ns with
  | nx :: ny :: nz :: _ :: _ :: _ :: _ :: _ :: _ :: _ :: _ :: _ :: rest =>
      (nx, ny, nz) :: quadNormals rest
  | _ => []
  end.

(** The number of emitted quads that face the direction [n]. *)
Definition countQuadsFacing (n : Z * Z * Z) (b : Buffers) : nat :=
  length (filter (λ m, m = n) (quadNormals (normals b))).

(** [n] quads were pushed: every quad adds twelve numbers to the vertex
    array and four to the vertex offset. *)
Definition quadsEmitted (b : Buffers) (n : Z) : Prop :=
  0 ≤ n ∧ vertexOffset b = 4 * n ∧ Z.of_nat (length (vertices b)) = 12 * n.

(** Three fixtures: one Stone block at (3, 5, 7); a 2 by 3 Stone slab in
    layer 5; a grid of Stone only. *)
Definition stoneCell : Chunk := gridOf (slabOf 3 5 7 1 1 STONE).
Definition stoneSlab : Chunk := gridOf (slabOf 4 5 6 2 3 STONE).
Definition stoneGrid : Chunk := gridOf (λ _ _ _, STONE).

(** The cells a tree at [(x, y, z)] may write: inside the grid, within the
    3 by 3 footprint around the trunk, and not below the ground level. *)
Definition treeCell (x y z x' y' z' : Z) : Prop :=
  inGrid x' y' z' ∧ x - 1 ≤ x' ≤ x + 1 ∧ z - 1 ≤ z' ≤ z + 1 ∧ y ≤ y'.

(** The block that the column loops of generateChunk leave at height [y]
    of a column whose terrain height is [h]. *)
Definition terrainBlock (h y : Z) : BlockType :=
  if y <? h then
    if y =? h - 1 then GRASS else if y >=? h - 4 then DIRT else STONE
  else if (h <? WATER_LEVEL) && (y <? WATER_LEVEL) then WATER else AIR.


(** The chunk under construction is the well-formed grid [c], nothing
    was thrown and no assignment went astray. *)
Definition storeIs (st : option Store) (c : Chunk) : Prop :=
  st = Some (mkStore c []) ∧ wf_chunk c.

(** The grid [c] holds [f] at every cell. *)
Definition gridHolds (c : Chunk) (f : Z → Z → Z → BlockType) : Prop :=
  ∀ x y z, inGrid x y z → cellAt c x y z = f x y z.


(** A tree site registered for terrain heights [H]: a column of the grid
    whose height is between 11 and 34, with that height as ground level. *)
Definition siteOf (H : Z → Z → Z) (site : Z * Z * Z) : Prop :=
  let '(x, y, z) := site in
  0 ≤ x < CHUNK_SIZE ∧ 0 ≤ z < CHUNK_SIZE ∧ y = H x z ∧ 10 < y < 35.

(** The state of generateChunk is sound: its grid holds [f], and every
    registered tree site is a site for the heights [H]. *)
Definition genHolds (H : Z → Z → Z) (g : Gen) (f : Z → Z → Z → BlockType) : Prop :=
  (∃ c, storeIs (store g) c ∧ gridHolds c f) ∧ Forall (siteOf H) (treePositions g).


(** What the mask-building loops store for the slice cell [(i, j)]. *)
Definition maskCell (chunkData : Chunk) (axis s i j : Z) : option BlockType :=
  let u := (axis + 1) `mod` 3 in
  let v := (axis + 2) `mod` 3 in
  let q := sweepDir axis in
  let d := sliceCoord axis s u i v j in
  let blockType := getBlock chunkData (at3 d 0) (at3 d 1) (at3 d 2) in
  let neighborType :=
    getBlock chunkData (at3 d 0 + at3 q 0) (at3 d 1 + at3 q 1) (at3 d 2 + at3 q 2) in
  if bool_decide (blockType ≠ AIR) && bool_decide (neighborType = AIR)
  then Some blockType else None.

(** The quad that the greedy scan emits for a [w] by [h] rectangle found
    at [(i, j)] in slice [s] of the sweep along [axis]. *)
Definition sliceQuad (axis s i j w h : Z) (t : BlockType) (b : Buffers) : Buffers :=
  let u := (axis + 1) `mod` 3 in
  let v := (axis + 2) `mod` 3 in
  pushQuad (sliceCoord axis s u i v j) (set3 [0; 0; 0] u w) (set3 [0; 0; 0] v h)
           (sweepDir axis) (threeColor (Block.getColor t)) b.

(** ** Flat indices (client mesher file) *)

(** JavaScript's [a % b]: the remainder has the sign of [a]. *)
Definition jsRem (a b : Z) : Z := Z.rem a b.

(** [coordsToIndex(x, y, z)] *)
Definition coordsToIndex (x y z : Z) : Z :=
  x * CHUNK_HEIGHT * CHUNK_SIZE + y * CHUNK_SIZE + z.

(** [indexToCoords(index)]: [Math.floor] of a quotient of integers is the
    floor division. *)
Definition indexToCoords (index : Z) : Z * Z * Z :=
  let x := index / (CHUNK_HEIGHT * CHUNK_SIZE) in
  let y := jsRem index (CHUNK_HEIGHT * CHUNK_SIZE) / CHUNK_SIZE in
  let z := jsRem index CHUNK_SIZE in
  (x, y, z).

(** The four buffers agree: [n] quads, four vertices of three numbers in
    each of the position, normal and colour arrays, two triangles in the
    index array, and every index names a pushed vertex. *)
Definition buffersOk (b : Buffers) (n : Z) : Prop :=
  0 ≤ n ∧ vertexOffset b = 4 * n ∧
  Z.of_nat (length (vertices b)) = 12 * n ∧
  Z.of_nat (length (normals b)) = 12 * n ∧
  Z.of_nat (length (colors b)) = 12 * n ∧
  Z.of_nat (length (indices b)) = 6 * n ∧
  Forall (λ i, 0 ≤ i < vertexOffset b) (indices b).

(** The three directions the greedy mesher sweeps. *)
Definition positiveAxes : list (Z * Z * Z) := [(1, 0, 0); (0, 1, 0); (0, 0, 1)].

(** The normals pushed so far: whole quads, all facing a positive axis. *)
Definition normalsPositive (b : Buffers) : Prop :=
  (∃ k : nat, length (normals b) = (12 * k)%nat) ∧
  Forall (λ n, n ∈ positiveAxes) (quadNormals (normals b)).

(** ** The shape of a tree (server side) *)

(** [TRUNK_HEIGHT] of generateTree for the value [r] of its
    [Math.random()] call. *)
Definition trunkHeight (r : Q) : Z := 5 + Qfloor (r * 3) - 2.

(** The assignments that make up a tree rooted at [(x, y, z)]: the trunk,
    the 3 by 3 by 3 canopy without its centre, clipped to the columns of
    the grid, and the cap; all of them below the top of the grid. *)
Definition treeWrite (r : Q) (x y z : Z) (w : Write) : Prop :=
  let '(x', y', z', t) := w in
  let leavesY := y + trunkHeight r in
  y' < CHUNK_HEIGHT ∧
  ((t = WOOD ∧ x' = x ∧ z' = z ∧ y ≤ y' < leavesY) ∨
   (t = LEAVES ∧ x - 1 ≤ x' ≤ x + 1 ∧ z - 1 ≤ z' ≤ z + 1 ∧
    leavesY ≤ y' ≤ leavesY + 2 ∧
    0 ≤ x' < CHUNK_SIZE ∧ 0 ≤ z' < CHUNK_SIZE ∧
    ¬ (x' = x ∧ z' = z ∧ y' = leavesY)) ∨
   (t = LEAVES ∧ x' = x ∧ z' = z ∧ y' = leavesY + 3)).

(** A list of assignments, executed in order. *)
Definition runWrites {S : Type} (write : Z → Z → Z → BlockType → S → S)
    (ws : list Write) (s : S) : S :=
  fold_left (λ s w, let '(x, y, z, t) := w in write x y z t s) ws s.

(** The grid [c] is the grid [c0] of the column fill, but for Wood and
    Leaves between the heights [lo] and [hi]. *)
Definition treesBetween (lo hi : Z) (c0 c : Chunk) : Prop :=
  ∀ x y z, inGrid x y z →
    cellAt c x y z = cellAt c0 x y z ∨
    ((cellAt c x y z = WOOD ∨ cellAt c x y z = LEAVES) ∧ lo ≤ y ≤ hi).

(** ** Vectors *)

(** An object [{ x, y, z }] of numbers. *)
Module Vec3.
Record Vec3 : Type := mkVec3 { x : Q; y : Q; z : Q }.
End Vec3.

(** [a <= b] on numbers. *)
Definition Qleb (a b : Q) : bool := Qle_bool a b.

(** ** The player (client side) *)

(** The keyboard state [this.keys]. *)
Module Keys.
Record Keys : Type := mkKeys {
  forward : bool;
  backward : bool;
  left : bool;
  right : bool;
  jump : bool
}.
End Keys.

Module Player.
(** The fields of a Player that the methods below read or write. *)
Record Player : Type := mkPlayer {
  position : Vec3.Vec3;
  velocity : Vec3.Vec3;
  health : Q;
  isGrounded : bool;
  keys : Keys.Keys;
  lastAttackTime : Z
}.

(** Movement and combat parameters, set once by the constructor. *)
Definition moveSpeed : Q := 2 # 10.
Definition jumpForce : Q := 5 # 10.
Definition gravity : Q := - (2 # 100).
Definition terminalVelocity : Q := - (1).
Definition attackCooldown : Z := 500.

(** [new Player(username, startX, startY, startZ)]. *)
Definition constructor (startX startY startZ : Q) : Player :=
  mkPlayer (Vec3.mkVec3 startX startY startZ) (Vec3.mkVec3 0 0 0) 100 false
           (Keys.mkKeys false false false false false) 0.

(** [canAttack()], with [now] the value of [Date.now()]. *)
Definition canAttack (now : Z) (p : Player) : bool * Player :=
  if now - lastAttackTime p <? attackCooldown then (false, p)
  else (true, mkPlayer (position p) (velocity p) (health p) (isGrounded p)
                       (keys p) now).

Definition setPosition (x y z : Q) (p : Player) : Player :=
  mkPlayer (Vec3.mkVec3 x y z) (velocity p) (health p) (isGrounded p) (keys p)
           (lastAttackTime p).

Definition setVelocityY (vy : Q) (p : Player) : Player :=
  mkPlayer (position p)
           (Vec3.mkVec3 (Vec3.x (velocity p)) vy (Vec3.z (velocity p)))
           (health p) (isGrounded p) (keys p) (lastAttackTime p).

Definition setGrounded (g : bool) (p : Player) : Player :=
  mkPlayer (position p) (velocity p) (health p) g (keys p) (lastAttackTime p).

Definition setHealth (h : Q) (p : Player) : Player :=
  mkPlayer (position p) (velocity p) h (isGrounded p) (keys p) (lastAttackTime p).

Section Movement.
(** [Math.sqrt]. *)
Variable sqrt : Q → Q.
Local Open Scope Q_scope.

Definition moveForward (cameraDirection : Vec3.Vec3) (p : Player) : Player :=
  (* Move in the direction the camera is facing (XZ plane only) *)
  let dx := Vec3.x cameraDirection in
  let dz := Vec3.z cameraDirection in
  let len := sqrt (dx * dx + dz * dz) in
  let dx' := if Qltb 0 len then dx / len else dx in
  let dz' := if Qltb 0 len then dz / len else dz in
  setPosition (Vec3.x (position p) + dx' * moveSpeed) (Vec3.y (position p))
              (Vec3.z (position p) + dz' * moveSpeed) p.

Definition moveBackward (cameraDirection : Vec3.Vec3) (p : Player) : Player :=
  let dx := Vec3.x cameraDirection in
  let dz := Vec3.z cameraDirection in
  let len := sqrt (dx * dx + dz * dz) in
  let dx' := if Qltb 0 len then dx / len else dx in
  let dz' := if Qltb 0 len then dz / len else dz in
  setPosition (Vec3.x (position p) - dx' * moveSpeed) (Vec3.y (position p))
              (Vec3.z (position p) - dz' * moveSpeed) p.

Definition strafeLeft (cameraDirection : Vec3.Vec3) (p : Player) : Player :=
  (* Move perpendicular to camera direction *)
  let rx := - Vec3.z cameraDirection in
  let rz := Vec3.x cameraDirection in
  let len := sqrt (rx * rx + rz * rz) in
  let rx' := if Qltb 0 len then rx / len else rx in
  let rz' := if Qltb 0 len then rz / len else rz in
  setPosition (Vec3.x (position p) - rx' * moveSpeed) (Vec3.y (position p))
              (Vec3.z (position p) - rz' * moveSpeed) p.

Definition strafeRight (cameraDirection : Vec3.Vec3) (p : Player) : Player :=
  let rx := - Vec3.z cameraDirection in
  let rz := Vec3.x cameraDirection in
  let len := sqrt (rx * rx + rz * rz) in
  let rx' := if Qltb 0 len then rx / len else rx in
  let rz' := if Qltb 0 len then rz / len else rz in
  setPosition (Vec3.x (position p) + rx' * moveSpeed) (Vec3.y (position p))
              (Vec3.z (position p) + rz' * moveSpeed) p.

Definition jump (p : Player) : Player :=
  if isGrounded p then setGrounded false (setVelocityY jumpForce p) else p.

Definition update (cameraDirection : Vec3.Vec3) (p : Player) : Player :=
  (* Handle keyboard input *)
  let p := if Keys.forward (keys p) then moveForward cameraDirection p else p in
  let p := if Keys.backward (keys p) then moveBackward cameraDirection p else p in
  let p := if Keys.left (keys p) then strafeLeft cameraDirection p else p in
  let p := if Keys.right (keys p) then strafeRight cameraDirection p else p in
  let p := if Keys.jump (keys p) then jump p else p in
  (* Apply gravity *)
  let p := setVelocityY (Vec3.y (velocity p) + gravity) p in
  (* Clamp to terminal velocity *)
  let p := if Qltb (Vec3.y (velocity p)) terminalVelocity
           then setVelocityY terminalVelocity p else p in
  (* Apply velocity to position *)
  let p := setPosition (Vec3.x (position p))
                       (Vec3.y (position p) + Vec3.y (velocity p))
                       (Vec3.z (position p)) p in
  (* Ground collision - stop at terrain level *)
  let groundLevel : Q := 18 in
  if Qleb (Vec3.y (position p)) groundLevel
  then setGrounded true
         (setVelocityY 0
            (setPosition (Vec3.x (position p)) groundLevel (Vec3.z (position p)) p))
  else setGrounded false p.
End Movement.

Definition takeDamage (amount : Q) (p : Player) : Player :=
  setHealth (Qmax 0 (health p - amount))%Q p.

Definition heal (amount : Q) (p : Player) : Player :=
  setHealth (Qmin 100 (health p + amount))%Q p.
End Player.

(** A call of one of the two health methods. *)
Inductive HealthCall : Type :=
  | TakeDamage (amount : Q)
  | Heal (amount : Q).

Definition healthAmount (c : HealthCall) : Q :=
  match c with TakeDamage a => a | Heal a => a end.

Definition healthCall (p : Player.Player) (c : HealthCall) : Player.Player :=
  match c with
  | TakeDamage a => Player.takeDamage a p
  | Heal a => Player.heal a p
  end.

(** The clock readings at which a run of [canAttack()] calls, made at the
    readings [nows], answered true. *)
Fixpoint acceptedAttacks (nows : list Z) (p : Player.Player) : list Z :=
  match nows with
  | [] => []
  | now :: nows =>
      let '(ok, p') := Player.canAttack now p in
      if ok then now :: acceptedAttacks nows p' else acceptedAttacks nows p'
  end.

(** ** The renderer's click handlers (client side) *)

Module Renderer.
(** A remote player of the game store. *)
Record Other : Type := mkOther {
  id : string;
  position : Vec3.Vec3
}.

(** The block under the crosshair: integer chunk and cell coordinates. *)
Record TargetBlock : Type := mkTargetBlock {
  chunkCoords : Z * Z;
  localPosition : Z * Z * Z;
  blockType : BlockType;
  adjacentPosition : Z * Z * Z
}.

(** What a handler asks of the inventory store and of the socket. *)
Inductive Effect : Type :=
  | addItem (blockType : BlockType)
  | removeItem (blockType : BlockType)
  | emitBreakBlock (chunkX chunkZ localX localY localZ : Z)
  | emitPlaceBlock (chunkX chunkZ localX localY localZ : Z) (blockType : BlockType)
  | emitAttack (id : string).

Definition ATTACK_RANGE : Q := 3.

Section Attack.
(** [Math.sqrt]. *)
Variable sqrt : Q → Q.
Local Open Scope Q_scope.

Definition distanceTo (playerPos : Vec3.Vec3) (other : Other) : Q :=
  let dx := Vec3.x (position other) - Vec3.x playerPos in
  let dy := Vec3.y (position other) - Vec3.y playerPos in
  let dz := Vec3.z (position other) - Vec3.z playerPos in
  sqrt (dx * dx + dy * dy + dz * dz).

(** The body of [for (const other of currentOtherPlayers)], on the pair
    of [closestPlayer] and [closestDistance]. *)
Definition closestStep (playerPos : Vec3.Vec3) (st : option Other * Q) (other : Other)
    : option Other * Q :=
  let distance := distanceTo playerPos other in
  if Qleb distance ATTACK_RANGE && Qltb distance st.2
  then (Some other, distance)
  else st.

Definition closestPlayer (playerPos : Vec3.Vec3) (others : list Other)
    : option Other * Q :=
  fold_left (closestStep playerPos) others (None, ATTACK_RANGE).

(** The left-click handler, called at the clock reading [now]. *)
Definition onBreakBlock (targetBlock : option TargetBlock) (now : Z)
    (others : list Other) (p : Player.Player) : list Effect * Player.Player :=
  match targetBlock with
  | Some tb =>
      (* Add block to inventory, emit break block to server *)
      let '(cx, cz) := chunkCoords tb in
      let '(lx, ly, lz) := localPosition tb in
      ([addItem (blockType tb); emitBreakBlock cx cz lx ly lz], p)
  | None =>
      (* Not targeting a block - try to attack a player *)
      let '(ok, p) := Player.canAttack now p in
      if negb ok then ([], p)
      else
        match (closestPlayer (Player.position p) others).1 with
        | Some other => ([emitAttack (id other)], p)
        | None => ([], p)
        end
  end.
End Attack.

(** The right-click handler.  [hasSelectedBlock], [selectedBlockType] and
    [collision] are the answers of the inventory store and of
    checkPlayerCollision. *)
Definition onPlaceBlock (targetBlock : option TargetBlock) (hasSelectedBlock : bool)
    (selectedBlockType : option BlockType) (collision : bool) : list Effect :=
  match targetBlock with
  | None => []
  | Some tb =>
      if negb hasSelectedBlock then []
      else
        match selectedBlockType with
        | None => []
        | Some t =>
            if collision then []
            else
              (* Calculate chunk and local coordinates for adjacent position *)
              let '(ax, ay, az) := adjacentPosition tb in
              let CHUNK_SIZE := 16 in
              let chunkX := ax / CHUNK_SIZE in
              let chunkZ := az / CHUNK_SIZE in
              let localX := jsRem (jsRem ax CHUNK_SIZE + CHUNK_SIZE) CHUNK_SIZE in
              let localY := ay in
              let localZ := jsRem (jsRem az CHUNK_SIZE + CHUNK_SIZE) CHUNK_SIZE in
              [removeItem t; emitPlaceBlock chunkX chunkZ localX localY localZ t]
        end
  end.
End Renderer.

(** ** The colour of a remote player (client side) *)

(** [char.charCodeAt(0)]. *)
Definition charCodeAt0 (char : ascii) : Z := Z.of_N (N_of_ascii char).

Definition playerColors : list string := [
  "#FF6B6B"; (* Red *)
  "#4ECDC4"; (* Cyan *)
  "#45B7D1"; (* Blue *)
  "#FFA07A"; (* Orange *)
  "#98D8C8"; (* Mint *)
  "#F7DC6F"; (* Yellow *)
  "#BB8FCE"; (* Purple *)
  "#85C1E2"  (* Light Blue *)
]%string.

Definition playerHash (playerId : string) : Z :=
  fold_left (λ acc char, acc + charCodeAt0 char) (list_ascii_of_string playerId) 0.

(** getPlayerColor; [None] is [undefined]. *)
Definition getPlayerColor (playerId : string) : option string :=
  let colors := playerColors in
  let hash := playerHash playerId in
  jsIndex colors (jsRem hash (Z.of_nat (length colors))).

(** ** The bot's choice of a target (server side) *)

Module Bot.
(** The fields of a PlayerEntity that the bot reads. *)
Record PlayerEntity : Type := mkPlayerEntity {
  id : string;
  x : Q;
  y : Q;
  isAlive : bool
}.

Record BotTarget : Type := mkBotTarget {
  targetId : string;
  targetX : Q;
  targetY : Q;
  distance : Q
}.

(** A number or [Infinity]. *)
Inductive Distance : Type :=
  | Infinity
  | Finite (d : Q).

(** [d < m]. *)
Definition ltDistance (d : Q) (m : Distance) : bool :=
  match m with
  | Infinity => true
  | Finite m => Qltb d m
  end.

Section Nearest.
(** [Math.sqrt]. *)
Variable sqrt : Q → Q.
Local Open Scope Q_scope.

(** The body of [for (const [id, player] of players)], on the pair of
    [nearest] and [minDistance]. *)
Definition nearestStep (this : PlayerEntity) (st : option BotTarget * Distance)
    (entry : string * PlayerEntity) : option BotTarget * Distance :=
  let '(key, player) := entry in
  (* Skip self and dead players *)
  if bool_decide (key = id this) || negb (isAlive player) then st
  else
    let dx := x player - x this in
    let dy := y player - y this in
    let distance := sqrt (dx * dx + dy * dy) in
    if ltDistance distance st.2
    then (Some (mkBotTarget (id player) (x player) (y player) distance),
          Finite distance)
    else st.

(** findNearestPlayer, over the entries of the [players] map in
    insertion order. *)
Definition findNearestPlayer (this : PlayerEntity)
    (players : list (string * PlayerEntity)) : option BotTarget :=
  (fold_left (nearestStep this) players (None, Infinity)).1.
End Nearest.
End Bot.

(** ** Vocabulary of the greedy mesher's tiling *)

(** The extent of a slice along its two in-plane axes [u] and [v]. *)
Definition sliceU (axis : Z) : Z := dimsAt axis ((axis + 1) `mod` 3).
Definition sliceV (axis : Z) : Z := dimsAt axis ((axis + 2) `mod` 3).

(** A merged rectangle: its sweep axis and slice, its corner, width and
    height in the slice, and its block type. *)
Record Rect : Type := mkRect {
  raxis : Z;
  rslice : Z;
  ri : Z;
  rj : Z;
  rw : Z;
  rh : Z;
  rtype : BlockType
}.

(** The slice cell [(i, j)] of slice [s] of the sweep [axis] lies in [r]. *)
Definition inRect (r : Rect) (axis s i j : Z) : Prop :=
  raxis r = axis ∧ rslice r = s ∧
  ri r ≤ i < ri r + rw r ∧ rj r ≤ j < rj r + rh r.

#[global] Instance inRect_dec r axis s i j : Decision (inRect r axis s i j).
Proof. unfold inRect. apply _. Defined.

Definition covered (rs : list Rect) (axis s i j : Z) : Prop :=
  Exists (λ r, inRect r axis s i j) rs.

(** The quads of a list of rectangles, pushed in order. *)
Definition emitRects (rs : list Rect) (b : Buffers) : Buffers :=
  fold_left (λ b r, sliceQuad (raxis r) (rslice r) (ri r) (rj r) (rw r) (rh r)
                              (rtype r) b) rs b.

(** [r] lies inside its slice, and every cell of it is an exposed face of
    the type of [r]. *)
Definition validRect (c : Chunk) (r : Rect) : Prop :=
  0 ≤ raxis r < 3 ∧ 0 ≤ rslice r < dimsAt (raxis r) (raxis r) ∧
  0 ≤ ri r ∧ 0 < rw r ∧ ri r + rw r ≤ sliceU (raxis r) ∧
  0 ≤ rj r ∧ 0 < rh r ∧ rj r + rh r ≤ sliceV (raxis r) ∧
  ∀ i j, ri r ≤ i < ri r + rw r → rj r ≤ j < rj r + rh r →
         maskCell c (raxis r) (rslice r) i j = Some (rtype r).

(** No slice cell lies in two rectangles of the list. *)
Definition disjointRects (rs : list Rect) : Prop :=
  ∀ (n m : nat) r r' axis s i j,
    rs !! n = Some r → rs !! m = Some r' →
    inRect r axis s i j → inRect r' axis s i j → n = m.

(** The state of the scan of slice [s]: the quads of [rs] were pushed on
    top of [b0], and the mask holds what the mask loops stored, but for
    the cells of [rs], which are cleared. *)
Definition sliceInv (c : Chunk) (axis s : Z) (b0 : Buffers) (rs : list Rect)
    (st : Buffers * Mask) : Prop :=
  st.1 = emitRects rs b0 ∧
  Z.of_nat (length st.2) = sliceU axis * sliceV axis ∧
  (∀ i j, 0 ≤ i < sliceU axis → 0 ≤ j < sliceV axis →
     maskAt st.2 (i + j * sliceU axis) =
       if decide (covered rs axis s i j) then None else maskCell c axis s i j) ∧
  Forall (λ r, validRect c r ∧ raxis r = axis ∧ rslice r = s) rs ∧
  disjointRects rs.

(** ** Vocabulary of the naive mesher's quads *)

(** The quad that the naive mesher pushes for the face [face] of the
    block at [(x, y, z)]. *)
Definition faceQuad (c : Chunk) (b : Buffers) (f : Z * Z * Z * Face) : Buffers :=
  let '(x, y, z, face) := f in
  pushIndices (fold_left (pushFaceVertex x y z face
                            (threeColor (Block.getColor (cellAt c x y z))))
                         (fvertices face) b).

(** The exposed faces of the block at [(x, y, z)], in the order of
    [faces]; none for Air. *)
Definition cellFaces (c : Chunk) (x y z : Z) : list (Z * Z * Z * Face) :=
  if bool_decide (cellAt c x y z = AIR) then []
  else (λ face, (x, y, z, face)) <$>
         filter (λ face, shouldRenderFace c x y z (fdir face) = true) faces.

(** The exposed faces of all blocks of the grid, in the order of the cell
    loops. *)
Definition exposedFaces (c : Chunk) : list (Z * Z * Z * Face) :=
  seqZ 0 CHUNK_SIZE ≫= λ x,
    seqZ 0 CHUNK_HEIGHT ≫= λ y,
      seqZ 0 CHUNK_SIZE ≫= λ z, cellFaces c x y z.

(** The face of [faces] that looks along the sweep [axis]. *)
Definition sweepFace (axis : Z) : Face :=
  if axis =? 0 then mkFace (1, 0, 0) [(1, 0, 0); (1, 0, 1); (1, 1, 1); (1, 1, 0)] (1, 0, 0)
  else if axis =? 1
  then mkFace (0, 1, 0) [(0, 1, 0); (0, 1, 1); (1, 1, 1); (1, 1, 0)] (0, 1, 0)
  else mkFace (0, 0, 1) [(0, 0, 1); (1, 0, 1); (1, 1, 1); (0, 1, 1)] (0, 0, 1).

(** The block face at the corner cell of a rectangle. *)
Definition cornerFace (r : Rect) : Z * Z * Z * Face :=
  let d := sliceCoord (raxis r) (rslice r) ((raxis r + 1) `mod` 3) (ri r)
                      ((raxis r + 2) `mod` 3) (rj r) in
  (at3 d 0, at3 d 1, at3 d 2, sweepFace (raxis r)).

(** ** The clouds of the Environment component (client side) *)

Module Environment.
Record Cloud : Type := mkCloud {
  position : Vec3.Vec3;
  scale : Q;
  rotation : Q
}.

Section Clouds.
(** [random n] is the value of the [n]-th call of [Math.random()]; [PI]
    is [Math.PI]. *)
Variable random : nat → Q.
Variable PI : Q.
Local Open Scope Q_scope.

(** The body of [for (let i = 0; i < 20; i++)], on the array and the
    number of [Math.random()] calls made so far. *)
Definition pushCloud (st : list Cloud * nat) : list Cloud * nat :=
  let '(cloudArray, n) := st in
  (cloudArray ++
     [mkCloud (Vec3.mkVec3 ((random n - (5 # 10)) * 200)
                           (40 + random (n + 1) * 20)
                           ((random (n + 2) - (5 # 10)) * 200))
              (3 + random (n + 3) * 4)
              (random (n + 4) * PI)],
   (n + 5)%nat).

(** Generate random cloud positions. *)
Definition clouds (calls0 : nat) : list Cloud :=
  (forZ 0 20 (λ _, pushCloud) ([], calls0)).1.

(** One frame of the drift: every cloud moves by 0.01 along x and wraps
    around past 100. *)
Definition driftCloud (cloud : Cloud) : Cloud :=
  let x := Vec3.x (position cloud) + (1 # 100) in
  let x := if Qltb 100 x then - (100) else x in
  mkCloud (Vec3.mkVec3 x (Vec3.y (position cloud)) (Vec3.z (position cloud)))
          (scale cloud) (rotation cloud).

Definition driftFrame (cloudArray : list Cloud) : list Cloud :=
  driftCloud <$> cloudArray.
End Clouds.
End Environment.

(** A cloud inside the box of the sky. *)
Definition cloudInSky (cloud : Environment.Cloud) : Prop :=
  (-(100) <= Vec3.x (Environment.position cloud))%Q ∧
  (Vec3.x (Environment.position cloud) <= 100)%Q ∧
  (40 <= Vec3.y (Environment.position cloud))%Q ∧
  (Vec3.y (Environment.position cloud) <= 60)%Q ∧
  (-(100) <= Vec3.z (Environment.position cloud))%Q ∧
  (Vec3.z (Environment.position cloud) <= 100)%Q ∧
  (3 <= Environment.scale cloud)%Q ∧ (Environment.scale cloud <= 7)%Q.

(** The slice, and the cell in it, of the block at [(x, y, z)] in the
    sweep along [axis]. *)
Definition sliceCell (axis x y z : Z) : Z * Z * Z :=
  (at3 [x; y; z] axis,
   at3 [x; y; z] ((axis + 1) `mod` 3),
   at3 [x; y; z] ((axis + 2) `mod` 3)).

(** ** Vertices *)

(** The points of a vertex array: three numbers per vertex. *)
Fixpoint vertexPoints (vs : list Z) : list (Z * Z * Z) :=
  match vs with
  | x :: y :: z :: rest => (x, y, z) :: vertexPoints rest
  | _ => []
  end.

(** A point of the box that the grid occupies: corners of cells have
    coordinates from 0 to the extent of the grid, both included. *)
Definition inChunkBox (p : Z * Z * Z) : Prop :=
  let '(x, y, z) := p in
  0 ≤ x ≤ CHUNK_SIZE ∧ 0 ≤ y ≤ CHUNK_HEIGHT ∧ 0 ≤ z ≤ CHUNK_SIZE.

(** All vertices pushed so far are points of the box. *)
Definition verticesInBox (b : Buffers) : Prop :=
  (∃ k : nat, length (vertices b) = (3 * k)%nat) ∧
  Forall inChunkBox (vertexPoints (vertices b)).

(** * Properties *)

(** * Loops *)

Section Loops.
Context {S : Type}.
Implicit Types (body : Z → S → S) (s : S).

Lemma forZ_empty lo hi body s : hi ≤ lo → forZ lo hi body s = s.
Proof. intros. unfold forZ. by rewrite seqZ_nil by lia. Qed.

Lemma forZ_first lo hi body s :
  lo < hi → forZ lo hi body s = forZ (lo + 1) hi body (body lo s).
Proof.
  intros. unfold forZ. rewrite seqZ_cons by lia. simpl.
  by replace (Z.succ lo) with (lo + 1) by lia;
     replace (Z.pred (hi - lo)) with (hi - (lo + 1)) by lia.
Qed.

Lemma forZ_last lo hi body s :
  lo ≤ hi → forZ lo (hi + 1) body s = body hi (forZ lo hi body s).
Proof.
  intros. unfold forZ.
  replace (hi + 1 - lo) with ((hi - lo) + 1) by lia.
  rewrite seqZ_app by lia. rewrite fold_left_app.
  rewrite (seqZ_cons _ 1) by lia. rewrite seqZ_nil by lia. simpl.
  by replace (lo + (hi - lo)) with hi by lia.
Qed.

(** The loop-invariant rule. *)
Lemma forZ_ind (P : Z → S → Prop) lo hi body s :
  lo ≤ hi →
  P lo s →
  (∀ i s', lo ≤ i < hi → P i s' → P (i + 1) (body i s')) →
  P hi (forZ lo hi body s).
Proof.
  intros Hle H0 Hstep.
  assert (∀ n : nat, lo + Z.of_nat n ≤ hi →
            P (lo + Z.of_nat n) (forZ lo (lo + Z.of_nat n) body s)) as Hn.
  { induction n as [|n IH]; intros Hn.
    - rewrite Z.add_0_r, forZ_empty by lia. done.
    - replace (lo + Z.of_nat (Datatypes.S n)) with (lo + Z.of_nat n + 1) by lia.
      rewrite forZ_last by lia. apply Hstep; [lia|]. apply IH. lia. }
  specialize (Hn (Z.to_nat (hi - lo))).
  replace (lo + Z.of_nat (Z.to_nat (hi - lo))) with hi in Hn by lia.
  apply Hn. lia.
Qed.

Lemma forZ_id lo hi body s :
  (∀ i s', lo ≤ i < hi → body i s' = s') → forZ lo hi body s = s.
Proof.
  intros Hid. destruct (decide (lo ≤ hi)) as [Hle|Hgt].
  - apply (forZ_ind (λ _ s', s' = s)); [done..|].
    intros i s' Hi ->. by apply Hid.
  - apply forZ_empty. lia.
Qed.

Lemma forZ_split lo mid hi body s :
  lo ≤ mid ≤ hi → forZ lo hi body s = forZ mid hi body (forZ lo mid body s).
Proof.
  intros. unfold forZ. replace (hi - lo) with ((mid - lo) + (hi - mid)) by lia.
  rewrite seqZ_app by lia. rewrite fold_left_app.
  by replace (lo + (mid - lo)) with mid by lia.
Qed.

(** A loop whose body acts at one index only. *)
Lemma forZ_single lo hi k body s :
  lo ≤ k < hi →
  (∀ i s', lo ≤ i < hi → i ≠ k → body i s' = s') →
  forZ lo hi body s = body k s.
Proof.
  intros Hk Hid.
  rewrite (forZ_split lo k hi) by lia.
  rewrite (forZ_id lo k) by (intros; apply Hid; lia).
  rewrite forZ_first by lia.
  apply forZ_id. intros; apply Hid; lia.
Qed.

Lemma forZ_ext lo hi body body' s :
  (∀ i s', lo ≤ i < hi → body i s' = body' i s') →
  forZ lo hi body s = forZ lo hi body' s.
Proof.
  intros Hext. destruct (decide (lo ≤ hi)) as [Hle|Hgt].
  - apply (forZ_ind (λ i s', s' = forZ lo i body' s)); [done| |].
    + by rewrite forZ_empty.
    + intros i s' Hi ->. rewrite forZ_last by lia. by apply Hext.
  - by rewrite !forZ_empty by lia.
Qed.
End Loops.

(** * Face exposure and solidity *)

Lemma getBlock_inGrid c x y z :
  getBlock c x y z = if decide (inGrid x y z) then cellAt c x y z else AIR.
Proof.
  unfold getBlock, inGrid, CHUNK_SIZE, CHUNK_HEIGHT.
  destruct (decide _) as [H|H].
  - repeat match goal with
           | |- context [?a <? ?b] => destruct (Z.ltb_spec a b); try lia
           | |- context [?a >=? ?b] => rewrite (Z.geb_leb a b);
                                       destruct (Z.leb_spec b a); try lia
           end. done.
  - repeat match goal with
           | |- context [?a <? ?b] => destruct (Z.ltb_spec a b); try done
           | |- context [?a >=? ?b] => rewrite (Z.geb_leb a b);
                                       destruct (Z.leb_spec b a); try done
           end. simpl. lia.
Qed.

Lemma getBlock_in c x y z : inGrid x y z → getBlock c x y z = cellAt c x y z.
Proof. intros. rewrite getBlock_inGrid. by rewrite decide_True. Qed.

Lemma getBlock_out c x y z : ¬ inGrid x y z → getBlock c x y z = AIR.
Proof. intros. rewrite getBlock_inGrid. by rewrite decide_False. Qed.

Lemma shouldRenderFace_true c x y z dx dy dz :
  shouldRenderFace c x y z (dx, dy, dz) = true ↔
  getBlock c (x + dx) (y + dy) (z + dz) = AIR.
Proof. unfold shouldRenderFace. by rewrite bool_decide_eq_true. Qed.

(** C7: the face of cell (x, y, z) towards a direction is exposed exactly
    when the neighbour cell in that direction holds Air, where a
    neighbour outside the 16 x 64 x 16 grid counts as Air; a face against
    a Water neighbour is not exposed. *)
Theorem shouldRenderFace_exposed_iff_air (c : Chunk) (x y z dx dy dz : Z) :
  (shouldRenderFace c x y z (dx, dy, dz) = true ↔
     (¬ inGrid (x + dx) (y + dy) (z + dz) ∨
      cellAt c (x + dx) (y + dy) (z + dz) = AIR)) ∧
  (¬ inGrid (x + dx) (y + dy) (z + dz) →
     getBlock c (x + dx) (y + dy) (z + dz) = AIR) ∧
  (inGrid (x + dx) (y + dy) (z + dz) →
     cellAt c (x + dx) (y + dy) (z + dz) = WATER →
     shouldRenderFace c x y z (dx, dy, dz) = false).
Proof.
  split; [|split].
  - rewrite shouldRenderFace_true, getBlock_inGrid.
    destruct (decide _) as [Hin|Hout]; [|by split; [left|]].
    split; [by right|]. by intros [?|?].
  - apply getBlock_out.
  - intros Hin Hw. apply not_true_is_false.
    rewrite shouldRenderFace_true, getBlock_in, Hw by done. done.
Qed.

Lemma shouldRenderFace_exposed_iff_air_witness :
  shouldRenderFace (putBlock airChunk 1 2 1 WATER) 1 1 1 (0, 1, 0) = false.
Proof.
  apply (shouldRenderFace_exposed_iff_air (putBlock airChunk 1 2 1 WATER) 1 1 1 0 1 0).
  - unfold inGrid, CHUNK_SIZE, CHUNK_HEIGHT. lia.
  - reflexivity.
Defined.

(** C5, as the code has it: inside the grid, isSolid is false exactly for
    an Air cell, so it is true for Grass, Dirt, Stone, Wood, Leaves and
    also for Water; the client's Block.isSolid agrees. *)
Theorem isSolid_iff_not_air (c : Chunk) (x y z : Z) :
  inGrid x y z →
  (isSolid c x y z = false ↔ cellAt c x y z = AIR) ∧
  (∀ t, t ∈ [GRASS; DIRT; STONE; WOOD; LEAVES; WATER] →
        cellAt c x y z = t → isSolid c x y z = true) ∧
  (∀ t, Block.isSolid t = false ↔ t = AIR).
Proof.
  intros Hin.
  assert (isSolid c x y z = bool_decide (cellAt c x y z ≠ AIR)) as ->.
  { generalize (getBlock_in c x y z Hin).
    unfold isSolid, getBlock, inGrid, CHUNK_SIZE, CHUNK_HEIGHT in *.
    repeat match goal with
           | |- context [?a <? ?b] => destruct (Z.ltb_spec a b); try lia
           | |- context [?a >=? ?b] => rewrite (Z.geb_leb a b);
                                       destruct (Z.leb_spec b a); try lia
           end. done. }
  split; [|split].
  - rewrite bool_decide_eq_false. destruct (cellAt c x y z); naive_solver.
  - intros t Ht ->. apply bool_decide_eq_true.
    rewrite !elem_of_cons, elem_of_nil in Ht. intuition (subst; discriminate).
  - intros t. unfold Block.isSolid. rewrite bool_decide_eq_false.
    destruct t; naive_solver.
Qed.

Lemma isSolid_iff_not_air_witness :
  isSolid (putBlock airChunk 1 1 1 WATER) 1 1 1 = true.
Proof.
  refine (proj1 (proj2 (isSolid_iff_not_air (putBlock airChunk 1 1 1 WATER) 1 1 1 _))
            WATER _ _).
  - unfold inGrid, CHUNK_SIZE, CHUNK_HEIGHT. lia.
  - repeat constructor.
  - reflexivity.
Defined.

(** C5 as stated fails: a Water cell inside the grid is classified solid,
    by the server's isSolid and by Block.isSolid alike. *)
Lemma isSolid_water_counterexample :
  ¬ (∀ (c : Chunk) (x y z : Z),
       inGrid x y z → cellAt c x y z = WATER → isSolid c x y z = false) ∧
  Block.isSolid WATER = true.
Proof.
  split; [|reflexivity].
  intros H. specialize (H (putBlock airChunk 1 1 1 WATER) 1 1 1).
  assert (inGrid 1 1 1) as Hin by (unfold inGrid, CHUNK_SIZE, CHUNK_HEIGHT; lia).
  specialize (H Hin eq_refl). vm_compute in H. discriminate.
Qed.

(** * The naive mesher *)

Lemma isSlab_getBlock c x0 y0 z0 W H t x y z :
  isSlab c x0 y0 z0 W H t →
  getBlock c x y z = slabOf x0 y0 z0 W H t x y z.
Proof.
  intros (Ht & Hx & Hy & Hz & Hc). rewrite getBlock_inGrid.
  destruct (decide (inGrid x y z)) as [Hin|Hout]; [by apply Hc|].
  unfold slabOf. rewrite decide_False; [done|].
  unfold inGrid, CHUNK_SIZE, CHUNK_HEIGHT in *. lia.
Qed.

Lemma renderCell_air c x y z b : cellAt c x y z = AIR → renderCell c x y z b = b.
Proof. intros H. unfold renderCell. by rewrite H. Qed.

Lemma renderCell_isolated c x y z t b :
  cellAt c x y z = t → t ≠ AIR →
  (∀ dx dy dz, (dx, dy, dz) ∈ fdir <$> faces →
               getBlock c (x + dx) (y + dy) (z + dz) = AIR) →
  renderCell c x y z b = cubeQuads x y z t b.
Proof.
  intros Hc Ht Hn. unfold renderCell, cubeQuads. rewrite Hc.
  rewrite bool_decide_eq_false_2 by done.
  assert (∀ face, face ∈ faces →
            shouldRenderFace c x y z (fdir face) = true) as Hall.
  { intros face Hf. destruct (fdir face) as [[dx dy] dz] eqn:Hd.
    apply shouldRenderFace_true, Hn. rewrite <- Hd. by apply list_elem_of_fmap_2. }
  clear Hn. revert b Hall. generalize faces as fs.
  induction fs as [|f fs IH]; intros b Hall; [done|]. simpl.
  unfold renderFace at 2. rewrite Hall by left.
  apply IH. intros face Hf. apply Hall. by right.
Qed.

Lemma simpleBuffers_single_cell c x0 y0 z0 t :
  isSingleCell c x0 y0 z0 t →
  simpleBuffers c = cubeQuads x0 y0 z0 t emptyBuffers.
Proof.
  intros Hs. pose proof Hs as (Ht & Hx & Hy & Hz & Hc).
  assert (∀ x y z b, inGrid x y z → (x, y, z) ≠ (x0, y0, z0) →
            renderCell c x y z b = b) as Hair.
  { intros x y z b Hin Hne. apply renderCell_air. rewrite Hc by done.
    unfold slabOf. rewrite decide_False; [done|].
    intros ?. apply Hne. f_equal; [f_equal|]; lia. }
  unfold simpleBuffers, inGrid in *.
  rewrite (forZ_single 0 CHUNK_SIZE x0) by first
    [ lia
    | intros x b ??; apply forZ_id; intros y b' ?; apply forZ_id; intros z b'' ?;
      apply Hair; [lia|congruence] ].
  rewrite (forZ_single 0 CHUNK_HEIGHT y0) by first
    [ lia
    | intros y b ??; apply forZ_id; intros z b'' ?;
      apply Hair; [lia|congruence] ].
  rewrite (forZ_single 0 CHUNK_SIZE z0) by first
    [ lia | intros z b ??; apply Hair; [lia|congruence] ].
  apply renderCell_isolated; [|done|].
  - rewrite Hc by (unfold inGrid; lia). unfold slabOf.
    by rewrite decide_True by lia.
  - intros dx dy dz Hd. rewrite (isSlab_getBlock _ _ _ _ _ _ _ _ _ _ Hs).
    unfold slabOf. rewrite decide_False; [done|].
    unfold faces in Hd. simpl in Hd. rewrite !elem_of_cons, elem_of_nil in Hd.
    intros ?. destruct Hd as [Hd|[Hd|[Hd|[Hd|[Hd|[Hd|[]]]]]]];
      injection Hd as -> -> ->; lia.
Qed.

Lemma cubeQuads_counts x y z t :
  let b := cubeQuads x y z t emptyBuffers in
  quadCount b = 6 ∧ length (vertices b) = 72%nat ∧ length (normals b) = 72%nat ∧
  length (colors b) = 72%nat ∧ length (indices b) = 36%nat.
Proof. destruct t; repeat split. Qed.

(** * The greedy mesher *)

(** ** Masks *)

Lemma flat_index_range U V i j :
  0 ≤ i < U → 0 ≤ j < V → 0 ≤ i + j * U < U * V.
Proof. intros. nia. Qed.

Lemma flat_index_inj U i j i' j' :
  0 ≤ i < U → 0 ≤ i' < U → i + j * U = i' + j' * U → i = i' ∧ j = j'.
Proof.
  intros Hi Hi' Heq.
  assert (j = j') as ->; [|lia].
  destruct (Z.lt_trichotomy j j') as [Hlt|[->|Hlt]]; [|done|].
  - assert (j * U + U ≤ j' * U) by nia. lia.
  - assert (j' * U + U ≤ j * U) by nia. lia.
Qed.

Lemma maskAt_maskSet_eq (m : Mask) idx v :
  0 ≤ idx < Z.of_nat (length m) → maskAt (maskSet m idx v) idx = v.
Proof.
  intros. unfold maskAt, maskSet. apply list_lookup_total_insert_eq. lia.
Qed.

Lemma maskAt_maskSet_ne (m : Mask) idx idx' v :
  0 ≤ idx → 0 ≤ idx' → idx ≠ idx' → maskAt (maskSet m idx v) idx' = maskAt m idx'.
Proof.
  intros. unfold maskAt, maskSet. apply list_lookup_total_insert_ne. lia.
Qed.

Lemma length_maskSet (m : Mask) idx v : length (maskSet m idx v) = length m.
Proof. apply length_insert. Qed.

Lemma maskAt_replicate n idx : maskAt (replicate n None) idx = None.
Proof.
  unfold maskAt. rewrite list_lookup_total_alt.
  destruct (replicate n None !! Z.to_nat idx) as [o|] eqn:E; [|done].
  by apply lookup_replicate in E as [-> _].
Qed.

(** ** The index arrays *)

Lemma axis_cases (axis : Z) : 0 ≤ axis < 3 → axis = 0 ∨ axis = 1 ∨ axis = 2.
Proof. lia. Qed.

Lemma dimsAt_pos axis k : 0 ≤ axis < 3 → 0 ≤ k < 3 → 0 < dimsAt axis k.
Proof.
  intros Ha Hk.
  destruct (axis_cases _ Ha) as [-> | [-> | ->]];
    destruct (axis_cases _ Hk) as [-> | [-> | ->]]; done.
Qed.

Lemma sliceCoord_u axis s i j :
  0 ≤ axis < 3 →
  at3 (sliceCoord axis s ((axis + 1) `mod` 3) i ((axis + 2) `mod` 3) j)
      ((axis + 1) `mod` 3) = i.
Proof. intros Ha. by destruct (axis_cases _ Ha) as [-> | [-> | ->]]. Qed.

Lemma sliceCoord_v axis s i j :
  0 ≤ axis < 3 →
  at3 (sliceCoord axis s ((axis + 1) `mod` 3) i ((axis + 2) `mod` 3) j)
      ((axis + 2) `mod` 3) = j.
Proof. intros Ha. by destruct (axis_cases _ Ha) as [-> | [-> | ->]]. Qed.

(** ** The mask that the build loops produce *)

Lemma buildMaskCell_maskCell c axis s dv du m :
  0 ≤ axis < 3 →
  buildMaskCell c axis s dv du m =
    match maskCell c axis s du dv with
    | Some t => maskSet m (du + dv * dimsAt axis ((axis + 1) `mod` 3)) (Some t)
    | None => m
    end.
Proof.
  intros Ha. unfold buildMaskCell, maskCell.
  rewrite sliceCoord_u, sliceCoord_v by done.
  by destruct (_ && _).
Qed.

Lemma buildMask_spec c axis s :
  0 ≤ axis < 3 →
  let U := dimsAt axis ((axis + 1) `mod` 3) in
  let V := dimsAt axis ((axis + 2) `mod` 3) in
  Z.of_nat (length (buildMask c axis s)) = U * V ∧
  ∀ i j, 0 ≤ i < U → 0 ≤ j < V →
         maskAt (buildMask c axis s) (i + j * U) = maskCell c axis s i j.
Proof.
  intros Ha U V.
  assert (0 < U) as HU by (apply dimsAt_pos; [done|by apply Z.mod_pos_bound]).
  assert (0 < V) as HV by (apply dimsAt_pos; [done|by apply Z.mod_pos_bound]).
  unfold buildMask. fold U V.
  set (filled (rows cols : Z) (m : Mask) :=
         Z.of_nat (length m) = U * V ∧
         ∀ i j, 0 ≤ i < U → 0 ≤ j < V →
           maskAt m (i + j * U) =
             if decide (j < rows ∨ (j = rows ∧ i < cols))
             then maskCell c axis s i j else None).
  assert (∀ rows m, filled rows U m ↔ filled (rows + 1) 0 m) as Hrow.
  { intros rows m. unfold filled. f_equiv.
    apply forall_proper; intros i. apply forall_proper; intros j.
    apply forall_proper; intros Hi. apply forall_proper; intros Hj.
    destruct (decide (j < rows ∨ j = rows ∧ i < U));
      destruct (decide (j < rows + 1 ∨ j = rows + 1 ∧ i < 0)); done || lia. }
  cut (filled V 0 (forZ 0 V (λ dv, forZ 0 U (λ du, buildMaskCell c axis s dv du))
                     (replicate (Z.to_nat (U * V)) None))).
  { intros [Hlen Hm]. split; [done|]. intros i j Hi Hj.
    rewrite Hm by done. rewrite decide_True by lia. done. }
  apply (forZ_ind (λ rows m, filled rows 0 m)); [lia| |].
  - split; [rewrite length_replicate; lia|]. intros i j Hi Hj.
    rewrite maskAt_replicate. rewrite decide_False by lia. done.
  - intros dv m Hdv Hm. apply Hrow.
    apply (forZ_ind (λ cols m, filled dv cols m)); [lia|done|].
    intros du m' Hdu [Hlen Hm']. rewrite buildMaskCell_maskCell by done. fold U.
    pose proof (flat_index_range U V du dv Hdu Hdv) as Hidx.
    split.
    + destruct (maskCell c axis s du dv); [rewrite length_maskSet|]; done.
    + intros i j Hi Hj.
      pose proof (flat_index_range U V i j Hi Hj) as Hidx'.
      destruct (decide (i = du ∧ j = dv)) as [[-> ->]|Hne].
      * rewrite decide_True by lia.
        destruct (maskCell c axis s du dv) as [t|] eqn:E.
        -- apply maskAt_maskSet_eq. lia.
        -- rewrite Hm' by done. rewrite decide_False by lia. done.
      * assert (du + dv * U ≠ i + j * U) as Hneq.
        { intros Heq. apply flat_index_inj in Heq; lia. }
        transitivity (maskAt m' (i + j * U)).
        { destruct (maskCell c axis s du dv);
            [apply maskAt_maskSet_ne; lia|done]. }
        rewrite Hm' by done.
        destruct (decide (j < dv ∨ j = dv ∧ i < du));
          destruct (decide (j < dv ∨ j = dv ∧ i < du + 1)); done || lia.
Qed.

(** ** The greedy scan *)

Lemma scanRow_step fuel axis s j i st :
  let U := dimsAt axis ((axis + 1) `mod` 3) in
  let V := dimsAt axis ((axis + 2) `mod` 3) in
  scanRow (Datatypes.S fuel) axis s j i st =
    if i <? U then
      match maskAt st.2 (i + j * U) with
      | Some t =>
          let w := findWidth (Z.to_nat U) st.2 U i j t 1 in
          let h := findHeight (Z.to_nat V) st.2 U V i j w t 1 in
          scanRow fuel axis s j (i + w)
                  (sliceQuad axis s i j w h t st.1, clearMask st.2 U i j w h)
      | None => scanRow fuel axis s j (i + 1) st
      end
    else st.
Proof. reflexivity. Qed.

(** The three searches run to completion on the fuel they are given:
    more fuel changes nothing. *)
Lemma findWidth_ge fuel m U i j t w : w ≤ findWidth fuel m U i j t w.
Proof.
  revert w. induction fuel as [|fuel IH]; intros w; simpl; [lia|].
  destruct (_ && _); [|lia]. specialize (IH (w + 1)). lia.
Qed.

Lemma findWidth_enough fuel extra m U i j t w :
  U - i - w ≤ Z.of_nat fuel →
  findWidth (fuel + extra) m U i j t w = findWidth fuel m U i j t w.
Proof.
  revert w. induction fuel as [|fuel IH]; intros w Hfuel.
  - destruct extra as [|extra]; [done|]. simpl.
    destruct (Z.ltb_spec (i + w) U); [lia|done].
  - simpl. destruct (_ && _); [|done]. apply IH. lia.
Qed.

Lemma findHeight_enough fuel extra m U V i j w t h :
  V - j - h ≤ Z.of_nat fuel →
  findHeight (fuel + extra) m U V i j w t h = findHeight fuel m U V i j w t h.
Proof.
  revert h. induction fuel as [|fuel IH]; intros h Hfuel.
  - destruct extra as [|extra]; [done|]. simpl.
    destruct (Z.ltb_spec (j + h) V); [lia|done].
  - simpl. destruct (_ <? _); [|done]. destruct (rowDiffers _ _ _ _ _ _ _); [done|].
    apply IH. lia.
Qed.

Lemma scanRow_enough fuel extra axis s j i st :
  dimsAt axis ((axis + 1) `mod` 3) - i ≤ Z.of_nat fuel →
  scanRow (fuel + extra) axis s j i st = scanRow fuel axis s j i st.
Proof.
  revert i st. induction fuel as [|fuel IH]; intros i st Hfuel.
  - destruct extra as [|extra]; [done|]. simpl Nat.add.
    rewrite scanRow_step. cbv zeta.
    destruct (Z.ltb_spec i (dimsAt axis ((axis + 1) `mod` 3))); [lia|done].
  - change (Datatypes.S fuel + extra)%nat with (Datatypes.S (fuel + extra)).
    rewrite !scanRow_step. cbv zeta.
    destruct (_ <? _); [|done].
    destruct (maskAt _ _) as [t|]; apply IH; [|lia].
    pose proof (findWidth_ge (Z.to_nat (dimsAt axis ((axis + 1) `mod` 3))) st.2
                  (dimsAt axis ((axis + 1) `mod` 3)) i j t 1). lia.
Qed.

(** A row whose remaining cells are null emits nothing. *)
Lemma scanRow_null fuel axis s j i st :
  (∀ i', i ≤ i' < dimsAt axis ((axis + 1) `mod` 3) →
         maskAt st.2 (i' + j * dimsAt axis ((axis + 1) `mod` 3)) = None) →
  scanRow fuel axis s j i st = st.
Proof.
  revert i. induction fuel as [|fuel IH]; intros i Hnull; [done|].
  rewrite scanRow_step. cbv zeta.
  destruct (Z.ltb_spec i (dimsAt axis ((axis + 1) `mod` 3))); [|done].
  rewrite Hnull by lia. apply IH. intros i' Hi'. apply Hnull. lia.
Qed.

(** Null cells in front of column [i + n] are skipped one by one. *)
Lemma scanRow_skip (n : nat) fuel axis s j i st :
  0 ≤ i →
  i + Z.of_nat n ≤ dimsAt axis ((axis + 1) `mod` 3) →
  (∀ i', i ≤ i' < i + Z.of_nat n →
         maskAt st.2 (i' + j * dimsAt axis ((axis + 1) `mod` 3)) = None) →
  scanRow (n + fuel) axis s j i st = scanRow fuel axis s j (i + Z.of_nat n) st.
Proof.
  revert i. induction n as [|n IH]; intros i Hi Hle Hnull.
  - by rewrite Z.add_0_r.
  - change (Datatypes.S n + fuel)%nat with (Datatypes.S (n + fuel)).
    rewrite scanRow_step. cbv zeta.
    destruct (Z.ltb_spec i (dimsAt axis ((axis + 1) `mod` 3))); [|lia].
    rewrite Hnull by lia. rewrite IH; [f_equal; lia|lia|lia|].
    intros i' Hi'. apply Hnull. lia.
Qed.

Lemma rowDiffers_false m U i j h w t :
  (∀ k, 0 ≤ k < w → maskAt m (i + k + (j + h) * U) = Some t) →
  rowDiffers m U i j h w t = false.
Proof.
  intros Hrow. unfold rowDiffers. apply not_true_is_false.
  rewrite existsb_exists. intros (k & Hk & Hne).
  apply list_elem_of_In, elem_of_seqZ in Hk.
  apply bool_decide_eq_true in Hne. apply Hne, Hrow. lia.
Qed.

Lemma rowDiffers_true m U i j h w t k :
  0 ≤ k < w → maskAt m (i + k + (j + h) * U) ≠ Some t →
  rowDiffers m U i j h w t = true.
Proof.
  intros Hk Hne. unfold rowDiffers. apply existsb_exists. exists k. split.
  - apply list_elem_of_In, elem_of_seqZ. lia.
  - by apply bool_decide_eq_true.
Qed.

(** The width search stops at the right edge of a run of [t] cells. *)
Lemma findWidth_run fuel m U i j t w w0 :
  1 ≤ w ≤ w0 →
  (w0 - w < Z.of_nat fuel) →
  (∀ k, w ≤ k < w0 → maskAt m (i + k + j * U) = Some t) →
  (i + w0 < U → maskAt m (i + w0 + j * U) ≠ Some t) →
  i + w0 ≤ U →
  findWidth fuel m U i j t w = w0.
Proof.
  revert w. induction fuel as [|fuel IH]; intros w Hw Hfuel Hrun Hend HU; [lia|].
  simpl. destruct (decide (w = w0)) as [->|Hne].
  - destruct (Z.ltb_spec (i + w0) U); [|done].
    by rewrite bool_decide_eq_false_2 by auto.
  - destruct (Z.ltb_spec (i + w) U); [|lia].
    rewrite bool_decide_eq_true_2 by (apply Hrun; lia). simpl.
    apply IH; [lia|lia| |done|done]. intros k Hk. apply Hrun. lia.
Qed.

(** The height search stops below the last row made of [t] cells. *)
Lemma findHeight_run fuel m U V i j w t h h0 :
  1 ≤ h ≤ h0 →
  (h0 - h < Z.of_nat fuel) →
  (∀ h' k, h ≤ h' < h0 → 0 ≤ k < w → maskAt m (i + k + (j + h') * U) = Some t) →
  (j + h0 < V → ∃ k, 0 ≤ k < w ∧ maskAt m (i + k + (j + h0) * U) ≠ Some t) →
  j + h0 ≤ V →
  findHeight fuel m U V i j w t h = h0.
Proof.
  revert h. induction fuel as [|fuel IH]; intros h Hh Hfuel Hrun Hend HV; [lia|].
  simpl. destruct (decide (h = h0)) as [->|Hne].
  - destruct (Z.ltb_spec (j + h0) V) as [Hlt|]; [|done].
    destruct (Hend Hlt) as (k & Hk & Hdiff).
    by rewrite (rowDiffers_true _ _ _ _ _ _ _ k).
  - destruct (Z.ltb_spec (j + h) V); [|lia].
    rewrite rowDiffers_false by (intros; apply Hrun; lia).
    apply IH; [lia|lia| |done|done]. intros h' k Hh' Hk. apply Hrun; lia.
Qed.

(** Clearing a rectangle nulls its cells and no other. *)
Lemma clearMask_spec (m : Mask) U V i0 j0 w h :
  0 < U → 0 ≤ i0 → 0 ≤ w → i0 + w ≤ U → 0 ≤ j0 → 0 ≤ h → j0 + h ≤ V →
  Z.of_nat (length m) = U * V →
  Z.of_nat (length (clearMask m U i0 j0 w h)) = U * V ∧
  ∀ i j, 0 ≤ i < U → 0 ≤ j < V →
    maskAt (clearMask m U i0 j0 w h) (i + j * U) =
      if decide ((i0 ≤ i < i0 + w) ∧ (j0 ≤ j < j0 + h)) then None
      else maskAt m (i + j * U).
Proof.
  intros HU Hi0 Hw Hiw Hj0 Hh Hjh Hlen.
  set (cleared (rows cols : Z) (m' : Mask) :=
         Z.of_nat (length m') = U * V ∧
         ∀ i j, 0 ≤ i < U → 0 ≤ j < V →
           maskAt m' (i + j * U) =
             if decide ((i0 ≤ i < i0 + w) ∧
                        (j0 ≤ j < j0 + rows ∨ (j = j0 + rows ∧ i < i0 + cols)))
             then None else maskAt m (i + j * U)).
  cut (cleared h 0 (clearMask m U i0 j0 w h)).
  { intros [Hl Hm]. split; [done|]. intros i j Hi Hj. rewrite Hm by done.
    destruct (decide _); destruct (decide _); done || lia. }
  unfold clearMask.
  apply (forZ_ind (λ rows m', cleared rows 0 m')); [lia| |].
  - split; [done|]. intros i j Hi Hj. rewrite decide_False by lia. done.
  - intros l m' Hl Hm'.
    cut (cleared l w (forZ 0 w (λ k mask, maskSet mask (i0 + k + (j0 + l) * U) None) m')).
    { intros [Hlen' Hc]. split; [done|]. intros i j Hi Hj. rewrite Hc by done.
      destruct (decide _); destruct (decide _); done || lia. }
    apply (forZ_ind (λ cols m'', cleared l cols m'')); [lia|done|].
    intros k m'' Hk [Hlen'' Hm'']. split; [by rewrite length_maskSet|].
    intros i j Hi Hj.
    pose proof (flat_index_range U V (i0 + k) (j0 + l) ltac:(lia) ltac:(lia)).
    pose proof (flat_index_range U V i j Hi Hj).
    destruct (decide (i = i0 + k ∧ j = j0 + l)) as [[-> ->]|Hne].
    + rewrite maskAt_maskSet_eq by lia. rewrite decide_True by lia. done.
    + rewrite maskAt_maskSet_ne; [|lia|lia|].
      * rewrite Hm'' by done.
        destruct (decide _); destruct (decide _); done || lia.
      * intros Heq. apply flat_index_inj in Heq; lia.
Qed.

(** ** Slices *)

(** A slice with an empty mask emits nothing. *)
Lemma meshSlice_null c axis s b :
  0 ≤ axis < 3 →
  (∀ i j, 0 ≤ i < dimsAt axis ((axis + 1) `mod` 3) →
          0 ≤ j < dimsAt axis ((axis + 2) `mod` 3) →
          maskCell c axis s i j = None) →
  meshSlice c axis s b = b.
Proof.
  intros Ha Hnull. destruct (buildMask_spec c axis s Ha) as [_ Hm].
  unfold meshSlice.
  set (U := dimsAt axis ((axis + 1) `mod` 3)) in *.
  set (V := dimsAt axis ((axis + 2) `mod` 3)) in *.
  assert (0 < V) as HV by (apply dimsAt_pos; [done|by apply Z.mod_pos_bound]).
  cut (forZ 0 V (λ j, scanRow (Z.to_nat U) axis s j 0) (b, buildMask c axis s)
       = (b, buildMask c axis s)); [by intros ->|].
  apply (forZ_ind (λ _ st, st = (b, buildMask c axis s))); [lia|done|].
  intros j st Hj ->. apply scanRow_null. simpl. intros i Hi.
  fold U. rewrite Hm by lia. apply Hnull; lia.
Qed.

(** A slice whose mask is one rectangle of a single type emits exactly
    the quad of that rectangle. *)
Lemma meshSlice_rect c axis s b i0 j0 w0 h0 t :
  0 ≤ axis < 3 →
  let U := dimsAt axis ((axis + 1) `mod` 3) in
  let V := dimsAt axis ((axis + 2) `mod` 3) in
  0 ≤ i0 → 0 < w0 → i0 + w0 ≤ U →
  0 ≤ j0 → 0 < h0 → j0 + h0 ≤ V →
  (∀ i j, 0 ≤ i < U → 0 ≤ j < V →
          maskCell c axis s i j =
            if decide ((i0 ≤ i < i0 + w0) ∧ (j0 ≤ j < j0 + h0)) then Some t else None) →
  meshSlice c axis s b = sliceQuad axis s i0 j0 w0 h0 t b.
Proof.
  intros Ha U V Hi0 Hw0 HiU Hj0 Hh0 HjV Hrect.
  destruct (buildMask_spec c axis s Ha) as [Hlen Hm]. fold U V in Hlen, Hm.
  assert (0 < U) as HU by (apply dimsAt_pos; [done|by apply Z.mod_pos_bound]).
  assert (0 < V) as HV by (apply dimsAt_pos; [done|by apply Z.mod_pos_bound]).
  unfold meshSlice. fold U V.
  set (m := buildMask c axis s) in *.
  assert (∀ i j, 0 ≤ i < U → 0 ≤ j < V →
            maskAt m (i + j * U) =
              if decide ((i0 ≤ i < i0 + w0) ∧ (j0 ≤ j < j0 + h0))
              then Some t else None) as Hmask.
  { intros i j Hi Hj. rewrite Hm by done. by apply Hrect. }
  destruct (clearMask_spec m U V i0 j0 w0 h0) as [Hlen' Hm']; [lia..|done|].
  set (m' := clearMask m U i0 j0 w0 h0) in *.
  assert (∀ i j, 0 ≤ i < U → 0 ≤ j < V → maskAt m' (i + j * U) = None) as Hnull.
  { intros i j Hi Hj. rewrite Hm', Hmask by done. by destruct (decide _). }
  set (body := λ j, scanRow (Z.to_nat U) axis s j 0).
  rewrite (forZ_split 0 j0 V) by lia.
  assert (forZ 0 j0 body (b, m) = (b, m)) as ->.
  { apply (forZ_ind (λ _ st, st = (b, m))); [lia|done|].
    intros j st Hj ->. apply scanRow_null. simpl. intros i Hi. fold U.
    rewrite Hmask by lia. rewrite decide_False by lia. done. }
  rewrite forZ_first by lia.
  assert (body j0 (b, m) = (sliceQuad axis s i0 j0 w0 h0 t b, m')) as ->.
  { unfold body.
    replace (Z.to_nat U) with (Z.to_nat i0 + Datatypes.S (Z.to_nat (U - i0 - 1)))%nat
      at 1 by lia.
    rewrite scanRow_skip; [|lia|fold U; lia|].
    2:{ simpl. intros i Hi. fold U. rewrite Hmask by lia.
        rewrite decide_False by lia. done. }
    rewrite Z2Nat.id, Z.add_0_l by lia.
    rewrite scanRow_step. cbv zeta. fold U V. simpl fst. simpl snd.
    destruct (Z.ltb_spec i0 U); [|lia].
    rewrite Hmask by lia. rewrite decide_True by lia.
    assert (findWidth (Z.to_nat U) m U i0 j0 t 1 = w0) as ->.
    { apply findWidth_run; [lia|lia| | |lia].
      - intros k Hk. rewrite Hmask by lia. by rewrite decide_True by lia.
      - intros Hlt. rewrite Hmask by lia. by rewrite decide_False by lia. }
    assert (findHeight (Z.to_nat V) m U V i0 j0 w0 t 1 = h0) as ->.
    { apply findHeight_run; [lia|lia| | |lia].
      - intros h' k Hh' Hk. rewrite Hmask by lia. by rewrite decide_True by lia.
      - intros Hlt. exists 0. split; [lia|].
        rewrite Hmask by lia. by rewrite decide_False by lia. }
    fold m'. apply scanRow_null. simpl. intros i Hi. fold U. apply Hnull; lia. }
  cut (forZ (j0 + 1) V body (sliceQuad axis s i0 j0 w0 h0 t b, m')
       = (sliceQuad axis s i0 j0 w0 h0 t b, m')); [by intros ->|].
  apply (forZ_ind (λ _ st, st = (sliceQuad axis s i0 j0 w0 h0 t b, m'))); [lia|done|].
  intros j st Hj ->. apply scanRow_null. simpl. intros i Hi. fold U.
  apply Hnull; lia.
Qed.

Lemma greedyBuffers_axes c :
  greedyBuffers c =
    forZ 0 CHUNK_HEIGHT (meshSlice c 2)
      (forZ 0 CHUNK_SIZE (meshSlice c 1)
         (forZ 0 CHUNK_SIZE (meshSlice c 0) emptyBuffers)).
Proof.
  unfold greedyBuffers. rewrite !forZ_first by lia. rewrite forZ_empty by lia.
  reflexivity.
Qed.

(** ** The three sweeps, in grid coordinates *)

Lemma maskCell_x c s i j :
  maskCell c 0 s i j =
    if bool_decide (getBlock c s i j ≠ AIR) &&
       bool_decide (getBlock c (s + 1) (i + 0) (j + 0) = AIR)
    then Some (getBlock c s i j) else None.
Proof. reflexivity. Qed.

Lemma maskCell_y c s i j :
  maskCell c 1 s i j =
    if bool_decide (getBlock c j s i ≠ AIR) &&
       bool_decide (getBlock c (j + 0) (s + 1) (i + 0) = AIR)
    then Some (getBlock c j s i) else None.
Proof. reflexivity. Qed.

Lemma maskCell_z c s i j :
  maskCell c 2 s i j =
    if bool_decide (getBlock c i j s ≠ AIR) &&
       bool_decide (getBlock c (i + 0) (j + 0) (s + 1) = AIR)
    then Some (getBlock c i j s) else None.
Proof. reflexivity. Qed.

Ltac slab_cases :=
  unfold slabOf;
  repeat match goal with
         | |- context [decide ?P] => destruct (decide P)
         | |- context [bool_decide ?P] => destruct (bool_decide_reflect P)
         end; simpl; try done; try lia; try congruence.

Lemma maskCell_slab_x c x0 y0 z0 W H t s i j :
  isSlab c x0 y0 z0 W H t →
  maskCell c 0 s i j =
    if decide (s = x0 + W - 1 ∧ (y0 ≤ i < y0 + 1) ∧ (z0 ≤ j < z0 + H))
    then Some t else None.
Proof.
  intros Hs. pose proof Hs as (Ht & Hx & Hy & Hz & _). rewrite maskCell_x.
  rewrite !(isSlab_getBlock _ _ _ _ _ _ _ _ _ _ Hs). slab_cases.
Qed.

Lemma maskCell_slab_y c x0 y0 z0 W H t s i j :
  isSlab c x0 y0 z0 W H t →
  maskCell c 1 s i j =
    if decide (s = y0 ∧ (z0 ≤ i < z0 + H) ∧ (x0 ≤ j < x0 + W))
    then Some t else None.
Proof.
  intros Hs. pose proof Hs as (Ht & Hx & Hy & Hz & _). rewrite maskCell_y.
  rewrite !(isSlab_getBlock _ _ _ _ _ _ _ _ _ _ Hs). slab_cases.
Qed.

Lemma maskCell_slab_z c x0 y0 z0 W H t s i j :
  isSlab c x0 y0 z0 W H t →
  maskCell c 2 s i j =
    if decide (s = z0 + H - 1 ∧ (x0 ≤ i < x0 + W) ∧ (y0 ≤ j < y0 + 1))
    then Some t else None.
Proof.
  intros Hs. pose proof Hs as (Ht & Hx & Hy & Hz & _). rewrite maskCell_z.
  rewrite !(isSlab_getBlock _ _ _ _ _ _ _ _ _ _ Hs). slab_cases.
Qed.

(** Replace the entries of [dims] at known indices by their values. *)
Ltac known_dims :=
  repeat match goal with
         | |- context [dimsAt ?a ?k] =>
             let v := eval vm_compute in (dimsAt a k) in
             progress change (dimsAt a k) with v
         | H : context [dimsAt ?a ?k] |- _ =>
             let v := eval vm_compute in (dimsAt a k) in
             progress change (dimsAt a k) with v in H
         end.

(** The sweep along x finds the slab's +X side in the slice of its last
    column, whatever the layer. *)
Lemma sweep_x_slab c x0 y0 z0 W H t b :
  isSlab c x0 y0 z0 W H t →
  forZ 0 CHUNK_SIZE (meshSlice c 0) b = sliceQuad 0 (x0 + W - 1) y0 z0 1 H t b.
Proof.
  intros Hs. pose proof Hs as (Ht & Hx & Hy & Hz & _).
  unfold CHUNK_SIZE, CHUNK_HEIGHT in *.
  rewrite (forZ_single 0 16 (x0 + W - 1)); [|lia|].
  - apply meshSlice_rect; known_dims; [lia..|].
    intros i j Hi Hj. rewrite (maskCell_slab_x _ _ _ _ _ _ _ _ _ _ Hs). slab_cases.
  - intros s b' Hs' Hne. apply meshSlice_null; [lia|].
    intros i j Hi Hj. rewrite (maskCell_slab_x _ _ _ _ _ _ _ _ _ _ Hs). slab_cases.
Qed.

(** The sweep along y visits the layers 0 to 15 only: it finds the slab's
    top there, as one quad, and nothing in a higher layer. *)
Lemma sweep_y_slab c x0 y0 z0 W H t b :
  isSlab c x0 y0 z0 W H t →
  forZ 0 CHUNK_SIZE (meshSlice c 1) b =
    if decide (y0 < CHUNK_SIZE) then sliceQuad 1 y0 z0 x0 H W t b else b.
Proof.
  intros Hs. pose proof Hs as (Ht & Hx & Hy & Hz & _).
  unfold CHUNK_SIZE, CHUNK_HEIGHT in *.
  destruct (decide (y0 < 16)).
  - rewrite (forZ_single 0 16 y0); [|lia|].
    + apply meshSlice_rect; known_dims; [lia..|].
      intros i j Hi Hj. rewrite (maskCell_slab_y _ _ _ _ _ _ _ _ _ _ Hs). slab_cases.
    + intros s b' Hs' Hne. apply meshSlice_null; [lia|].
      intros i j Hi Hj. rewrite (maskCell_slab_y _ _ _ _ _ _ _ _ _ _ Hs). slab_cases.
  - apply forZ_id. intros s b' Hs'. apply meshSlice_null; [lia|].
    intros i j Hi Hj. rewrite (maskCell_slab_y _ _ _ _ _ _ _ _ _ _ Hs). slab_cases.
Qed.

(** The sweep along z scans the rows 0 to 15 of each slice only: it finds
    the slab's +Z side if the slab lies in one of these layers. *)
Lemma sweep_z_slab c x0 y0 z0 W H t b :
  isSlab c x0 y0 z0 W H t →
  forZ 0 CHUNK_HEIGHT (meshSlice c 2) b =
    if decide (y0 < CHUNK_SIZE) then sliceQuad 2 (z0 + H - 1) x0 y0 W 1 t b else b.
Proof.
  intros Hs. pose proof Hs as (Ht & Hx & Hy & Hz & _).
  unfold CHUNK_SIZE, CHUNK_HEIGHT in *.
  destruct (decide (y0 < 16)).
  - rewrite (forZ_single 0 64 (z0 + H - 1)); [|lia|].
    + apply meshSlice_rect; known_dims; [lia..|].
      intros i j Hi Hj. rewrite (maskCell_slab_z _ _ _ _ _ _ _ _ _ _ Hs). slab_cases.
    + intros s b' Hs' Hne. apply meshSlice_null; [lia|].
      intros i j Hi Hj. rewrite (maskCell_slab_z _ _ _ _ _ _ _ _ _ _ Hs). slab_cases.
  - apply forZ_id. intros s b' Hs'. apply meshSlice_null; [lia|].
    intros i j Hi Hj. rewrite (maskCell_slab_z _ _ _ _ _ _ _ _ _ _ Hs).
    known_dims. slab_cases.
Qed.

Lemma greedyBuffers_slab c x0 y0 z0 W H t :
  isSlab c x0 y0 z0 W H t →
  greedyBuffers c =
    if decide (y0 < CHUNK_SIZE)
    then sliceQuad 2 (z0 + H - 1) x0 y0 W 1 t
           (sliceQuad 1 y0 z0 x0 H W t
              (sliceQuad 0 (x0 + W - 1) y0 z0 1 H t emptyBuffers))
    else sliceQuad 0 (x0 + W - 1) y0 z0 1 H t emptyBuffers.
Proof.
  intros Hs. rewrite greedyBuffers_axes.
  pose proof (sweep_x_slab c x0 y0 z0 W H t emptyBuffers Hs) as Ex.
  set (bx := forZ 0 CHUNK_SIZE (meshSlice c 0) emptyBuffers) in *.
  clearbody bx. subst bx.
  set (b1 := sliceQuad 0 (x0 + W - 1) y0 z0 1 H t emptyBuffers).
  pose proof (sweep_y_slab c x0 y0 z0 W H t b1 Hs) as Ey.
  set (bxy := forZ 0 CHUNK_SIZE (meshSlice c 1) b1) in *.
  clearbody bxy. subst bxy.
  destruct (decide (y0 < CHUNK_SIZE)) as [Hlow|Hhigh].
  - pose proof (sweep_z_slab c x0 y0 z0 W H t (sliceQuad 1 y0 z0 x0 H W t b1) Hs) as Ez.
    by rewrite decide_True in Ez.
  - pose proof (sweep_z_slab c x0 y0 z0 W H t b1 Hs) as Ez.
    by rewrite decide_False in Ez.
Qed.

(** * Fixture grids *)

Lemma checkGrid_correct c f :
  checkGrid c f = true → ∀ x y z, inGrid x y z → cellAt c x y z = f x y z.
Proof.
  unfold checkGrid. intros Hchk x y z (Hx & Hy & Hz).
  assert (∀ k n, 0 ≤ k < n → In k (seqZ 0 n)) as Hin.
  { intros k n Hk. apply list_elem_of_In, elem_of_seqZ. lia. }
  pose proof (proj1 (forallb_forall _ _) Hchk x (Hin _ _ Hx)) as Hchk1.
  pose proof (proj1 (forallb_forall _ _) Hchk1 y (Hin _ _ Hy)) as Hchk2.
  pose proof (proj1 (forallb_forall _ _) Hchk2 z (Hin _ _ Hz)) as Hchk3.
  by apply bool_decide_eq_true in Hchk3.
Qed.

Lemma lookup_total_fmap_seqZ {A : Type} `{!Inhabited A} (g : Z → A) n k :
  0 ≤ k < n → (g <$> seqZ 0 n) !!! Z.to_nat k = g k.
Proof.
  intros Hk. rewrite list_lookup_total_alt, list_lookup_fmap.
  rewrite lookup_seqZ_lt by lia. cbn. f_equal. lia.
Qed.

Lemma cellAt_gridOf f x y z : inGrid x y z → cellAt (gridOf f) x y z = f x y z.
Proof.
  intros (Hx & Hy & Hz). unfold cellAt, gridOf.
  by rewrite !lookup_total_fmap_seqZ.
Qed.

Lemma isSlab_gridOf x0 y0 z0 W H t :
  t ≠ AIR →
  0 ≤ x0 → 0 < W → x0 + W ≤ CHUNK_SIZE →
  0 ≤ y0 < CHUNK_HEIGHT →
  0 ≤ z0 → 0 < H → z0 + H ≤ CHUNK_SIZE →
  isSlab (gridOf (slabOf x0 y0 z0 W H t)) x0 y0 z0 W H t.
Proof.
  intros. unfold isSlab. split_and!; try done; try lia.
  intros. by apply cellAt_gridOf.
Qed.

Lemma isAllAir_getBlock c x y z : isAllAir c → getBlock c x y z = AIR.
Proof.
  intros Hair. rewrite getBlock_inGrid. destruct (decide _); [by apply Hair|done].
Qed.

(** * Quad counts *)

Lemma vertexOffset_sliceQuad axis s i j w h t b :
  vertexOffset (sliceQuad axis s i j w h t b) = vertexOffset b + 4.
Proof. reflexivity. Qed.

Lemma vertices_sliceQuad axis s i j w h t b :
  length (vertices (sliceQuad axis s i j w h t b)) = (length (vertices b) + 12)%nat.
Proof.
  unfold sliceQuad, pushQuad, threeColor. simpl. rewrite length_app. done.
Qed.

Lemma quadsEmitted_sliceQuad axis s i j w h t b n :
  quadsEmitted b n → quadsEmitted (sliceQuad axis s i j w h t b) (n + 1).
Proof.
  intros (Hn & Hvo & Hlen). split; [lia|].
  rewrite vertexOffset_sliceQuad, vertices_sliceQuad. lia.
Qed.

Lemma quadsEmitted_renderFace c x y z col b face n :
  face ∈ faces → quadsEmitted b n →
  ∃ n', quadsEmitted (renderFace c x y z col b face) n'.
Proof.
  intros Hf (Hn & Hvo & Hlen). unfold renderFace.
  destruct (shouldRenderFace _ _ _ _ _); [|by exists n].
  exists (n + 1). destruct col as [[r g] bl].
  unfold faces in Hf. rewrite !elem_of_cons, elem_of_nil in Hf.
  destruct Hf as [->|[->|[->|[->|[->|[->|[]]]]]]];
    (split; [lia|]; simpl; rewrite <- !app_assoc, length_app; simpl; lia).
Qed.

Lemma quadsEmitted_renderCell c x y z b n :
  quadsEmitted b n → ∃ n', quadsEmitted (renderCell c x y z b) n'.
Proof.
  intros Hq. unfold renderCell. destruct (bool_decide _); [by exists n|].
  assert (∀ fs b, (∀ f, f ∈ fs → f ∈ faces) → (∃ n, quadsEmitted b n) →
            ∃ n', quadsEmitted
                    (fold_left (renderFace c x y z
                       (threeColor (Block.getColor (cellAt c x y z)))) fs b) n') as Hfold.
  { induction fs as [|f fs IH]; intros b' Hsub Hb'; [done|]. simpl.
    apply IH; [intros; apply Hsub; by right|].
    destruct Hb' as [k Hk]. eapply quadsEmitted_renderFace; [|done].
    apply Hsub. by left. }
  apply Hfold; [done|by exists n].
Qed.

Lemma quadsEmitted_simpleBuffers c : ∃ n, quadsEmitted (simpleBuffers c) n.
Proof.
  unfold simpleBuffers, CHUNK_SIZE, CHUNK_HEIGHT.
  apply (forZ_ind (λ _ b, ∃ n, quadsEmitted b n)); [lia|by exists 0|].
  intros x b _ Hb.
  apply (forZ_ind (λ _ b, ∃ n, quadsEmitted b n)); [lia|done|].
  intros y b' _ Hb'.
  apply (forZ_ind (λ _ b, ∃ n, quadsEmitted b n)); [lia|done|].
  intros z b'' _ [n Hn]. by eapply quadsEmitted_renderCell.
Qed.

Lemma quadsEmitted_scanRow fuel axis s j i st :
  (∃ n, quadsEmitted st.1 n) →
  ∃ n, quadsEmitted (scanRow fuel axis s j i st).1 n.
Proof.
  revert i st. induction fuel as [|fuel IH]; intros i st Hst; [done|].
  rewrite scanRow_step. cbv zeta.
  destruct (_ <? _); [|done].
  destruct (maskAt _ _); apply IH; [|done].
  destruct Hst as [n Hn]. exists (n + 1). by apply quadsEmitted_sliceQuad.
Qed.

Lemma quadsEmitted_meshSlice c axis s b :
  0 ≤ axis < 3 →
  (∃ n, quadsEmitted b n) → ∃ n, quadsEmitted (meshSlice c axis s b) n.
Proof.
  intros Ha Hb. unfold meshSlice.
  apply (forZ_ind (λ _ st, ∃ n, quadsEmitted st.1 n)); [|done|].
  - apply Z.lt_le_incl, dimsAt_pos; [done|by apply Z.mod_pos_bound].
  - intros j st _ Hst. by apply quadsEmitted_scanRow.
Qed.

Lemma quadsEmitted_greedyBuffers c : ∃ n, quadsEmitted (greedyBuffers c) n.
Proof.
  unfold greedyBuffers.
  apply (forZ_ind (λ _ b, ∃ n, quadsEmitted b n)); [lia|by exists 0|].
  intros axis b Ha Hb.
  apply (forZ_ind (λ _ b, ∃ n, quadsEmitted b n)); [|done|].
  - apply Z.lt_le_incl, dimsAt_pos; lia.
  - intros s b' _ Hb'. by apply quadsEmitted_meshSlice.
Qed.

Lemma finishMesh_None b :
  (∃ n, quadsEmitted b n) → finishMesh b = None ↔ quadCount b = 0.
Proof.
  intros (n & Hn & Hvo & Hlen). unfold finishMesh, quadCount.
  rewrite Hvo. rewrite (Z.mul_comm 4 n), Z.div_mul by done.
  destruct (bool_decide_reflect (length (vertices b) = 0%nat)); split; try done; lia.
Qed.

(** * An all-Air grid *)

Lemma simpleBuffers_air c : isAllAir c → simpleBuffers c = emptyBuffers.
Proof.
  intros Hair. unfold simpleBuffers.
  apply forZ_id; intros x b Hx. apply forZ_id; intros y b' Hy.
  apply forZ_id; intros z b'' Hz. apply renderCell_air, Hair. done.
Qed.

Lemma greedyBuffers_air c : isAllAir c → greedyBuffers c = emptyBuffers.
Proof.
  intros Hair. unfold greedyBuffers.
  apply forZ_id; intros axis b Ha. apply forZ_id; intros s b' Hs.
  apply meshSlice_null; [done|]. intros i j _ _.
  unfold maskCell. by rewrite !isAllAir_getBlock.
Qed.

(** * A fully solid grid *)

Lemma renderFace_interior c x y z col b face :
  inGrid (x + (fdir face).1.1) (y + (fdir face).1.2) (z + (fdir face).2) →
  cellAt c (x + (fdir face).1.1) (y + (fdir face).1.2) (z + (fdir face).2) ≠ AIR →
  renderFace c x y z col b face = b.
Proof.
  intros Hin Hsolid. unfold renderFace.
  destruct (fdir face) as [[dx dy] dz]. cbn [fst snd] in *.
  destruct (shouldRenderFace c x y z (dx, dy, dz)) eqn:E; [|done].
  apply shouldRenderFace_true in E. rewrite getBlock_in in E by done.
  by destruct Hsolid.
Qed.

Lemma meshSlice_solid c axis s b :
  isFullySolid c →
  0 ≤ axis < 3 → 0 ≤ s → s + 1 < gridExtent axis →
  meshSlice c axis s b = b.
Proof.
  intros Hsolid Ha Hs0 Hs1. apply meshSlice_null; [done|].
  intros i j Hi Hj.
  assert (∀ x y z x' y' z',
            (inGrid x y z → inGrid x' y' z') →
            (if bool_decide (getBlock c x y z ≠ AIR) &&
                bool_decide (getBlock c x' y' z' = AIR)
             then Some (getBlock c x y z) else None) = None) as Hnone.
  { intros x y z x' y' z' Himp.
    destruct (decide (inGrid x y z)) as [Hin|Hout].
    - rewrite (getBlock_in c x' y' z') by auto.
      rewrite (bool_decide_eq_false_2 (cellAt c x' y' z' = AIR))
        by (by apply Hsolid, Himp).
      by rewrite andb_false_r.
    - by rewrite (getBlock_out c x y z). }
  unfold gridExtent, inGrid, CHUNK_SIZE, CHUNK_HEIGHT in *.
  destruct (axis_cases _ Ha) as [-> | [-> | ->]].
  - rewrite maskCell_x. apply Hnone. change (at3 [16; 64; 16] 0) with 16 in Hs1. lia.
  - rewrite maskCell_y. apply Hnone. change (at3 [16; 64; 16] 1) with 64 in Hs1. lia.
  - rewrite maskCell_z. apply Hnone. change (at3 [16; 64; 16] 2) with 16 in Hs1. lia.
Qed.

Lemma normals_sliceQuad axis s i j w h t b :
  normals (sliceQuad axis s i j w h t b) =
    normals b ++ concat (replicate 4 [at3 (sweepDir axis) 0; at3 (sweepDir axis) 1;
                                      at3 (sweepDir axis) 2]).
Proof.
  unfold sliceQuad, pushQuad, threeColor. simpl. by rewrite <- !app_assoc.
Qed.

(** The three quads of a slab below layer 16: their count and normals. *)
Lemma slab_quads_facing a0 a1 a2 b0 b1 b2 c0 c1 c2 w0 h0 w1 h1 w2 h2 t :
  let b := sliceQuad 2 a2 b2 c2 w2 h2 t
             (sliceQuad 1 a1 b1 c1 w1 h1 t
                (sliceQuad 0 a0 b0 c0 w0 h0 t emptyBuffers)) in
  quadCount b = 3 ∧
  quadNormals (normals b) = [(1, 0, 0); (0, 1, 0); (0, 0, 1)] ∧
  countQuadsFacing (0, 1, 0) b = 1%nat ∧
  countQuadsFacing (0, -1, 0) b = 0%nat.
Proof.
  intros b.
  assert (quadNormals (normals b) = [(1, 0, 0); (0, 1, 0); (0, 0, 1)]) as Hn.
  { unfold b. rewrite !normals_sliceQuad. reflexivity. }
  split_and!; [|done|..].
  - unfold quadCount, b. rewrite !vertexOffset_sliceQuad. reflexivity.
  - unfold countQuadsFacing. rewrite Hn. reflexivity.
  - unfold countQuadsFacing. rewrite Hn. reflexivity.
Qed.

Lemma top_quad_vertices x0 y0 z0 W H t :
  vertices (sliceQuad 1 y0 z0 x0 H W t emptyBuffers) =
    [x0; y0; z0;  x0; y0; z0 + H;  x0 + W; y0; z0 + H;  x0 + W; y0; z0].
Proof.
  change (vertices (sliceQuad 1 y0 z0 x0 H W t emptyBuffers))
    with [x0; y0; z0;  x0 + 0; y0 + 0; z0 + H;
          x0 + 0 + W; y0 + 0 + 0; z0 + H + 0;  x0 + W; y0 + 0; z0 + 0].
  repeat (f_equal; try lia).
Qed.

Lemma vertices_pushQuad d du dv q col b :
  vertices (pushQuad d du dv q col b) =
    vertices b ++
    [at3 d 0; at3 d 1; at3 d 2;
     at3 d 0 + at3 du 0; at3 d 1 + at3 du 1; at3 d 2 + at3 du 2;
     at3 d 0 + at3 du 0 + at3 dv 0; at3 d 1 + at3 du 1 + at3 dv 1;
       at3 d 2 + at3 du 2 + at3 dv 2;
     at3 d 0 + at3 dv 0; at3 d 1 + at3 dv 1; at3 d 2 + at3 dv 2].
Proof. destruct col as [[r g] bl]. reflexivity. Qed.

(** The corners of the three quads of a single cell: each quad lies in
    the plane through the cell's lower corner. *)
Lemma single_cell_greedy_vertices x0 y0 z0 t :
  vertices (sliceQuad 2 z0 x0 y0 1 1 t
              (sliceQuad 1 y0 z0 x0 1 1 t (sliceQuad 0 x0 y0 z0 1 1 t emptyBuffers))) =
    [x0; y0; z0;  x0; y0 + 1; z0;  x0; y0 + 1; z0 + 1;  x0; y0; z0 + 1;
     x0; y0; z0;  x0; y0; z0 + 1;  x0 + 1; y0; z0 + 1;  x0 + 1; y0; z0;
     x0; y0; z0;  x0 + 1; y0; z0;  x0 + 1; y0 + 1; z0;  x0; y0 + 1; z0].
Proof.
  unfold sliceQuad. rewrite !vertices_pushQuad.
  change ((0 + 1) `mod` 3) with 1. change ((0 + 2) `mod` 3) with 2.
  change ((1 + 1) `mod` 3) with 2. change ((1 + 2) `mod` 3) with 0.
  change ((2 + 1) `mod` 3) with 0. change ((2 + 2) `mod` 3) with 1.
  cbv -[Z.add]. repeat (f_equal; try lia).
Qed.

(** * The meshers on the fixtures of the specification *)

Lemma isSlab_stoneCell : isSingleCell stoneCell 3 5 7 STONE.
Proof. by apply isSlab_gridOf. Qed.

Lemma isSlab_stoneSlab : isSlab stoneSlab 4 5 6 2 3 STONE.
Proof. by apply isSlab_gridOf. Qed.

(** C1, as the code has it: for a grid with exactly one non-Air cell the
    naive mesher emits exactly the 6 quads of that cell's unit cube (24
    vertices, 12 triangles); the greedy mesher, which sweeps every axis in
    its positive direction only, emits 3 quads for a cell below layer 16,
    one facing +X, one +Y and one +Z, each in the plane through the
    cell's lower corner. *)
Theorem single_cell_quads (c : Chunk) (x0 y0 z0 : Z) (t : BlockType) :
  isSingleCell c x0 y0 z0 t →
  (simpleBuffers c = cubeQuads x0 y0 z0 t emptyBuffers ∧
   quadCount (simpleBuffers c) = 6 ∧
   length (vertices (simpleBuffers c)) = (24 * 3)%nat ∧
   length (indices (simpleBuffers c)) = (12 * 3)%nat) ∧
  (y0 < CHUNK_SIZE →
   greedyBuffers c =
     sliceQuad 2 z0 x0 y0 1 1 t
       (sliceQuad 1 y0 z0 x0 1 1 t (sliceQuad 0 x0 y0 z0 1 1 t emptyBuffers)) ∧
   quadCount (greedyBuffers c) = 3 ∧
   quadNormals (normals (greedyBuffers c)) = [(1, 0, 0); (0, 1, 0); (0, 0, 1)] ∧
   vertices (greedyBuffers c) =
     [x0; y0; z0;  x0; y0 + 1; z0;  x0; y0 + 1; z0 + 1;  x0; y0; z0 + 1;
      x0; y0; z0;  x0; y0; z0 + 1;  x0 + 1; y0; z0 + 1;  x0 + 1; y0; z0;
      x0; y0; z0;  x0 + 1; y0; z0;  x0 + 1; y0 + 1; z0;  x0; y0 + 1; z0]).
Proof.
  intros Hs. split.
  - rewrite (simpleBuffers_single_cell _ _ _ _ _ Hs).
    pose proof (cubeQuads_counts x0 y0 z0 t) as (H6 & Hv & _ & _ & Hi). done.
  - intros Hlow. rewrite (greedyBuffers_slab _ _ _ _ _ _ _ Hs).
    rewrite decide_True by done.
    replace (x0 + 1 - 1) with x0 by lia. replace (z0 + 1 - 1) with z0 by lia.
    split; [done|].
    pose proof (slab_quads_facing x0 y0 z0 y0 z0 x0 z0 x0 y0 1 1 1 1 1 1 t)
      as (Hc & Hn & _).
    split_and!; [done..|]. apply single_cell_greedy_vertices.
Qed.

Lemma single_cell_quads_witness :
  quadCount (simpleBuffers stoneCell) = 6 ∧ quadCount (greedyBuffers stoneCell) = 3.
Proof.
  destruct (single_cell_quads stoneCell 3 5 7 STONE isSlab_stoneCell)
    as [(_ & Hn & _) Hg].
  split; [exact Hn|]. exact (proj1 (proj2 (Hg eq_refl))).
Defined.

(** C1 as stated fails: on the grid with one Stone block at (3, 5, 7) the
    greedy mesher emits 3 quads, not the 6 of the naive mesher. *)
Lemma single_cell_greedy_counterexample :
  ¬ (∀ (c : Chunk) (x0 y0 z0 : Z) (t : BlockType),
       isSingleCell c x0 y0 z0 t →
       quadCount (simpleBuffers c) = 6 ∧ quadCount (greedyBuffers c) = 6).
Proof.
  intros Hclaim.
  destruct (Hclaim stoneCell 3 5 7 STONE isSlab_stoneCell) as [_ Hg].
  assert (quadCount (greedyBuffers stoneCell) = 3) as H3
    by (vm_compute; reflexivity).
  rewrite H3 in Hg. clear -Hg. discriminate Hg.
Qed.

(** Above layer 15 only the sweep along x sees the cell. *)
Lemma single_cell_high_layer (c : Chunk) (x0 y0 z0 : Z) (t : BlockType) :
  isSingleCell c x0 y0 z0 t → CHUNK_SIZE ≤ y0 →
  greedyBuffers c = sliceQuad 0 x0 y0 z0 1 1 t emptyBuffers.
Proof.
  intros Hs Hhigh. rewrite (greedyBuffers_slab _ _ _ _ _ _ _ Hs).
  rewrite decide_False by lia. by replace (x0 + 1 - 1) with x0 by lia.
Qed.

(** C2, as the code has it: in a fully solid grid neither mesher emits a
    quad at a face whose neighbour cell lies inside the grid; and for a
    flat, one block thick slab of one type, [W] by [H] cells, below layer
    16 and with Air around it, the greedy mesher emits 3 quads, of which
    exactly one faces up, the merged [W] by [H] top, and none faces down. *)
Theorem interior_faces_and_slab_quads (c : Chunk) :
  (isFullySolid c →
   (∀ x y z col b face,
      inGrid (x + (fdir face).1.1) (y + (fdir face).1.2) (z + (fdir face).2) →
      renderFace c x y z col b face = b) ∧
   (∀ axis s b,
      0 ≤ axis < 3 → 0 ≤ s → s + 1 < gridExtent axis →
      meshSlice c axis s b = b)) ∧
  (∀ x0 y0 z0 W H t,
     isSlab c x0 y0 z0 W H t → y0 < CHUNK_SIZE →
     greedyBuffers c =
       sliceQuad 2 (z0 + H - 1) x0 y0 W 1 t
         (sliceQuad 1 y0 z0 x0 H W t
            (sliceQuad 0 (x0 + W - 1) y0 z0 1 H t emptyBuffers)) ∧
     quadCount (greedyBuffers c) = 3 ∧
     countQuadsFacing (0, 1, 0) (greedyBuffers c) = 1%nat ∧
     countQuadsFacing (0, -1, 0) (greedyBuffers c) = 0%nat ∧
     vertices (sliceQuad 1 y0 z0 x0 H W t emptyBuffers) =
       [x0; y0; z0;  x0; y0; z0 + H;  x0 + W; y0; z0 + H;  x0 + W; y0; z0]).
Proof.
  split.
  - intros Hsolid. split.
    + intros x y z col b face Hin. apply renderFace_interior; [done|].
      by apply Hsolid.
    + intros axis s b Ha Hs0 Hs1. by apply meshSlice_solid.
  - intros x0 y0 z0 W H t Hs Hlow.
    rewrite (greedyBuffers_slab _ _ _ _ _ _ _ Hs). rewrite decide_True by done.
    pose proof (slab_quads_facing (x0 + W - 1) y0 (z0 + H - 1) y0 z0 x0 z0 x0 y0
                  1 H H W W 1 t) as (Hc & _ & Hup & Hdown).
    split_and!; [done..|]. apply top_quad_vertices.
Qed.

Lemma isFullySolid_stoneGrid : isFullySolid stoneGrid.
Proof. intros x y z Hin. unfold stoneGrid. by rewrite cellAt_gridOf. Qed.

Lemma interior_faces_and_slab_quads_witness :
  meshSlice stoneGrid 0 3 emptyBuffers = emptyBuffers ∧
  countQuadsFacing (0, 1, 0) (greedyBuffers stoneSlab) = 1%nat ∧
  countQuadsFacing (0, -1, 0) (greedyBuffers stoneSlab) = 0%nat.
Proof.
  split.
  - refine (proj2 (proj1 (interior_faces_and_slab_quads stoneGrid)
                     isFullySolid_stoneGrid) 0 3 emptyBuffers _ _ _);
      [lia|lia|reflexivity].
  - destruct (proj2 (interior_faces_and_slab_quads stoneSlab) 4 5 6 2 3 STONE
                isSlab_stoneSlab eq_refl) as (_ & _ & Hup & Hdown & _).
    split; [exact Hup|exact Hdown].
Defined.

(** C2 as stated fails: for the 2 by 3 Stone slab the greedy mesher emits
    the merged top quad but no quad facing down. *)
Lemma slab_bottom_quad_counterexample :
  ¬ (∀ (c : Chunk) (x0 y0 z0 W H : Z) (t : BlockType),
       isSlab c x0 y0 z0 W H t →
       countQuadsFacing (0, 1, 0) (greedyBuffers c) = 1%nat ∧
       countQuadsFacing (0, -1, 0) (greedyBuffers c) = 1%nat).
Proof.
  intros Hclaim.
  destruct (Hclaim stoneSlab 4 5 6 2 3 STONE isSlab_stoneSlab) as [_ Hdown].
  assert (countQuadsFacing (0, -1, 0) (greedyBuffers stoneSlab) = 0%nat) as H0
    by (vm_compute; reflexivity).
  rewrite H0 in Hdown. clear -Hdown. discriminate Hdown.
Qed.

(** C9: each mesher returns null exactly when it has emitted no quad; in
    particular both return null for a grid of Air. *)
Theorem mesh_absent_iff_no_quads (c : Chunk) :
  (createSimpleChunkMesh c = None ↔ quadCount (simpleBuffers c) = 0) ∧
  (createGreedyChunkMesh c = None ↔ quadCount (greedyBuffers c) = 0) ∧
  (isAllAir c → createSimpleChunkMesh c = None ∧ createGreedyChunkMesh c = None).
Proof.
  split_and!.
  - apply finishMesh_None, quadsEmitted_simpleBuffers.
  - apply finishMesh_None, quadsEmitted_greedyBuffers.
  - intros Hair. unfold createSimpleChunkMesh, createGreedyChunkMesh.
    by rewrite simpleBuffers_air, greedyBuffers_air.
Qed.

Lemma mesh_absent_iff_no_quads_witness :
  createSimpleChunkMesh airChunk = None ∧ createGreedyChunkMesh airChunk = None.
Proof.
  refine (proj2 (proj2 (mesh_absent_iff_no_quads airChunk))
            (checkGrid_correct airChunk (λ _ _ _, AIR) _)).
  vm_compute. reflexivity.
Defined.


(** * The height map *)

Lemma forZ_append {A : Type} (g : Z → A) n :
  0 ≤ n → forZ 0 n (λ i l, l ++ [g i]) [] = g <$> seqZ 0 n.
Proof.
  intros Hn.
  apply (forZ_ind (λ i l, l = g <$> seqZ 0 i)); [done|by rewrite seqZ_nil by lia|].
  intros i l Hi ->. rewrite seqZ_app by lia. rewrite fmap_app.
  rewrite (seqZ_cons _ 1) by lia. rewrite (seqZ_nil _ (Z.pred 1)) by lia.
  done.
Qed.

Lemma generateHeightMap_fmap noise2D pow chunkX chunkZ :
  generateHeightMap noise2D pow chunkX chunkZ =
    (λ x, (λ z, columnHeight noise2D pow chunkX chunkZ x z) <$> seqZ 0 CHUNK_SIZE)
      <$> seqZ 0 CHUNK_SIZE.
Proof.
  unfold generateHeightMap.
  rewrite <- (forZ_append _ CHUNK_SIZE) by done.
  apply forZ_ext. intros x hm Hx. by rewrite forZ_append.
Qed.

Lemma generateHeightMap_lookup noise2D pow chunkX chunkZ x z :
  0 ≤ x < CHUNK_SIZE → 0 ≤ z < CHUNK_SIZE →
  (generateHeightMap noise2D pow chunkX chunkZ !!! Z.to_nat x) !!! Z.to_nat z
    = columnHeight noise2D pow chunkX chunkZ x z.
Proof.
  intros Hx Hz. rewrite generateHeightMap_fmap.
  by rewrite !lookup_total_fmap_seqZ.
Qed.

Lemma initChunk_air : initChunk = airChunk.
Proof. vm_compute. reflexivity. Qed.

(** The last two steps of a height computation: clamp, then map to the
    height range and floor. *)
Lemma scaled_height_range (f : Q) :
  (0 <= f)%Q → (f <= 1)%Q →
  MIN_HEIGHT ≤ Qfloor (inject_Z MIN_HEIGHT + f * inject_Z (MAX_HEIGHT - MIN_HEIGHT))
    ≤ MAX_HEIGHT.
Proof.
  intros H0 H1. unfold MIN_HEIGHT, MAX_HEIGHT. split.
  - rewrite <- (Qfloor_Z 5) at 1. apply Qfloor_resp_le.
    change (inject_Z (50 - 5)) with (45 # 1)%Q. change (inject_Z 5) with (5 # 1)%Q.
    lra.
  - rewrite <- (Qfloor_Z 50) at 2. apply Qfloor_resp_le.
    change (inject_Z (50 - 5)) with (45 # 1)%Q. change (inject_Z 5) with (5 # 1)%Q.
    change (inject_Z 50) with (50 # 1)%Q.
    lra.
Qed.

Lemma clamp_range (f : Q) : (0 <= Qmax 0 (Qmin 1 f))%Q ∧ (Qmax 0 (Qmin 1 f) <= 1)%Q.
Proof.
  split; [apply Q.le_max_l|].
  apply Q.max_lub; [done|apply Q.le_min_l].
Qed.

Lemma columnHeight_range noise2D pow chunkX chunkZ x z :
  MIN_HEIGHT ≤ columnHeight noise2D pow chunkX chunkZ x z ≤ MAX_HEIGHT.
Proof. unfold columnHeight. apply scaled_height_range; apply clamp_range. Qed.

Lemma getTerrainHeight_range (sin cos : Q → Q) worldX worldZ :
  (∀ a, (-1 <= sin a)%Q ∧ (sin a <= 1)%Q) →
  (∀ a, (-1 <= cos a)%Q ∧ (cos a <= 1)%Q) →
  MIN_HEIGHT ≤ getTerrainHeight sin cos worldX worldZ ≤ MAX_HEIGHT.
Proof.
  intros Hsin Hcos. unfold getTerrainHeight.
  apply scaled_height_range; [apply Qabs_nonneg|].
  rewrite Qabs_Qmult.
  set (a := (worldX * TERRAIN_SCALE)%Q). set (b := (worldZ * TERRAIN_SCALE)%Q).
  assert (Qabs (sin a) <= 1)%Q as Ha by (apply Qabs_Qle_condition, Hsin).
  assert (Qabs (cos b) <= 1)%Q as Hb by (apply Qabs_Qle_condition, Hcos).
  pose proof (Qabs_nonneg (sin a)). pose proof (Qabs_nonneg (cos b)).
  nra.
Qed.

(** C6: every entry of a height map, for every chunk coordinate pair and
    whatever the noise function returns, and every result of
    getTerrainHeight (for a sine and a cosine with values in [-1, 1]), is
    an integer from 5 to 50. *)
Theorem heights_within_range :
  (∀ (noise2D pow : Q → Q → Q) (chunkX chunkZ : Z) (row : list Z) (h : Z),
     row ∈ generateHeightMap noise2D pow chunkX chunkZ → h ∈ row →
     MIN_HEIGHT ≤ h ≤ MAX_HEIGHT) ∧
  (∀ (noise2D pow : Q → Q → Q) (chunkX chunkZ x z : Z),
     0 ≤ x < CHUNK_SIZE → 0 ≤ z < CHUNK_SIZE →
     MIN_HEIGHT ≤ (generateHeightMap noise2D pow chunkX chunkZ !!! Z.to_nat x)
                    !!! Z.to_nat z ≤ MAX_HEIGHT) ∧
  (∀ (sin cos : Q → Q) (worldX worldZ : Q),
     (∀ a, (-1 <= sin a)%Q ∧ (sin a <= 1)%Q) →
     (∀ a, (-1 <= cos a)%Q ∧ (cos a <= 1)%Q) →
     MIN_HEIGHT ≤ getTerrainHeight sin cos worldX worldZ ≤ MAX_HEIGHT).
Proof.
  split_and!.
  - intros noise2D pow chunkX chunkZ row h Hrow Hh.
    rewrite generateHeightMap_fmap in Hrow.
    apply list_elem_of_fmap in Hrow as (x & -> & Hx).
    apply list_elem_of_fmap in Hh as (z & -> & Hz).
    apply columnHeight_range.
  - intros noise2D pow chunkX chunkZ x z Hx Hz.
    rewrite generateHeightMap_lookup by done. apply columnHeight_range.
  - intros sin cos worldX worldZ. apply getTerrainHeight_range.
Qed.

Lemma heights_within_range_witness :
  MIN_HEIGHT ≤ getTerrainHeight (λ _, 1 # 2)%Q (λ _, - (1))%Q 3%Q 4%Q ≤ MAX_HEIGHT ∧
  MIN_HEIGHT ≤ (generateHeightMap testNoise testPow 0 0 !!! Z.to_nat 2) !!! Z.to_nat 3
    ≤ MAX_HEIGHT.
Proof.
  split.
  - refine (proj2 (proj2 heights_within_range) (λ _, 1 # 2)%Q (λ _, - (1))%Q 3%Q 4%Q _ _);
      intros a; unfold Qle; simpl; lia.
  - refine (proj1 (proj2 heights_within_range) testNoise testPow 0 0 2 3 _ _);
      unfold CHUNK_SIZE; lia.
Defined.

(** * Assignments into the grid *)

Lemma wf_chunk_lookup c x y :
  wf_chunk c → 0 ≤ x < CHUNK_SIZE → 0 ≤ y < CHUNK_HEIGHT →
  ∃ plane row,
    c !! Z.to_nat x = Some plane ∧ plane !! Z.to_nat y = Some row ∧
    length plane = Z.to_nat CHUNK_HEIGHT ∧
    Forall (λ row : list BlockType, length row = Z.to_nat CHUNK_SIZE) plane ∧
    length row = Z.to_nat CHUNK_SIZE.
Proof.
  intros [Hlen Hplanes] Hx Hy.
  destruct (lookup_lt_is_Some_2 c (Z.to_nat x)) as [plane Hplane]; [lia|].
  destruct (Forall_lookup_1 _ _ _ _ Hplanes Hplane) as [Hlen' Hrows].
  destruct (lookup_lt_is_Some_2 plane (Z.to_nat y)) as [row Hrow]; [lia|].
  exists plane, row. split_and!; try done.
  by apply (Forall_lookup_1 _ _ _ _ Hrows Hrow).
Qed.

Lemma wf_chunk_air : wf_chunk airChunk.
Proof.
  unfold airChunk. split; [by rewrite length_replicate|].
  apply Forall_replicate. split; [by rewrite length_replicate|].
  apply Forall_replicate. by rewrite length_replicate.
Qed.

Lemma gridHolds_air : gridHolds airChunk (λ _ _ _, AIR).
Proof.
  exact (checkGrid_correct airChunk (λ _ _ _, AIR) ltac:(vm_compute; reflexivity)).
Qed.

(** An assignment to a cell of the grid updates that cell and nothing
    else; it neither throws nor goes astray. *)
Lemma setCell_inGrid x y z t st c :
  storeIs st c → inGrid x y z →
  ∃ c', storeIs (setCell x y z t st) c' ∧
        gridHolds c' (λ x' y' z', if decide (x' = x ∧ y' = y ∧ z' = z) then t
                                  else cellAt c x' y' z').
Proof.
  intros [-> Hwf] (Hx & Hy & Hz).
  destruct (wf_chunk_lookup c x y Hwf Hx Hy)
    as (plane & row & Hplane & Hrow & Hlenp & Hrows & Hlenr).
  unfold CHUNK_SIZE, CHUNK_HEIGHT in *.
  set (c' := <[Z.to_nat x := <[Z.to_nat y := <[Z.to_nat z := t]> row]> plane]> c).
  assert (setCell x y z t (Some (mkStore c [])) = Some (mkStore c' [])) as Hset.
  { unfold setCell, jsIndex. cbn [mbind option_bind grid stray].
    destruct (Z.ltb_spec x 0); [lia|]. rewrite Hplane. cbn [mbind option_bind].
    destruct (Z.ltb_spec y 0); [lia|]. rewrite Hrow. cbn [mbind option_bind].
    destruct (Z.leb_spec 0 z); [|lia].
    destruct (Z.ltb_spec z (Z.of_nat (length row))); [|lia]. done. }
  exists c'. split; [split; [done|]|].
  - destruct Hwf as [Hlen Hplanes]. unfold c', wf_chunk, CHUNK_SIZE, CHUNK_HEIGHT.
    split; [by rewrite length_insert|].
    apply Forall_insert; [done|]. split; [by rewrite length_insert|].
    apply Forall_insert; [done|]. by rewrite length_insert.
  - intros x' y' z' (Hx' & Hy' & Hz'). unfold cellAt, c'.
    apply list_lookup_total_correct in Hplane as Hplane'.
    apply list_lookup_total_correct in Hrow as Hrow'.
    destruct Hwf as [Hlen _].
    rewrite list_lookup_total_insert.
    destruct (decide (Z.to_nat x = Z.to_nat x' ∧ (Z.to_nat x < length c)%nat))
      as [[Hxx _]|Hxx].
    + assert (x' = x) as -> by lia.
      rewrite list_lookup_total_insert.
      destruct (decide (Z.to_nat y = Z.to_nat y' ∧ (Z.to_nat y < length plane)%nat))
        as [[Hyy _]|Hyy].
      * assert (y' = y) as -> by lia.
        rewrite list_lookup_total_insert.
        destruct (decide (Z.to_nat z = Z.to_nat z' ∧ (Z.to_nat z < length row)%nat))
          as [[Hzz _]|Hzz].
        -- assert (z' = z) as -> by lia. by rewrite decide_True.
        -- rewrite decide_False by lia. by rewrite Hplane', Hrow'.
      * rewrite decide_False by lia. by rewrite Hplane'.
    + rewrite decide_False by lia. done.
Qed.

(** * The tree placer *)

(** Whatever the assignment action does, a tree rooted at a column of the
    grid applies it to tree cells only, with Wood or Leaves. *)
Lemma generateTreeWith_inv {S : Type} (write : Z → Z → Z → BlockType → S → S)
    (P : S → Prop) (r : Q) (x y z : Z) (s : S) :
  (0 <= r)%Q →
  0 ≤ x < CHUNK_SIZE → 0 ≤ z < CHUNK_SIZE → 0 ≤ y →
  (∀ x' y' z' t s', treeCell x y z x' y' z' → t = WOOD ∨ t = LEAVES →
                    P s' → P (write x' y' z' t s')) →
  P s → P (generateTreeWith write r x y z s).
Proof.
  intros Hr Hx Hz Hy Hwrite Hs. unfold generateTreeWith.
  assert (0 ≤ Qfloor (r * 3)) as Hfl.
  { rewrite <- (Qfloor_Z 0). apply Qfloor_resp_le.
    change (inject_Z 0) with (0 # 1)%Q. lra. }
  set (TRUNK_HEIGHT := 5 + Qfloor (r * 3) - 2) in *.
  unfold CHUNK_SIZE, CHUNK_HEIGHT in *.
  assert (P (forZ 0 TRUNK_HEIGHT
               (λ dy chunk, if y + dy <? 64 then write x (y + dy) z WOOD chunk
                            else chunk) s)) as Htrunk.
  { apply (forZ_ind (λ _ s', P s')); [lia|done|].
    intros dy s' Hdy Hs'. destruct (Z.ltb_spec (y + dy) 64); [|done].
    apply Hwrite; [|by left|done].
    unfold treeCell, inGrid, CHUNK_SIZE, CHUNK_HEIGHT. lia. }
  match goal with
  | |- P (if _ then write _ _ _ _ ?leaves else ?leaves) =>
      assert (P leaves) as Hleaves
  end.
  { apply (forZ_ind (λ _ s', P s')); [lia|done|]. intros dx s1 Hdx Hs1.
    apply (forZ_ind (λ _ s', P s')); [lia|done|]. intros dz s2 Hdz Hs2.
    apply (forZ_ind (λ _ s', P s')); [lia|done|]. intros dy s3 Hdy Hs3.
    destruct (_ && _) eqn:Hbounds; [|done].
    destruct (negb _); [|done].
    apply Hwrite; [|by right|done].
    rewrite !andb_true_iff in Hbounds.
    unfold treeCell, inGrid, CHUNK_SIZE, CHUNK_HEIGHT. lia. }
  destruct (Z.ltb_spec (y + TRUNK_HEIGHT + 3) 64); [|done].
  apply Hwrite; [|by right|done].
  unfold treeCell, inGrid, CHUNK_SIZE, CHUNK_HEIGHT. lia.
Qed.

(** C4, as the code has it: for a tree rooted at a column of the grid
    (0 ≤ x < 16, 0 ≤ z < 16) at a ground level y ≥ 0, every cell that
    generateTree writes (trunk, canopy and cap) lies inside the grid; the
    vertical bound and the canopy's horizontal bounds are clipped.  Run on
    a well-formed grid it neither throws nor leaves a stray assignment. *)
Theorem generateTree_writes_in_grid (r : Q) (x y z : Z) :
  (0 <= r)%Q → (r < 1)%Q →
  0 ≤ x < CHUNK_SIZE → 0 ≤ z < CHUNK_SIZE → 0 ≤ y →
  (∀ w : Write, w ∈ generateTree_writes r x y z → writeInGrid w) ∧
  (∀ c : Chunk, wf_chunk c →
     ∃ c', generateTree r (Some (mkStore c [])) x y z = Some (mkStore c' []) ∧
           wf_chunk c').
Proof.
  intros Hr _ Hx Hz Hy. split.
  - cut (Forall writeInGrid (generateTree_writes r x y z)).
    { rewrite Forall_forall. auto. }
    unfold generateTree_writes.
    apply (generateTreeWith_inv logCell (Forall writeInGrid)); [done..| |done].
    intros x' y' z' t ws (Hin & _) _ Hws. unfold logCell.
    apply Forall_app. split; [done|]. by apply Forall_singleton.
  - intros c Hwf. unfold generateTree.
    apply (generateTreeWith_inv setCell (λ st, ∃ c', storeIs st c')); [done..| |].
    + intros x' y' z' t st (Hin & _) _ (c1 & Hc1).
      destruct (setCell_inGrid x' y' z' t st c1 Hc1 Hin) as (c2 & Hc2 & _).
      by exists c2.
    + by exists c.
Qed.

Lemma generateTree_writes_in_grid_witness :
  writeInGrid (15, 25, 15, LEAVES).
Proof.
  refine (proj1 (generateTree_writes_in_grid (1 # 2) 15 20 15 _ _ _ _ _)
            (15, 25, 15, LEAVES) _).
  - unfold Qle; simpl; lia.
  - unfold Qlt; simpl; lia.
  - unfold CHUNK_SIZE; lia.
  - unfold CHUNK_SIZE; lia.
  - lia.
  - vm_compute. repeat constructor.
Defined.

(** C4 as stated fails: with z = 16 the trunk's first assignment,
    [chunk[0][0][16] = WOOD], is executed and lands outside the grid (it
    grows the row [chunk[0][0]]). *)
Lemma generateTree_writes_counterexample :
  ¬ (∀ (r : Q) (x y z : Z) (w : Write),
       (0 <= r)%Q → (r < 1)%Q →
       w ∈ generateTree_writes r x y z → writeInGrid w) ∧
  stray <$> generateTree 0 (Some (mkStore airChunk [])) 0 0 16 =
    Some [(0, 0, 16, WOOD); (0, 1, 16, WOOD); (0, 2, 16, WOOD); (0, 6, 16, LEAVES)].
Proof.
  split; [|vm_compute; reflexivity].
  intros Hclaim.
  assert (writeInGrid (0, 0, 16, WOOD)) as (_ & _ & Hz).
  { apply (Hclaim 0%Q 0 0 16).
    - unfold Qle; simpl; lia.
    - unfold Qlt; simpl; lia.
    - vm_compute. repeat constructor. }
  unfold CHUNK_SIZE in Hz. lia.
Qed.

(** * The column fill *)


Lemma genHolds_ext H g f f' :
  (∀ x y z, inGrid x y z → f x y z = f' x y z) → genHolds H g f → genHolds H g f'.
Proof.
  intros Hext [(c & Hst & Hc) Hsites]. split; [|done].
  exists c. split; [done|]. intros x y z Hin. rewrite <- Hext by done. by apply Hc.
Qed.

Lemma genWrite_spec H x y z t g f :
  genHolds H g f → inGrid x y z →
  genHolds H (genWrite x y z t g)
           (λ x' y' z', if decide (x' = x ∧ y' = y ∧ z' = z) then t else f x' y' z').
Proof.
  intros [(c & Hst & Hc) Hsites] Hin. split; [|done].
  destruct (setCell_inGrid x y z t _ _ Hst Hin) as (c' & Hst' & Hc').
  exists c'. split; [done|]. intros x' y' z' Hin'. rewrite Hc' by done.
  destruct (decide _); [done|]. by apply Hc.
Qed.

Lemma terrainBlock_cases h y :
  (y < h - 4 → 0 ≤ y → terrainBlock h y = STONE) ∧
  (h - 4 ≤ y < h - 1 → terrainBlock h y = DIRT) ∧
  (y = h - 1 → terrainBlock h y = GRASS) ∧
  (terrainBlock h y = WATER → h ≤ y < WATER_LEVEL) ∧
  (h ≤ y → h < WATER_LEVEL → y < WATER_LEVEL → terrainBlock h y = WATER) ∧
  (h ≤ y → WATER_LEVEL ≤ y ∨ WATER_LEVEL ≤ h → terrainBlock h y = AIR).
Proof.
  unfold terrainBlock, WATER_LEVEL.
  rewrite (Z.geb_leb y (h - 4)).
  destruct (Z.ltb_spec y h), (Z.eqb_spec y (h - 1)), (Z.leb_spec (h - 4) y),
    (Z.ltb_spec h 12), (Z.ltb_spec y 12); simpl;
    split_and!; intros; try done; try lia.
Qed.

Lemma fillCell_spec H random x z y g f :
  genHolds H g f →
  0 ≤ x < CHUNK_SIZE → 0 ≤ z < CHUNK_SIZE → 0 ≤ y < H x z → H x z ≤ CHUNK_HEIGHT →
  genHolds H (fillCell random x z (H x z) y g)
           (λ x' y' z', if decide (x' = x ∧ y' = y ∧ z' = z) then terrainBlock (H x z) y
                        else f x' y' z').
Proof.
  intros Hg Hx Hz Hy Hh. set (h := H x z) in *.
  assert (inGrid x y z) as Hin by (unfold inGrid; lia).
  pose proof (terrainBlock_cases h y) as (Hstone & Hdirt & Hgrass & _).
  unfold fillCell. destruct (Z.eqb_spec y (h - 1)) as [Htop|Hntop].
  - rewrite Hgrass by done.
    pose proof (genWrite_spec H x y z GRASS g f Hg Hin) as [Hst Hsites].
    destruct (_ && _) eqn:Hrange; [|done].
    apply andb_true_iff in Hrange as [Hlo Hhi].
    apply Z.gtb_lt in Hlo. apply Z.ltb_lt in Hhi.
    destruct (Qltb _ _); (split; [done|]); cbn [treePositions]; [|done].
    apply Forall_app. split; [done|]. apply Forall_singleton.
    unfold siteOf. fold h. lia.
  - rewrite (Z.geb_leb y (h - 4)). destruct (Z.leb_spec (h - 4) y).
    + rewrite Hdirt by lia. by apply genWrite_spec.
    + rewrite Hstone by lia. by apply genWrite_spec.
Qed.

Lemma fillColumn_spec H random heightMap x z g f :
  (heightMap !!! Z.to_nat x) !!! Z.to_nat z = H x z →
  genHolds H g f →
  0 ≤ x < CHUNK_SIZE → 0 ≤ z < CHUNK_SIZE → MIN_HEIGHT ≤ H x z ≤ MAX_HEIGHT →
  (∀ y, 0 ≤ y < CHUNK_HEIGHT → f x y z = AIR) →
  genHolds H (fillColumn random heightMap x z g)
           (λ x' y' z', if decide (x' = x ∧ z' = z) then terrainBlock (H x z) y'
                        else f x' y' z').
Proof.
  intros Hhm Hg Hx Hz Hh Hair. unfold fillColumn. rewrite Hhm.
  pose proof (fillCell_spec H random x z) as Hcell.
  set (h := H x z) in *.
  unfold MIN_HEIGHT, MAX_HEIGHT, CHUNK_HEIGHT, WATER_LEVEL in *.
  set (upTo (k : Z) := λ x' y' z',
         if decide (x' = x ∧ z' = z ∧ y' < k) then terrainBlock h y' else f x' y' z').
  assert (genHolds H (forZ 0 h (fillCell random x z h) g) (upTo h)) as Hfill.
  { apply (forZ_ind (λ k g', genHolds H g' (upTo k))); [lia| |].
    - apply (genHolds_ext H g f); [|done]. intros x' y' z' (_ & Hy' & _).
      unfold upTo. rewrite decide_False by lia. done.
    - intros y g' Hy Hg'.
      refine (genHolds_ext _ _ _ _ _ (Hcell y g' _ Hg' Hx Hz _ _)); [|lia|lia].
      intros x' y' z' _. unfold upTo.
      repeat destruct (decide _); try done; try lia.
      destruct a as (-> & -> & ->). done. }
  cut (genHolds H (if h <? 12 then forZ h 12 (λ y, genWrite x y z WATER)
                                    (forZ 0 h (fillCell random x z h) g)
                   else forZ 0 h (fillCell random x z h) g)
                (upTo (Z.max h 12))).
  { apply genHolds_ext. intros x' y' z' (_ & Hy' & _). unfold upTo.
    destruct (decide (x' = x ∧ z' = z)) as [[-> ->]|Hne].
    - destruct (decide _); [done|]. rewrite Hair by (unfold CHUNK_HEIGHT in *; lia).
      symmetry. apply terrainBlock_cases; unfold WATER_LEVEL; lia.
    - rewrite decide_False by tauto. done. }
  destruct (Z.ltb_spec h 12).
  - replace (Z.max h 12) with 12 by lia.
    apply (forZ_ind (λ k g', genHolds H g' (upTo k))); [lia|done|].
    intros y g' Hy Hg'.
    refine (genHolds_ext _ _ _ _ _ (genWrite_spec H x y z WATER g' _ Hg' _));
      [|unfold inGrid, CHUNK_SIZE, CHUNK_HEIGHT in *; lia].
    intros x' y' z' _. unfold upTo.
    repeat destruct (decide _); try done; try lia.
    destruct a as (-> & -> & ->).
    symmetry. apply terrainBlock_cases; unfold WATER_LEVEL; lia.
  - by replace (Z.max h 12) with h by lia.
Qed.

Lemma fillTerrain_spec noise2D pow random chunkX chunkZ calls0 :
  genHolds (columnHeight noise2D pow chunkX chunkZ)
           (fillTerrain noise2D pow random chunkX chunkZ calls0)
           (λ x y z, terrainBlock (columnHeight noise2D pow chunkX chunkZ x z) y).
Proof.
  unfold fillTerrain. rewrite initChunk_air.
  set (H := columnHeight noise2D pow chunkX chunkZ).
  set (hm := generateHeightMap noise2D pow chunkX chunkZ).
  set (filled (cx cz : Z) := λ x y z : Z,
         if decide (x < cx ∨ (x = cx ∧ z < cz)) then terrainBlock (H x z) y else AIR).
  cut (genHolds H
         (forZ 0 CHUNK_SIZE (λ x, forZ 0 CHUNK_SIZE (λ z, fillColumn random hm x z))
               (mkGen (Some (mkStore airChunk [])) [] calls0))
         (filled CHUNK_SIZE 0)).
  { apply genHolds_ext. intros x y z (Hx & _). unfold filled.
    by rewrite decide_True by lia. }
  apply (forZ_ind (λ cx g, genHolds H g (filled cx 0))); [done| |].
  - split; [|by apply Forall_nil].
    exists airChunk. split; [split; [done|apply wf_chunk_air]|].
    intros x y z Hin. rewrite gridHolds_air by done.
    unfold filled. destruct Hin as (Hx & _ & Hz). by rewrite decide_False by lia.
  - intros cx g Hcx Hg.
    cut (genHolds H (forZ 0 CHUNK_SIZE (λ z, fillColumn random hm cx z) g)
                  (filled cx CHUNK_SIZE)).
    { apply genHolds_ext. intros x y z (_ & _ & Hz). unfold filled.
      repeat destruct (decide _); try done; lia. }
    apply (forZ_ind (λ cz g', genHolds H g' (filled cx cz))); [done|done|].
    intros cz g' Hcz Hg'.
    assert ((hm !!! Z.to_nat cx) !!! Z.to_nat cz = H cx cz) as Hh
      by (by apply generateHeightMap_lookup).
    refine (genHolds_ext _ _ _ _ _
              (fillColumn_spec H random hm cx cz g' _ Hh Hg' Hcx Hcz _ _)).
    + intros x y z _. unfold filled.
      repeat destruct (decide _); try done; try lia.
      by destruct a as [-> ->].
    + apply columnHeight_range.
    + intros y Hy. unfold filled. by rewrite decide_False by lia.
Qed.

(** * The tree loop *)



(** * generateChunk *)


Lemma testRandom_range n : (0 <= testRandom n)%Q ∧ (testRandom n < 1)%Q.
Proof.
  unfold testRandom. destruct (Nat.even n); split; unfold Qle, Qlt; simpl; lia.
Defined.


(** * Determinism *)









(** * Flat indices *)

(** X1: inside the grid the flat index is below 16 * 64 * 16 and
    indexToCoords undoes coordsToIndex; for every index i ≥ 0
    coordsToIndex undoes indexToCoords, and the coordinates lie in the
    grid exactly when i < 16384. *)
Theorem index_coords_round_trip :
  (∀ x y z, inGrid x y z →
     0 ≤ coordsToIndex x y z < CHUNK_SIZE * CHUNK_HEIGHT * CHUNK_SIZE ∧
     indexToCoords (coordsToIndex x y z) = (x, y, z)) ∧
  (∀ i, 0 ≤ i →
     let '(x, y, z) := indexToCoords i in
     coordsToIndex x y z = i ∧
     (inGrid x y z ↔ i < CHUNK_SIZE * CHUNK_HEIGHT * CHUNK_SIZE)).
Proof.
  unfold coordsToIndex, indexToCoords, jsRem, inGrid, CHUNK_SIZE, CHUNK_HEIGHT.
  change (64 * 16) with 1024. split.
  - intros x y z (Hx & Hy & Hz). split; [lia|].
    rewrite !Z.rem_mod_nonneg by lia.
    repeat f_equal; Z.div_mod_to_equations; lia.
  - intros i Hi. rewrite !Z.rem_mod_nonneg by lia.
    split; [|split]; Z.div_mod_to_equations; lia.
Qed.

Lemma index_coords_round_trip_witness :
  indexToCoords (coordsToIndex 3 5 7) = (3, 5, 7).
Proof.
  refine (proj2 (proj1 index_coords_round_trip 3 5 7 _)).
  unfold inGrid, CHUNK_SIZE, CHUNK_HEIGHT. lia.
Defined.

(** * The geometry buffers of both meshers *)

Lemma wf_chunk_gridOf f : wf_chunk (gridOf f).
Proof.
  unfold wf_chunk, gridOf. split; [by rewrite length_fmap, length_seqZ|].
  apply Forall_fmap, Forall_forall. intros x _. unfold compose.
  split; [by rewrite length_fmap, length_seqZ|].
  apply Forall_fmap, Forall_forall. intros y _. unfold compose.
  by rewrite length_fmap, length_seqZ.
Qed.

Lemma indices_sliceQuad axis s i j w h t b :
  indices (sliceQuad axis s i j w h t b) =
    indices b ++ [vertexOffset b + 0; vertexOffset b + 1; vertexOffset b + 2;
                  vertexOffset b + 0; vertexOffset b + 2; vertexOffset b + 3].
Proof. reflexivity. Qed.

Lemma colors_sliceQuad axis s i j w h t b :
  length (colors (sliceQuad axis s i j w h t b)) = (length (colors b) + 12)%nat.
Proof.
  unfold sliceQuad, pushQuad, threeColor. simpl. rewrite !length_app. simpl. lia.
Qed.

Lemma Forall_index_push (idx : list Z) vo :
  0 ≤ vo → Forall (λ i, 0 ≤ i < vo) idx →
  Forall (λ i, 0 ≤ i < vo + 4)
         (idx ++ [vo + 0; vo + 1; vo + 2; vo + 0; vo + 2; vo + 3]).
Proof.
  intros Hvo His. apply Forall_app. split.
  - eapply Forall_impl; [done|]. simpl. lia.
  - repeat (constructor; [simpl; lia|]). constructor.
Qed.

Lemma buffersOk_sliceQuad axis s i j w h t b n :
  buffersOk b n → buffersOk (sliceQuad axis s i j w h t b) (n + 1).
Proof.
  intros (Hn & Hvo & Hv & Hnl & Hc & Hi & Hidx). unfold buffersOk.
  rewrite vertexOffset_sliceQuad, vertices_sliceQuad, normals_sliceQuad,
    colors_sliceQuad, indices_sliceQuad.
  rewrite !length_app. simpl length.
  split_and!; try lia. apply Forall_index_push; [lia|done].
Qed.

Lemma buffersOk_renderFace c x y z col b face n :
  face ∈ faces → buffersOk b n →
  ∃ n', buffersOk (renderFace c x y z col b face) n'.
Proof.
  intros Hf Hb. unfold renderFace.
  destruct (shouldRenderFace _ _ _ _ _); [|by exists n].
  destruct Hb as (Hn & Hvo & Hv & Hnl & Hc & Hi & Hidx).
  exists (n + 1). destruct col as [[r g] bl].
  unfold faces in Hf. rewrite !elem_of_cons, elem_of_nil in Hf.
  destruct Hf as [-> | [-> | [-> | [-> | [-> | [-> | []]]]]]];
    (unfold buffersOk; simpl;
     rewrite <- !app_assoc, !length_app; simpl length;
     split_and!; try lia; apply Forall_index_push; [lia|done]).
Qed.

Lemma buffersOk_simpleBuffers c : ∃ n, buffersOk (simpleBuffers c) n.
Proof.
  unfold simpleBuffers, CHUNK_SIZE, CHUNK_HEIGHT.
  assert (buffersOk emptyBuffers 0) as H0.
  { unfold buffersOk. simpl. split_and!; try lia. constructor. }
  apply (forZ_ind (λ _ b, ∃ n, buffersOk b n)); [lia|by exists 0|].
  intros x b _ Hb.
  apply (forZ_ind (λ _ b, ∃ n, buffersOk b n)); [lia|done|].
  intros y b' _ Hb'.
  apply (forZ_ind (λ _ b, ∃ n, buffersOk b n)); [lia|done|].
  intros z b'' _ Hb''. unfold renderCell.
  destruct (bool_decide _); [done|].
  generalize (threeColor (Block.getColor (cellAt c x y z))). intros col.
  assert (∀ fs b, (∀ f, f ∈ fs → f ∈ faces) → (∃ n, buffersOk b n) →
            ∃ n', buffersOk (fold_left (renderFace c x y z col) fs b) n') as Hfold.
  { induction fs as [|f fs IH]; intros b1 Hsub Hb1; [done|]. simpl.
    apply IH; [intros; apply Hsub; by right|].
    destruct Hb1 as [k Hk]. eapply buffersOk_renderFace; [|done].
    apply Hsub. by left. }
  by apply Hfold.
Qed.

Lemma buffersOk_scanRow fuel axis s j i st :
  (∃ n, buffersOk st.1 n) → ∃ n, buffersOk (scanRow fuel axis s j i st).1 n.
Proof.
  revert i st. induction fuel as [|fuel IH]; intros i st Hst; [done|].
  rewrite scanRow_step. cbv zeta.
  destruct (_ <? _); [|done].
  destruct (maskAt _ _); apply IH; [|done].
  destruct Hst as [n Hn]. exists (n + 1). by apply buffersOk_sliceQuad.
Qed.

Lemma buffersOk_greedyBuffers c : ∃ n, buffersOk (greedyBuffers c) n.
Proof.
  unfold greedyBuffers.
  assert (buffersOk emptyBuffers 0) as H0.
  { unfold buffersOk. simpl. split_and!; try lia. constructor. }
  apply (forZ_ind (λ _ b, ∃ n, buffersOk b n)); [lia|by exists 0|].
  intros axis b Ha Hb.
  apply (forZ_ind (λ _ b, ∃ n, buffersOk b n)); [|done|].
  - apply Z.lt_le_incl, dimsAt_pos; lia.
  - intros s b' _ Hb'. unfold meshSlice.
    apply (forZ_ind (λ _ st, ∃ n, buffersOk st.1 n)); [|done|].
    + apply Z.lt_le_incl, dimsAt_pos; [done|by apply Z.mod_pos_bound].
    + intros j st _ Hst. by apply buffersOk_scanRow.
Qed.

(** X2: for every 16 by 64 by 16 grid, the buffers of the naive and of
    the greedy mesher are consistent: the position, normal and colour arrays hold 12 numbers
    per quad, the index array 6, the vertex offset is 4 per quad, and
    every index refers to a vertex that was pushed. *)
Theorem mesher_buffers_consistent (c : Chunk) :
  wf_chunk c →
  buffersOk (simpleBuffers c) (quadCount (simpleBuffers c)) ∧
  buffersOk (greedyBuffers c) (quadCount (greedyBuffers c)).
Proof.
  intros _.
  assert (∀ b, (∃ n, buffersOk b n) → buffersOk b (quadCount b)) as Hcount.
  { intros b [n Hn]. pose proof Hn as (_ & Hvo & _).
    unfold quadCount. rewrite Hvo, (Z.mul_comm 4 n), Z.div_mul by done. done. }
  split; apply Hcount; [apply buffersOk_simpleBuffers|apply buffersOk_greedyBuffers].
Qed.

Lemma mesher_buffers_consistent_witness :
  buffersOk (greedyBuffers stoneSlab) (quadCount (greedyBuffers stoneSlab)).
Proof.
  exact (proj2 (mesher_buffers_consistent stoneSlab (wf_chunk_gridOf _))).
Defined.

(** * The directions of the greedy mesher's quads *)

Lemma quadNormals_app ns ms :
  (∃ k : nat, length ns = (12 * k)%nat) →
  quadNormals (ns ++ ms) = quadNormals ns ++ quadNormals ms.
Proof.
  intros [k Hk]. revert ns Hk. induction k as [|k IH]; intros ns Hk.
  - destruct ns; [done|simpl in Hk; lia].
  - do 12 (destruct ns as [|? ns]; [simpl in Hk; lia|]).
    simpl. f_equal. apply IH. simpl in Hk. lia.
Qed.

Lemma sweepDir_positive axis :
  0 ≤ axis < 3 →
  (at3 (sweepDir axis) 0, at3 (sweepDir axis) 1, at3 (sweepDir axis) 2) ∈ positiveAxes.
Proof.
  intros Ha. unfold positiveAxes.
  destruct (axis_cases _ Ha) as [-> | [-> | ->]]; repeat constructor.
Qed.

Lemma normalsPositive_sliceQuad axis s i j w h t b :
  0 ≤ axis < 3 → normalsPositive b → normalsPositive (sliceQuad axis s i j w h t b).
Proof.
  intros Ha [[k Hk] Hall]. unfold normalsPositive.
  rewrite normals_sliceQuad. split.
  - exists (Datatypes.S k). rewrite length_app. simpl. lia.
  - rewrite quadNormals_app by (by exists k).
    apply Forall_app. split; [done|]. simpl.
    apply Forall_singleton. by apply sweepDir_positive.
Qed.

Lemma normalsPositive_scanRow fuel axis s j i st :
  0 ≤ axis < 3 →
  normalsPositive st.1 → normalsPositive (scanRow fuel axis s j i st).1.
Proof.
  intros Ha. revert i st. induction fuel as [|fuel IH]; intros i st Hst; [done|].
  rewrite scanRow_step. cbv zeta.
  destruct (_ <? _); [|done].
  destruct (maskAt _ _); apply IH; [|done].
  by apply normalsPositive_sliceQuad.
Qed.

(** X3: whatever the blocks of the grid, every quad of the greedy mesher
    faces +X, +Y or +Z; it emits no quad facing -X, -Y or -Z. *)
Theorem greedy_quads_face_positive (c : Chunk) :
  wf_chunk c →
  Forall (λ n, n ∈ positiveAxes) (quadNormals (normals (greedyBuffers c))) ∧
  countQuadsFacing (-1, 0, 0) (greedyBuffers c) = 0%nat ∧
  countQuadsFacing (0, -1, 0) (greedyBuffers c) = 0%nat ∧
  countQuadsFacing (0, 0, -1) (greedyBuffers c) = 0%nat.
Proof.
  intros _.
  assert (normalsPositive (greedyBuffers c)) as [_ Hall].
  { unfold greedyBuffers.
    apply (forZ_ind (λ _ b, normalsPositive b)); [lia| |].
    - split; [by exists 0%nat|constructor].
    - intros axis b Ha Hb.
      apply (forZ_ind (λ _ b, normalsPositive b)); [|done|].
      + apply Z.lt_le_incl, dimsAt_pos; lia.
      + intros s b' _ Hb'. unfold meshSlice.
        apply (forZ_ind (λ _ st, normalsPositive st.1)); [|done|].
        * apply Z.lt_le_incl, dimsAt_pos; [done|by apply Z.mod_pos_bound].
        * intros j st _ Hst. by apply normalsPositive_scanRow. }
  split; [done|].
  assert (∀ n, n ∉ positiveAxes → countQuadsFacing n (greedyBuffers c) = 0%nat) as H0.
  { intros n Hn. unfold countQuadsFacing.
    induction Hall as [|m ms Hm Hms IH]; [done|].
    rewrite filter_cons_False; [done|]. intros ->. done. }
  split_and!; apply H0; unfold positiveAxes;
    rewrite !not_elem_of_cons; split_and!; try done; apply not_elem_of_nil.
Qed.

Lemma greedy_quads_face_positive_witness :
  countQuadsFacing (0, -1, 0) (greedyBuffers stoneGrid) = 0%nat.
Proof.
  exact (proj1 (proj2 (proj2 (greedy_quads_face_positive stoneGrid (wf_chunk_gridOf _))))).
Defined.

(** * The shape of a tree *)

(** The elements of a list built by a loop whose body only appends. *)
Lemma elem_of_forZ_log {A : Type} (body : Z → list A → list A)
    (Q : Z → A → Prop) lo hi ws0 :
  lo ≤ hi →
  (∀ i ws w, lo ≤ i < hi → w ∈ body i ws ↔ w ∈ ws ∨ Q i w) →
  ∀ w, w ∈ forZ lo hi body ws0 ↔ w ∈ ws0 ∨ ∃ i, lo ≤ i < hi ∧ Q i w.
Proof.
  intros Hle Hbody.
  apply (forZ_ind (λ k ws, ∀ w, w ∈ ws ↔ w ∈ ws0 ∨ ∃ i, lo ≤ i < k ∧ Q i w));
    [done| |].
  - intros w. split; [by left|]. intros [Hw|(i & Hi & _)]; [done|lia].
  - intros i ws Hi IH w. rewrite Hbody, IH by done. split.
    + intros [[Hw|(i' & Hi' & Hq)]|Hq]; [by left| |].
      * right. exists i'. split; [lia|done].
      * right. exists i. split; [lia|done].
    + intros [Hw|(i' & Hi' & Hq)]; [by left; left|].
      destruct (decide (i' = i)) as [->|Hne]; [by right|].
      left. right. exists i'. split; [lia|done].
Qed.

Lemma trunkHeight_range r : (0 <= r)%Q → (r < 1)%Q → 3 ≤ trunkHeight r ≤ 5.
Proof.
  intros H0 H1. unfold trunkHeight.
  assert (0 ≤ Qfloor (r * 3)) as Hlo.
  { rewrite <- (Qfloor_Z 0). apply Qfloor_resp_le.
    change (inject_Z 0) with (0 # 1)%Q. lra. }
  assert (Qfloor (r * 3) < 3) as Hhi.
  { pose proof (Qfloor_le (r * 3)) as Hfl.
    apply Z.nle_gt. intros Hge. rewrite Zle_Qle in Hge.
    change (inject_Z 3) with (3 # 1)%Q in Hge. lra. }
  lia.
Qed.

Lemma trunkHeight_nonneg r : (0 <= r)%Q → 3 ≤ trunkHeight r.
Proof.
  intros H0. unfold trunkHeight.
  assert (0 ≤ Qfloor (r * 3)) as Hlo.
  { rewrite <- (Qfloor_Z 0). apply Qfloor_resp_le.
    change (inject_Z 0) with (0 # 1)%Q. lra. }
  lia.
Qed.

(** The assignments of generateTree are exactly the tree's blocks. *)
Lemma generateTree_writes_spec r x y z w :
  (0 <= r)%Q → w ∈ generateTree_writes r x y z ↔ treeWrite r x y z w.
Proof.
  intros Hr. pose proof (trunkHeight_nonneg r Hr) as HT.
  unfold generateTree_writes, generateTreeWith, treeWrite.
  change (5 + Qfloor (r * 3) - 2) with (trunkHeight r).
  set (T := trunkHeight r) in *. clearbody T.
  unfold CHUNK_SIZE, CHUNK_HEIGHT.
  set (trunk := forZ 0 T _ []).
  assert (∀ w, w ∈ trunk ↔
            ∃ dy, 0 ≤ dy < T ∧ y + dy < 64 ∧ w = (x, y + dy, z, WOOD)) as Htrunk.
  { intros w'. unfold trunk.
    rewrite (elem_of_forZ_log _ (λ dy w, y + dy < 64 ∧ w = (x, y + dy, z, WOOD)));
      [|lia|].
    - rewrite elem_of_nil. split; [intros [[]|Hw]; exact Hw|intros Hw; right; exact Hw].
    - intros dy ws w1 _. unfold logCell.
      destruct (Z.ltb_spec (y + dy) 64);
        rewrite ?elem_of_app, ?list_elem_of_singleton; intuition lia. }
  set (canopy := forZ (-1) 2 _ trunk).
  assert (∀ w, w ∈ canopy ↔
            w ∈ trunk ∨
            ∃ dx, -1 ≤ dx < 2 ∧ ∃ dz, -1 ≤ dz < 2 ∧ ∃ dy, 0 ≤ dy < 3 ∧
              (0 ≤ x + dx < 16 ∧ 0 ≤ z + dz < 16 ∧ y + T + dy < 64) ∧
              ¬ (dx = 0 ∧ dz = 0 ∧ dy = 0) ∧
              w = (x + dx, y + T + dy, z + dz, LEAVES)) as Hcanopy.
  { intros w'. unfold canopy.
    apply (elem_of_forZ_log _ (λ dx w,
             ∃ dz, -1 ≤ dz < 2 ∧ ∃ dy, 0 ≤ dy < 3 ∧
               (0 ≤ x + dx < 16 ∧ 0 ≤ z + dz < 16 ∧ y + T + dy < 64) ∧
               ¬ (dx = 0 ∧ dz = 0 ∧ dy = 0) ∧
               w = (x + dx, y + T + dy, z + dz, LEAVES))); [lia|].
    intros dx ws1 w1 _.
    apply (elem_of_forZ_log _ (λ dz w,
             ∃ dy, 0 ≤ dy < 3 ∧
               (0 ≤ x + dx < 16 ∧ 0 ≤ z + dz < 16 ∧ y + T + dy < 64) ∧
               ¬ (dx = 0 ∧ dz = 0 ∧ dy = 0) ∧
               w = (x + dx, y + T + dy, z + dz, LEAVES))); [lia|].
    intros dz ws2 w2 _.
    apply (elem_of_forZ_log _ (λ dy w,
             (0 ≤ x + dx < 16 ∧ 0 ≤ z + dz < 16 ∧ y + T + dy < 64) ∧
             ¬ (dx = 0 ∧ dz = 0 ∧ dy = 0) ∧
             w = (x + dx, y + T + dy, z + dz, LEAVES))); [lia|].
    intros dy ws3 w3 _.
    unfold logCell. rewrite !Z.geb_leb.
    destruct (Z.leb_spec 0 (x + dx)), (Z.ltb_spec (x + dx) 16),
      (Z.leb_spec 0 (z + dz)), (Z.ltb_spec (z + dz) 16),
      (Z.ltb_spec (y + T + dy) 64); simpl; try (intuition lia).
    destruct (Z.eqb_spec dx 0), (Z.eqb_spec dz 0), (Z.eqb_spec dy 0); simpl;
      rewrite ?elem_of_app, ?list_elem_of_singleton; intuition lia. }
  clearbody trunk canopy.
  assert (w ∈ (if y + T + 3 <? 64 then logCell x (y + T + 3) z LEAVES canopy
               else canopy) ↔
          w ∈ canopy ∨ (y + T + 3 < 64 ∧ w = (x, y + T + 3, z, LEAVES))) as ->.
  { unfold logCell. destruct (Z.ltb_spec (y + T + 3) 64);
      rewrite ?elem_of_app, ?list_elem_of_singleton; intuition lia. }
  rewrite Hcanopy, Htrunk. destruct w as [[[x' y'] z'] t]. split.
  - intros [[(dy & Hdy & Hy & [= -> -> -> ->])
            |(dx & Hdx & dz & Hdz & dy & Hdy & Hb & Hc & [= -> -> -> ->])]
           |[Hy [= -> -> -> ->]]].
    + split; [lia|]. left. split_and!; try done; lia.
    + split; [lia|]. right. left. split_and!; try done; lia.
    + split; [lia|]. right. right. done.
  - intros [Hy [(-> & -> & -> & Hy')|[(-> & Hx & Hz & Hy' & Hx' & Hz' & Hc)
                                     |(-> & -> & -> & ->)]]].
    + left. left. exists (y' - y). split_and!; [lia..|]. repeat f_equal. lia.
    + left. right. exists (x' - x). split; [lia|]. exists (z' - z). split; [lia|].
      exists (y' - (y + T)). split; [lia|]. split; [lia|]. split; [lia|].
      repeat f_equal; lia.
    + right. done.
Qed.



(** * The returned chunk *)

(** Two runs of a loop whose bodies keep a relation end in related
    states. *)
Lemma forZ_rel {S1 S2 : Type} (R : S1 → S2 → Prop) lo hi body1 body2 s1 s2 :
  R s1 s2 →
  (∀ i a b, lo ≤ i < hi → R a b → R (body1 i a) (body2 i b)) →
  R (forZ lo hi body1 s1) (forZ lo hi body2 s2).
Proof.
  intros HR Hbody. unfold forZ.
  assert (∀ l : list Z, Forall (λ i, lo ≤ i < hi) l → ∀ a b, R a b →
            R (fold_left (λ s i, body1 i s) l a) (fold_left (λ s i, body2 i s) l b))
    as Hl.
  { induction l as [|i l IH]; intros Hin a b Hab; [done|].
    apply Forall_cons in Hin as [Hi Hin]. simpl. apply IH; [done|].
    by apply Hbody. }
  apply Hl; [|done]. apply Forall_forall. intros i Hi.
  apply elem_of_seqZ in Hi. lia.
Qed.

Lemma generateTreeWith_rel {S1 S2 : Type} (R : S1 → S2 → Prop)
    (write1 : Z → Z → Z → BlockType → S1 → S1)
    (write2 : Z → Z → Z → BlockType → S2 → S2) r x y z s1 s2 :
  R s1 s2 →
  (∀ x' y' z' t a b, R a b → R (write1 x' y' z' t a) (write2 x' y' z' t b)) →
  R (generateTreeWith write1 r x y z s1) (generateTreeWith write2 r x y z s2).
Proof.
  intros HR Hw. unfold generateTreeWith. cbv zeta.
  match goal with
  | |- R (if ?c then _ else ?a) (if _ then _ else ?b) =>
      assert (R a b) as Hcanopy; [|destruct c; [by apply Hw|done]]
  end.
  apply forZ_rel.
  - apply forZ_rel; [done|]. intros dy a b _ Hab.
    destruct (_ <? _); [by apply Hw|done].
  - intros dx a b _ Hab. apply forZ_rel; [done|].
    intros dz a' b' _ Hab'. apply forZ_rel; [done|].
    intros dy a'' b'' _ Hab''.
    destruct (_ && _); [|done]. destruct (negb _); [by apply Hw|done].
Qed.

(** generateTree executes the assignments of its log, in order. *)
Lemma generateTreeWith_run {S : Type} (write : Z → Z → Z → BlockType → S → S)
    r x y z s :
  generateTreeWith write r x y z s = runWrites write (generateTree_writes r x y z) s.
Proof.
  unfold generateTree_writes.
  apply (generateTreeWith_rel (λ a ws, a = runWrites write ws s)); [done|].
  intros x' y' z' t a ws ->. unfold runWrites, logCell.
  by rewrite fold_left_app.
Qed.

(** One tree of the tree loop: rooted at a registered site, it turns
    cells between the heights 11 and 42 into Wood or Leaves and leaves
    the others as they are. *)
Lemma generateTree_between H r c0 st x y z :
  (0 <= r)%Q → (r < 1)%Q → siteOf H (x, y, z) →
  (∃ c, storeIs st c ∧ treesBetween 11 42 c0 c) →
  ∃ c, storeIs (generateTree r st x y z) c ∧ treesBetween 11 42 c0 c.
Proof.
  intros H0 H1 (Hx & Hz & _ & Hy) Hst. unfold generateTree.
  rewrite generateTreeWith_run.
  assert (Forall (treeWrite r x y z) (generateTree_writes r x y z)) as Hws.
  { apply Forall_forall. intros w Hw. by apply generateTree_writes_spec. }
  pose proof (trunkHeight_range r H0 H1) as HT.
  revert st Hst. induction Hws as [|[[[x' y'] z'] t] ws Hw _ IH]; intros st Hst; [done|].
  simpl. apply IH. destruct Hst as (c & Hc & Hbetween).
  assert (inGrid x' y' z' ∧ (t = WOOD ∨ t = LEAVES) ∧ 11 ≤ y' ≤ 42) as (Hin & Ht & Hy').
  { unfold treeWrite in Hw. unfold inGrid, CHUNK_SIZE, CHUNK_HEIGHT in *.
    destruct Hw as [Hlt [(-> & -> & -> & Hr)|[(-> & Hr)|(-> & -> & -> & ->)]]];
      (split; [lia|split; [auto|lia]]). }
  destruct (setCell_inGrid x' y' z' t st c Hc Hin) as (c' & Hc' & Hgrid').
  exists c'. split; [done|]. intros x1 y1 z1 Hin1.
  rewrite (Hgrid' x1 y1 z1 Hin1).
  destruct (decide (x1 = x' ∧ y1 = y' ∧ z1 = z')) as [(-> & -> & ->)|Hne].
  - right. split; [done|lia].
  - by apply Hbetween.
Qed.

Lemma placeTrees_between H random c0 l g :
  (∀ n, (0 <= random n)%Q ∧ (random n < 1)%Q) →
  Forall (siteOf H) l →
  (∃ c, storeIs (store g) c ∧ treesBetween 11 42 c0 c) →
  ∃ c, storeIs (store (fold_left (placeTree random) l g)) c ∧ treesBetween 11 42 c0 c.
Proof.
  intros Hr Hl. revert g. induction Hl as [|[[x y] z] l Hsite _ IH]; intros g Hg; [done|].
  simpl. apply IH. cbn [store].
  by apply (generateTree_between H); [apply Hr|apply Hr|..].
Qed.

(** X5: generateChunk returns a chunk whose bottom layer is Stone in
    every column, whose cells below the terrain height of their column
    are all solid and never Water, which holds Water below the water
    level 12 only, Wood and Leaves between the heights 11 and 42 only,
    and nothing but Air from the height 50 up. *)
Theorem generateChunk_ground_and_sky (noise2D pow : Q → Q → Q) (random : nat → Q)
    (chunkX chunkZ : Z) (calls0 : nat) :
  (∀ n, (0 <= random n)%Q ∧ (random n < 1)%Q) →
  ∃ c : Chunk,
    generateChunk noise2D pow random chunkX chunkZ calls0 = Some c ∧
    ∀ x y z, inGrid x y z →
      let h := (generateHeightMap noise2D pow chunkX chunkZ !!! Z.to_nat x)
                 !!! Z.to_nat z in
      (y = 0 → cellAt c x y z = STONE) ∧
      (y < h → isSolid c x y z = true ∧ cellAt c x y z ≠ WATER) ∧
      (cellAt c x y z = WATER → y < WATER_LEVEL) ∧
      (cellAt c x y z = WOOD ∨ cellAt c x y z = LEAVES → 11 ≤ y ≤ 42) ∧
      (MAX_HEIGHT ≤ y → cellAt c x y z = AIR).
Proof.
  intros Hrandom.
  destruct (fillTerrain_spec noise2D pow random chunkX chunkZ calls0)
    as [(c0 & [Hst0 Hwf0] & Hc0) Hsites].
  set (g0 := fillTerrain noise2D pow random chunkX chunkZ calls0) in *.
  destruct (placeTrees_between (columnHeight noise2D pow chunkX chunkZ) random c0
              (treePositions g0) g0 Hrandom Hsites) as (c & [Hst Hwf] & Hc).
  { exists c0. split; [done|]. intros x y z Hin. by left. }
  exists c. split.
  { unfold generateChunk, generateChunkRun. fold g0. by rewrite Hst. }
  intros x y z Hin. cbv zeta. pose proof Hin as (Hx & Hy & Hz).
  rewrite generateHeightMap_lookup by done.
  pose proof (columnHeight_range noise2D pow chunkX chunkZ x z) as Hh.
  set (h := columnHeight noise2D pow chunkX chunkZ x z) in *.
  pose proof (terrainBlock_cases h y) as (Hstone & Hdirt & Hgrass & Hwater & _ & Hair).
  pose proof (Hc0 x y z Hin) as Hcell0. simpl in Hcell0. fold h in Hcell0.
  assert (y < h → terrainBlock h y ≠ AIR ∧ terrainBlock h y ≠ WATER) as Hsolid.
  { intros Hlt. unfold terrainBlock. destruct (Z.ltb_spec y h); [|lia].
    destruct (_ =? _); [done|]. by destruct (_ >=? _). }
  assert (terrainBlock h y ≠ WOOD ∧ terrainBlock h y ≠ LEAVES) as [Hnw Hnl].
  { unfold terrainBlock.
    destruct (_ <? _); [destruct (_ =? _); [done|by destruct (_ >=? _)]|].
    by destruct (_ && _). }
  assert (isSolid c x y z = bool_decide (cellAt c x y z ≠ AIR)) as Hs.
  { unfold isSolid, CHUNK_SIZE, CHUNK_HEIGHT in *. rewrite !Z.geb_leb.
    destruct (Z.ltb_spec x 0), (Z.leb_spec 16 x), (Z.ltb_spec z 0), (Z.leb_spec 16 z),
      (Z.ltb_spec y 0), (Z.leb_spec 64 y); try lia. done. }
  unfold MIN_HEIGHT, MAX_HEIGHT, WATER_LEVEL in *.
  destruct (Hc x y z Hin) as [Hsame|[Htree Hrange]].
  - rewrite Hs, Hsame, Hcell0. split_and!.
    + intros ->. apply Hstone; lia.
    + intros Hlt. destruct (Hsolid Hlt). split; [by apply bool_decide_eq_true|done].
    + intros Hw. apply Hwater in Hw. lia.
    + intros [?|?]; congruence.
    + intros Hge. apply Hair; lia.
  - rewrite Hs. split_and!.
    + intros ->. lia.
    + intros _. split; [apply bool_decide_eq_true|]; destruct Htree; congruence.
    + destruct Htree; congruence.
    + done.
    + intros Hge. lia.
Qed.

Lemma generateChunk_ground_and_sky_witness :
  ∃ c, generateChunk testNoise testPow testRandom 0 0 0 = Some c ∧
       cellAt c 0 0 0 = STONE ∧ cellAt c 0 63 0 = AIR.
Proof.
  destruct (generateChunk_ground_and_sky testNoise testPow testRandom 0 0 0
              testRandom_range) as (c & Hc & Hcells).
  exists c. split; [exact Hc|].
  assert (inGrid 0 0 0) as H0 by (unfold inGrid, CHUNK_SIZE, CHUNK_HEIGHT; lia).
  assert (inGrid 0 63 0) as H1 by (unfold inGrid, CHUNK_SIZE, CHUNK_HEIGHT; lia).
  split.
  - exact (proj1 (Hcells 0 0 0 H0) eq_refl).
  - refine (proj2 (proj2 (proj2 (proj2 (Hcells 0 63 0 H1)))) _).
    unfold MAX_HEIGHT. lia.
Defined.

(** * Comparisons of numbers *)

Lemma Qltb_spec (a b : Q) : if Qltb a b then (a < b)%Q else (b <= a)%Q.
Proof.
  unfold Qltb. destruct (Qle_bool b a) eqn:E; simpl.
  - by apply Qle_bool_iff.
  - apply Qnot_le_lt. intros Hle. apply Qle_bool_iff in Hle. congruence.
Qed.

Lemma Qleb_spec (a b : Q) : if Qleb a b then (a <= b)%Q else (b < a)%Q.
Proof.
  unfold Qleb. destruct (Qle_bool a b) eqn:E.
  - by apply Qle_bool_iff.
  - apply Qnot_le_lt. intros Hle. apply Qle_bool_iff in Hle. congruence.
Qed.

(** * The player *)

(** X6: whatever calls of takeDamage and heal are made with amounts that
    are not negative, a health between 0 and 100 stays between 0 and
    100; takeDamage never raises it and heal never lowers it. *)
Theorem health_stays_in_range (calls : list HealthCall) (p : Player.Player) :
  Forall (λ c, (0 <= healthAmount c)%Q) calls →
  (0 <= Player.health p)%Q ∧ (Player.health p <= 100)%Q →
  ((0 <= Player.health (fold_left healthCall calls p))%Q ∧
   (Player.health (fold_left healthCall calls p) <= 100)%Q) ∧
  (∀ a, (0 <= a)%Q →
     (Player.health (Player.takeDamage a p) <= Player.health p)%Q ∧
     (Player.health p <= Player.health (Player.heal a p))%Q).
Proof.
  intros Hcalls Hp. split.
  - revert p Hp. induction Hcalls as [|c calls Hc _ IH]; intros p [H0 H100]; [done|].
    simpl. apply IH. destruct c as [a|a]; simpl in *.
    + split; [apply Q.le_max_l|]. apply Q.max_lub; [done|lra].
    + split; [|apply Q.le_min_l]. apply Q.min_glb; [done|lra].
  - intros a Ha. destruct Hp as [H0 H100]. simpl. split.
    + apply Q.max_lub; [done|lra].
    + apply Q.min_glb; [done|lra].
Qed.

Lemma health_stays_in_range_witness :
  (0 <= Player.health
          (fold_left healthCall [TakeDamage 130; Heal 20; Heal 90]
                     (Player.constructor 0 20 0)))%Q.
Proof.
  refine (proj1 (proj1 (health_stays_in_range
                          [TakeDamage 130; Heal 20; Heal 90]
                          (Player.constructor 0 20 0) _ _))).
  - repeat constructor; unfold Qle; simpl; lia.
  - split; unfold Qle; simpl; lia.
Defined.

(** X7: in any run of canAttack calls, whatever the clock readings, the
    calls that answer true are at least 500 ms apart, and the first of
    them comes at least 500 ms after the last attack before the run. *)
Theorem accepted_attacks_spaced (nows : list Z) (p : Player.Player) :
  (∀ t, t ∈ acceptedAttacks nows p →
     Player.lastAttackTime p + Player.attackCooldown ≤ t) ∧
  (∀ (i : nat) t1 t2,
     acceptedAttacks nows p !! i = Some t1 →
     acceptedAttacks nows p !! Datatypes.S i = Some t2 →
     t1 + Player.attackCooldown ≤ t2) ∧
  acceptedAttacks nows p `sublist_of` nows.
Proof.
  revert p. induction nows as [|now nows IH]; intros p.
  { simpl. split_and!; [intros t Ht; by apply elem_of_nil in Ht|done|done]. }
  simpl. unfold Player.canAttack, Player.attackCooldown in *.
  destruct (Z.ltb_spec (now - Player.lastAttackTime p) 500) as [Hlt|Hge].
  - destruct (IH p) as (Hfirst & Hgap & Hsub).
    split_and!; [done|done|by apply sublist_cons].
  - match goal with
    | |- context [acceptedAttacks nows ?q] => destruct (IH q) as (Hfirst & Hgap & Hsub)
    end.
    cbn [Player.lastAttackTime] in Hfirst. split_and!.
    + intros t [->|Ht]%elem_of_cons; [lia|]. apply Hfirst in Ht. lia.
    + intros [|i] t1 t2 H1 H2; simpl in H1, H2.
      * injection H1 as <-. apply Hfirst. by eapply list_elem_of_lookup_2.
      * by eapply Hgap.
    + by apply sublist_skip.
Qed.

(** X8: after a frame of update the player is at or above the ground
    level 18 and falls no faster than the terminal velocity; it is flagged
    as grounded exactly when it stands on the ground level, and then its
    vertical velocity is 0.  A player that was in the air leaves the frame
    with no more upward speed than gravity left it, whatever the keys.
    Health, keys and the attack clock are untouched. *)
Theorem update_vertical (sqrt : Q → Q) (cameraDirection : Vec3.Vec3)
    (p : Player.Player) :
  let p' := Player.update sqrt cameraDirection p in
  (18 <= Vec3.y (Player.position p'))%Q ∧
  (-1 <= Vec3.y (Player.velocity p'))%Q ∧
  (Player.isGrounded p' = true →
     Vec3.y (Player.position p') = 18%Q ∧ Vec3.y (Player.velocity p') = 0%Q) ∧
  (Player.isGrounded p' = false → (18 < Vec3.y (Player.position p'))%Q) ∧
  (Player.isGrounded p = false →
     (Vec3.y (Player.velocity p')
        <= Qmax 0 (Vec3.y (Player.velocity p) + Player.gravity))%Q) ∧
  Player.health p' = Player.health p ∧
  Player.keys p' = Player.keys p ∧
  Player.lastAttackTime p' = Player.lastAttackTime p.
Proof.
  unfold Player.update.
  set (p1 := if Keys.forward (Player.keys p)
             then Player.moveForward sqrt cameraDirection p else p).
  assert (Player.velocity p1 = Player.velocity p ∧
          Player.isGrounded p1 = Player.isGrounded p ∧
          Player.health p1 = Player.health p ∧ Player.keys p1 = Player.keys p ∧
          Player.lastAttackTime p1 = Player.lastAttackTime p) as (Ev1 & Eg1 & Eh1 & Ek1 & El1).
  { unfold p1. by destruct (Keys.forward _). }
  set (p2 := if Keys.backward (Player.keys p1)
             then Player.moveBackward sqrt cameraDirection p1 else p1).
  assert (Player.velocity p2 = Player.velocity p ∧
          Player.isGrounded p2 = Player.isGrounded p ∧
          Player.health p2 = Player.health p ∧ Player.keys p2 = Player.keys p ∧
          Player.lastAttackTime p2 = Player.lastAttackTime p) as (Ev2 & Eg2 & Eh2 & Ek2 & El2).
  { unfold p2. by destruct (Keys.backward _). }
  set (p3 := if Keys.left (Player.keys p2)
             then Player.strafeLeft sqrt cameraDirection p2 else p2).
  assert (Player.velocity p3 = Player.velocity p ∧
          Player.isGrounded p3 = Player.isGrounded p ∧
          Player.health p3 = Player.health p ∧ Player.keys p3 = Player.keys p ∧
          Player.lastAttackTime p3 = Player.lastAttackTime p) as (Ev3 & Eg3 & Eh3 & Ek3 & El3).
  { unfold p3. by destruct (Keys.left _). }
  set (p4 := if Keys.right (Player.keys p3)
             then Player.strafeRight sqrt cameraDirection p3 else p3).
  assert (Player.velocity p4 = Player.velocity p ∧
          Player.isGrounded p4 = Player.isGrounded p ∧
          Player.health p4 = Player.health p ∧ Player.keys p4 = Player.keys p ∧
          Player.lastAttackTime p4 = Player.lastAttackTime p) as (Ev4 & Eg4 & Eh4 & Ek4 & El4).
  { unfold p4. by destruct (Keys.right _). }
  clearbody p4. clear p1 p2 p3 Ev1 Eg1 Eh1 Ek1 El1 Ev2 Eg2 Eh2 Ek2 El2 Ev3 Eg3 Eh3 Ek3 El3.
  set (p5 := if Keys.jump (Player.keys p4) then Player.jump p4 else p4).
  assert (Player.health p5 = Player.health p ∧ Player.keys p5 = Player.keys p ∧
          Player.lastAttackTime p5 = Player.lastAttackTime p ∧
          (Player.isGrounded p = false →
             Vec3.y (Player.velocity p5) = Vec3.y (Player.velocity p)))
    as (Eh5 & Ek5 & El5 & Ev5).
  { unfold p5, Player.jump. destruct (Keys.jump _); [|by rewrite Ev4].
    destruct (Player.isGrounded p4) eqn:E; [|by rewrite Ev4].
    split_and!; try done. intros Hair. congruence. }
  clearbody p5. cbv zeta.
  set (v := (Vec3.y (Player.velocity p5) + Player.gravity)%Q) in *.
  cbn [Player.setVelocityY Player.velocity Player.position Vec3.y Vec3.x Vec3.z
       Player.setPosition Player.setGrounded Player.isGrounded Player.health
       Player.keys Player.lastAttackTime].
  fold v. unfold Player.terminalVelocity.
  pose proof (Qltb_spec v (-(1))) as Hclamp.
  destruct (Qltb v (-(1)));
    cbn [Player.setVelocityY Player.velocity Player.position Vec3.y Vec3.x Vec3.z
         Player.setPosition Player.setGrounded Player.isGrounded Player.health
         Player.keys Player.lastAttackTime].
  - pose proof (Qleb_spec (Vec3.y (Player.position p5) + -(1)) 18) as Hground.
    destruct (Qleb _ _);
      cbn [Player.setVelocityY Player.velocity Player.position Vec3.y Vec3.x Vec3.z
           Player.setPosition Player.setGrounded Player.isGrounded Player.health
           Player.keys Player.lastAttackTime];
      (split_and!; try done; try lra; try (intros; apply Q.le_max_l)).
    intros _. apply Qle_trans with 0%Q; [lra|apply Q.le_max_l].
  - pose proof (Qleb_spec (Vec3.y (Player.position p5) + v) 18) as Hground.
    destruct (Qleb _ _);
      cbn [Player.setVelocityY Player.velocity Player.position Vec3.y Vec3.x Vec3.z
           Player.setPosition Player.setGrounded Player.isGrounded Player.health
           Player.keys Player.lastAttackTime];
      (split_and!; try done; try lra; try (intros; apply Q.le_max_l)).
    intros Hair.
    apply Qle_trans with (Vec3.y (Player.velocity p) + Player.gravity)%Q;
      [|apply Q.le_max_r].
    rewrite <- (Ev5 Hair). fold v. lra.
Qed.

(** * The renderer's click handlers *)

(** X9: the right-click handler emits a placement only when a block is
    targeted, a block type is selected and nothing collides; the cell
    coordinates it emits lie between 0 and 15 and, with the chunk
    coordinates, give back the world position of the adjacent cell, for
    negative positions too; the height is passed on as it is. *)
Theorem onPlaceBlock_coordinates (targetBlock : option Renderer.TargetBlock)
    (hasSelectedBlock : bool) (selectedBlockType : option BlockType)
    (collision : bool) (chunkX chunkZ localX localY localZ : Z) (t : BlockType) :
  Renderer.emitPlaceBlock chunkX chunkZ localX localY localZ t
    ∈ Renderer.onPlaceBlock targetBlock hasSelectedBlock selectedBlockType collision →
  ∃ tb, targetBlock = Some tb ∧ hasSelectedBlock = true ∧
        selectedBlockType = Some t ∧ collision = false ∧
        let '(ax, ay, az) := Renderer.adjacentPosition tb in
        0 ≤ localX < CHUNK_SIZE ∧ 0 ≤ localZ < CHUNK_SIZE ∧
        chunkX * CHUNK_SIZE + localX = ax ∧ chunkZ * CHUNK_SIZE + localZ = az ∧
        localY = ay.
Proof.
  unfold Renderer.onPlaceBlock. intros He.
  destruct targetBlock as [tb|]; [|by apply elem_of_nil in He].
  destruct hasSelectedBlock; simpl in He; [|by apply elem_of_nil in He].
  destruct selectedBlockType as [t'|]; [|by apply elem_of_nil in He].
  destruct collision; [by apply elem_of_nil in He|].
  exists tb. destruct (Renderer.adjacentPosition tb) as [[ax ay] az].
  rewrite !elem_of_cons, elem_of_nil in He.
  destruct He as [He|[He|[]]]; [discriminate He|].
  injection He as -> -> -> -> -> ->.
  split_and!; try done; unfold jsRem, CHUNK_SIZE;
    Z.to_euclidean_division_equations; lia.
Qed.

Lemma onPlaceBlock_coordinates_witness :
  ∃ tb, Some (Renderer.mkTargetBlock (-1, 2) (15, 20, 2) STONE (-1, 20, 35)) = Some tb ∧
        0 ≤ 15 < CHUNK_SIZE.
Proof.
  destruct (onPlaceBlock_coordinates
              (Some (Renderer.mkTargetBlock (-1, 2) (15, 20, 2) STONE (-1, 20, 35)))
              true (Some GRASS) false (-1) 2 15 20 3 GRASS) as (tb & Htb & _ & _ & _ & H).
  - vm_compute. repeat constructor.
  - exists tb. split; [exact Htb|]. destruct (Renderer.adjacentPosition tb) as [[ax ay] az].
    exact (proj1 H).
Defined.

(** The scan for the closest player, after the players [seen]. *)
Lemma closestPlayer_inv (sqrt : Q → Q) playerPos seen others st :
  ((∀ o, o ∈ seen → (st.2 <= Renderer.distanceTo sqrt playerPos o)%Q) ∧
   match st.1 with
   | None => st.2 = Renderer.ATTACK_RANGE
   | Some o => o ∈ seen ∧ st.2 = Renderer.distanceTo sqrt playerPos o ∧
               (Renderer.distanceTo sqrt playerPos o < 3)%Q
   end) →
  let st' := fold_left (Renderer.closestStep sqrt playerPos) others st in
  (∀ o, o ∈ seen ++ others → (st'.2 <= Renderer.distanceTo sqrt playerPos o)%Q) ∧
  match st'.1 with
  | None => st'.2 = Renderer.ATTACK_RANGE
  | Some o => o ∈ seen ++ others ∧ st'.2 = Renderer.distanceTo sqrt playerPos o ∧
              (Renderer.distanceTo sqrt playerPos o < 3)%Q
  end.
Proof.
  revert seen st. induction others as [|other others IH]; intros seen st Hst.
  { simpl. by rewrite app_nil_r. }
  simpl. replace (seen ++ other :: others) with ((seen ++ [other]) ++ others)
    by (by rewrite <- app_assoc).
  apply IH. destruct Hst as [Hmin Hsel]. unfold Renderer.closestStep.
  set (distance := Renderer.distanceTo sqrt playerPos other).
  assert (st.2 <= 3)%Q as Hle.
  { destruct st.1 as [o|]; [destruct Hsel as (_ & -> & Hlt); lra|].
    rewrite Hsel. unfold Renderer.ATTACK_RANGE. lra. }
  pose proof (Qleb_spec distance Renderer.ATTACK_RANGE) as H1.
  pose proof (Qltb_spec distance st.2) as H2.
  unfold Renderer.ATTACK_RANGE in H1.
  destruct (Qleb _ _), (Qltb _ _); simpl.
  - split.
    + intros o [Ho|Ho%list_elem_of_singleton]%elem_of_app.
      * apply Hmin in Ho. lra.
      * subst o. fold distance. lra.
    + split_and!; [apply elem_of_app; right; by apply list_elem_of_singleton|done|].
      fold distance. lra.
  - split.
    + intros o [Ho|Ho%list_elem_of_singleton]%elem_of_app; [by apply Hmin|].
      subst o. done.
    + destruct st.1 as [o|]; [|done]. destruct Hsel as (Ho & Hd & Hlt).
      split_and!; [apply elem_of_app; by left|done|done].
  - split.
    + intros o [Ho|Ho%list_elem_of_singleton]%elem_of_app; [by apply Hmin|].
      subst o. fold distance. lra.
    + destruct st.1 as [o|]; [|done]. destruct Hsel as (Ho & Hd & Hlt).
      split_and!; [apply elem_of_app; by left|done|done].
  - split.
    + intros o [Ho|Ho%list_elem_of_singleton]%elem_of_app; [by apply Hmin|].
      subst o. fold distance. lra.
    + destruct st.1 as [o|]; [|done]. destruct Hsel as (Ho & Hd & Hlt).
      split_and!; [apply elem_of_app; by left|done|done].
Qed.

(** X10: a left click with no block targeted emits at most one attack.
    It emits one only when the cooldown of 500 ms has passed, and then at
    a remote player that is strictly closer than 3 blocks and no farther
    than any other; it emits none exactly when the cooldown has not
    passed or every remote player is 3 blocks away or more. *)
Theorem onBreakBlock_attacks_closest (sqrt : Q → Q) (now : Z)
    (others : list Renderer.Other) (p : Player.Player) :
  let dist := Renderer.distanceTo sqrt (Player.position p) in
  let effs := (Renderer.onBreakBlock sqrt None now others p).1 in
  (∀ i, Renderer.emitAttack i ∈ effs →
     Player.lastAttackTime p + Player.attackCooldown ≤ now ∧
     ∃ o, o ∈ others ∧ Renderer.id o = i ∧ (dist o < 3)%Q ∧
          ∀ o', o' ∈ others → (dist o <= dist o')%Q) ∧
  (effs = [] ↔
     now < Player.lastAttackTime p + Player.attackCooldown ∨
     ∀ o, o ∈ others → (3 <= dist o)%Q) ∧
  (effs = [] ∨ ∃ i, effs = [Renderer.emitAttack i]).
Proof.
  cbv zeta. unfold Renderer.onBreakBlock, Player.canAttack, Player.attackCooldown.
  destruct (Z.ltb_spec (now - Player.lastAttackTime p) 500) as [Hlt|Hge]; simpl.
  { split_and!; [intros i Hi; by apply elem_of_nil in Hi| |by left].
    split; [intros _; left; lia|done]. }
  destruct (closestPlayer_inv sqrt (Player.position p) [] others
              (None, Renderer.ATTACK_RANGE)) as [Hmin Hsel].
  { simpl. split; [|done]. intros o Ho. by apply elem_of_nil in Ho. }
  simpl in Hmin, Hsel. fold (Renderer.closestPlayer sqrt (Player.position p) others) in *.
  destruct (Renderer.closestPlayer sqrt (Player.position p) others).1 as [o|]; simpl.
  - destruct Hsel as (Ho & Hd & Hclose). split_and!.
    + intros i Hi. apply list_elem_of_singleton in Hi. injection Hi as ->.
      split; [lia|]. exists o. split_and!; try done.
      intros o' Ho'. rewrite <- Hd. by apply Hmin.
    + split; [done|]. intros [Hcool|Hfar]; [lia|].
      apply Hfar in Ho. lra.
    + right. by exists (Renderer.id o).
  - split_and!; [intros i Hi; by apply elem_of_nil in Hi| |by left].
    split; [|done]. intros _. right. intros o Ho. apply Hmin in Ho.
    rewrite Hsel in Ho. unfold Renderer.ATTACK_RANGE in Ho. done.
Qed.

(** * The colour of a remote player *)

Lemma playerHash_fold (l : list ascii) (a : Z) :
  0 ≤ a → 0 ≤ fold_left (λ acc char, acc + charCodeAt0 char) l a.
Proof.
  revert a. induction l as [|c l IH]; intros a Ha; [done|].
  simpl. apply IH. unfold charCodeAt0. lia.
Qed.

Lemma playerHash_perm (l l' : list ascii) :
  l ≡ₚ l' →
  ∀ a, fold_left (λ acc char, acc + charCodeAt0 char) l a =
       fold_left (λ acc char, acc + charCodeAt0 char) l' a.
Proof.
  induction 1 as [|c l l' _ IH|c c' l|l l' l'' _ IH _ IH']; intros a; simpl.
  - done.
  - apply IH.
  - f_equal. lia.
  - by rewrite IH.
Qed.

(** X11: getPlayerColor is defined on every id and returns one of the 8
    colours of its palette; ids that are made of the same characters, in
    any order, get the same colour. *)
Theorem getPlayerColor_palette :
  (∀ playerId, ∃ c, getPlayerColor playerId = Some c ∧ c ∈ playerColors) ∧
  (∀ playerId playerId',
     list_ascii_of_string playerId ≡ₚ list_ascii_of_string playerId' →
     getPlayerColor playerId = getPlayerColor playerId').
Proof.
  split.
  - intros playerId. unfold getPlayerColor, jsIndex, jsRem.
    pose proof (playerHash_fold (list_ascii_of_string playerId) 0 ltac:(done)) as Hh.
    fold (playerHash playerId) in Hh.
    change (Z.of_nat (length playerColors)) with 8.
    pose proof (Z.rem_bound_pos (playerHash playerId) 8 Hh ltac:(done)) as Hr.
    destruct (Z.ltb_spec (Z.rem (playerHash playerId) 8) 0); [lia|].
    destruct (lookup_lt_is_Some_2 playerColors (Z.to_nat (Z.rem (playerHash playerId) 8)))
      as [c Hc].
    { change (length playerColors) with 8%nat. lia. }
    exists c. split; [done|]. by eapply list_elem_of_lookup_2.
  - intros playerId playerId' Hperm. unfold getPlayerColor, playerHash.
    by rewrite (playerHash_perm _ _ Hperm).
Qed.

Lemma getPlayerColor_palette_witness :
  getPlayerColor "abc" = getPlayerColor "cab".
Proof.
  apply (proj2 getPlayerColor_palette). vm_compute.
  symmetry. apply (Permutation_cons_append [_; _]).
Defined.

(** * The bot's choice of a target *)

(** The scan for the nearest player, after the entries [seen]. *)
Lemma findNearestPlayer_inv (sqrt : Q → Q) (this : Bot.PlayerEntity)
    (dist : Bot.PlayerEntity → Q) seen players st :
  (∀ pl, dist pl = sqrt ((Bot.x pl - Bot.x this) * (Bot.x pl - Bot.x this) +
                         (Bot.y pl - Bot.y this) * (Bot.y pl - Bot.y this))%Q) →
  match st with
  | (None, Bot.Infinity) =>
      ∀ e, e ∈ seen → ¬ (e.1 ≠ Bot.id this ∧ Bot.isAlive e.2 = true)
  | (Some t, Bot.Finite d) =>
      ∃ key pl, (key, pl) ∈ seen ∧ key ≠ Bot.id this ∧ Bot.isAlive pl = true ∧
        t = Bot.mkBotTarget (Bot.id pl) (Bot.x pl) (Bot.y pl) (dist pl) ∧
        d = dist pl ∧
        ∀ e, e ∈ seen → e.1 ≠ Bot.id this → Bot.isAlive e.2 = true →
             (dist pl <= dist e.2)%Q
  | _ => False
  end →
  match fold_left (Bot.nearestStep sqrt this) players st with
  | (None, Bot.Infinity) =>
      ∀ e, e ∈ seen ++ players → ¬ (e.1 ≠ Bot.id this ∧ Bot.isAlive e.2 = true)
  | (Some t, Bot.Finite d) =>
      ∃ key pl, (key, pl) ∈ seen ++ players ∧ key ≠ Bot.id this ∧
        Bot.isAlive pl = true ∧
        t = Bot.mkBotTarget (Bot.id pl) (Bot.x pl) (Bot.y pl) (dist pl) ∧
        d = dist pl ∧
        ∀ e, e ∈ seen ++ players → e.1 ≠ Bot.id this → Bot.isAlive e.2 = true →
             (dist pl <= dist e.2)%Q
  | _ => False
  end.
Proof.
  intros Hdist. revert seen st.
  induction players as [|[key player] players IH]; intros seen st Hst.
  { simpl. by rewrite app_nil_r. }
  simpl. replace (seen ++ (key, player) :: players)
    with ((seen ++ [(key, player)]) ++ players) by (by rewrite <- app_assoc).
  apply IH. clear IH.
  destruct (decide (key = Bot.id this)) as [Hself|Hother].
  { rewrite bool_decide_eq_true_2 by done. simpl.
    destruct st as [[t|] [|d]]; try done.
    - destruct Hst as (k & pl & Hin & Hk & Ha & Ht & Hd & Hmin).
      exists k, pl. split_and!; try done; [apply elem_of_app; by left|].
      intros e [He|He%list_elem_of_singleton]%elem_of_app Hne Hal; [by apply Hmin|].
      subst e. done.
    - intros e [He|He%list_elem_of_singleton]%elem_of_app [Hne Hal]; [by eapply Hst|].
      subst e. done. }
  rewrite bool_decide_eq_false_2 by done. simpl.
  destruct (Bot.isAlive player) eqn:Halive; simpl.
  2:{ destruct st as [[t|] [|d]]; try done.
      - destruct Hst as (k & pl & Hin & Hk & Ha & Ht & Hd & Hmin).
        exists k, pl. split_and!; try done; [apply elem_of_app; by left|].
        intros e [He|He%list_elem_of_singleton]%elem_of_app Hne Hal; [by apply Hmin|].
        subst e. simpl in Hal. congruence.
      - intros e [He|He%list_elem_of_singleton]%elem_of_app [Hne Hal]; [by eapply Hst|].
        subst e. simpl in Hal. congruence. }
  rewrite <- (Hdist player).
  destruct st as [[t|] [|d]]; try done; simpl.
  - destruct Hst as (k & pl & Hin & Hk & Ha & Ht & Hd & Hmin). subst d.
    pose proof (Qltb_spec (dist player) (dist pl)) as Hlt.
    destruct (Qltb _ _).
    + exists key, player.
      split_and!; try done; [apply elem_of_app; right; by apply list_elem_of_singleton|].
      intros e [He|He%list_elem_of_singleton]%elem_of_app Hne Hal.
      * pose proof (Hmin e He Hne Hal). lra.
      * subst e. simpl. lra.
    + exists k, pl. split_and!; try done; [apply elem_of_app; by left|].
      intros e [He|He%list_elem_of_singleton]%elem_of_app Hne Hal; [by apply Hmin|].
      subst e. simpl. lra.
  - exists key, player.
    split_and!; try done; [apply elem_of_app; right; by apply list_elem_of_singleton|].
    intros e [He|He%list_elem_of_singleton]%elem_of_app Hne Hal.
    + destruct (Hst e He). done.
    + subst e. simpl. lra.
Qed.

(** X12: findNearestPlayer returns null exactly when the map holds no
    living player under a key other than the bot's id.  Otherwise its
    target is such a player, with that player's id, position and
    distance, and no such player is nearer. *)
Theorem findNearestPlayer_nearest (sqrt : Q → Q) (this : Bot.PlayerEntity)
    (players : list (string * Bot.PlayerEntity)) :
  let dist pl := sqrt ((Bot.x pl - Bot.x this) * (Bot.x pl - Bot.x this) +
                       (Bot.y pl - Bot.y this) * (Bot.y pl - Bot.y this))%Q in
  match Bot.findNearestPlayer sqrt this players with
  | None =>
      ∀ key pl, (key, pl) ∈ players → key = Bot.id this ∨ Bot.isAlive pl = false
  | Some t =>
      ∃ key pl, (key, pl) ∈ players ∧ key ≠ Bot.id this ∧ Bot.isAlive pl = true ∧
        t = Bot.mkBotTarget (Bot.id pl) (Bot.x pl) (Bot.y pl) (dist pl) ∧
        ∀ key' pl', (key', pl') ∈ players → key' ≠ Bot.id this →
                    Bot.isAlive pl' = true → (dist pl <= dist pl')%Q
  end.
Proof.
  intros dist. unfold Bot.findNearestPlayer.
  pose proof (findNearestPlayer_inv sqrt this dist [] players (None, Bot.Infinity)
                ltac:(done)) as Hinv.
  simpl in Hinv.
  destruct (fold_left _ players _) as [[t|] [|d]]; simpl.
  - exfalso. apply Hinv. intros e He. by apply elem_of_nil in He.
  - destruct Hinv as (key & pl & Hin & Hk & Ha & Ht & _ & Hmin).
    { intros e He. by apply elem_of_nil in He. }
    exists key, pl. split_and!; try done.
    intros key' pl' Hin' Hk' Ha'. by apply (Hmin (key', pl')).
  - intros key pl Hin.
    destruct (decide (key = Bot.id this)) as [|Hne]; [by left|]. right.
    destruct (Bot.isAlive pl) eqn:E; [|done].
    exfalso. apply (Hinv ltac:(intros e He; by apply elem_of_nil in He) (key, pl) Hin).
    done.
  - exfalso. apply Hinv. intros e He. by apply elem_of_nil in He.
Qed.

(** * The tiling of the greedy mesher *)

Lemma findWidth_spec fuel m U i j t w :
  1 ≤ w → i + w ≤ U →
  (∀ k, 0 ≤ k < w → maskAt m (i + k + j * U) = Some t) →
  w ≤ findWidth fuel m U i j t w ∧ i + findWidth fuel m U i j t w ≤ U ∧
  ∀ k, 0 ≤ k < findWidth fuel m U i j t w → maskAt m (i + k + j * U) = Some t.
Proof.
  revert w. induction fuel as [|fuel IH]; intros w Hw HU Hrun; [done|].
  simpl. destruct (Z.ltb_spec (i + w) U) as [Hlt|Hge]; [|done]. simpl.
  destruct (bool_decide_reflect (maskAt m (i + w + j * U) = Some t)) as [Hm|Hm];
    [|done].
  destruct (IH (w + 1)) as (H1 & H2 & H3); [lia|lia| |].
  - intros k Hk. destruct (decide (k = w)) as [->|Hne]; [done|]. apply Hrun. lia.
  - split_and!; [lia|done|done].
Qed.

Lemma rowDiffers_false_inv m U i j h w t :
  rowDiffers m U i j h w t = false →
  ∀ k, 0 ≤ k < w → maskAt m (i + k + (j + h) * U) = Some t.
Proof.
  unfold rowDiffers. intros Hex k Hk.
  destruct (decide (maskAt m (i + k + (j + h) * U) = Some t)) as [|Hne]; [done|].
  assert (existsb (λ k, bool_decide (maskAt m (i + k + (j + h) * U) ≠ Some t))
                  (seqZ 0 w) = true) as Htrue; [|congruence].
  apply existsb_exists. exists k. split.
  - apply list_elem_of_In, elem_of_seqZ. lia.
  - by apply bool_decide_eq_true.
Qed.

Lemma findHeight_spec fuel m U V i j w t h :
  1 ≤ h → j + h ≤ V →
  (∀ h' k, 0 ≤ h' < h → 0 ≤ k < w → maskAt m (i + k + (j + h') * U) = Some t) →
  h ≤ findHeight fuel m U V i j w t h ∧ j + findHeight fuel m U V i j w t h ≤ V ∧
  ∀ h' k, 0 ≤ h' < findHeight fuel m U V i j w t h → 0 ≤ k < w →
          maskAt m (i + k + (j + h') * U) = Some t.
Proof.
  revert h. induction fuel as [|fuel IH]; intros h Hh HV Hrun; [done|].
  simpl. destruct (Z.ltb_spec (j + h) V) as [Hlt|Hge]; [|done].
  destruct (rowDiffers m U i j h w t) eqn:Hrow; [done|].
  pose proof (rowDiffers_false_inv _ _ _ _ _ _ _ Hrow) as Hnew.
  destruct (IH (h + 1)) as (H1 & H2 & H3); [lia|lia| |].
  - intros h' k Hh' Hk. destruct (decide (h' = h)) as [->|Hne]; [by apply Hnew|].
    apply Hrun; lia.
  - split_and!; [lia|done|done].
Qed.

Lemma emitRects_app rs rs' b :
  emitRects (rs ++ rs') b = emitRects rs' (emitRects rs b).
Proof. unfold emitRects. by rewrite fold_left_app. Qed.

Lemma vertexOffset_emitRects rs b :
  vertexOffset (emitRects rs b) = vertexOffset b + 4 * Z.of_nat (length rs).
Proof.
  revert b. induction rs as [|r rs IH]; intros b; [simpl; lia|].
  unfold emitRects in *. simpl fold_left. rewrite IH, vertexOffset_sliceQuad.
  rewrite length_cons. lia.
Qed.

Lemma covered_app rs rs' axis s i j :
  covered (rs ++ rs') axis s i j ↔ covered rs axis s i j ∨ covered rs' axis s i j.
Proof. unfold covered. apply Exists_app. Qed.

Lemma covered_lookup rs axis s i j :
  covered rs axis s i j ↔ ∃ (n : nat) r, rs !! n = Some r ∧ inRect r axis s i j.
Proof.
  unfold covered. rewrite Exists_exists. split.
  - intros (r & Hr & Hin). apply list_elem_of_lookup_1 in Hr as [n Hn]. by exists n, r.
  - intros (n & r & Hn & Hin). exists r. split; [by eapply list_elem_of_lookup_2|done].
Qed.

(** A cell that is cleared stays cleared while the scan goes on. *)
Lemma sliceInv_cleared c axis s b0 rs rs' st st' i j :
  sliceInv c axis s b0 rs st → sliceInv c axis s b0 (rs ++ rs') st' →
  0 ≤ i < sliceU axis → 0 ≤ j < sliceV axis →
  maskAt st.2 (i + j * sliceU axis) = None →
  maskAt st'.2 (i + j * sliceU axis) = None.
Proof.
  intros (_ & _ & Hm & _) (_ & _ & Hm' & _) Hi Hj Hnone.
  rewrite Hm in Hnone by done. rewrite Hm' by done.
  destruct (decide (covered (rs ++ rs') axis s i j)) as [|Hnot]; [done|].
  rewrite decide_False in Hnone; [done|].
  intros Hcov. apply Hnot, covered_app. by left.
Qed.

(** The scan of a row from column [i] on: it pushes the quads of some
    more rectangles and leaves the row cleared. *)
Lemma scanRow_tiling c axis s b0 fuel j i rs st :
  0 ≤ axis < 3 → 0 ≤ s < dimsAt axis axis →
  0 ≤ j < sliceV axis → 0 ≤ i → sliceU axis - i ≤ Z.of_nat fuel →
  sliceInv c axis s b0 rs st →
  (∀ i', 0 ≤ i' < i → i' < sliceU axis →
         maskAt st.2 (i' + j * sliceU axis) = None) →
  ∃ rs', sliceInv c axis s b0 (rs ++ rs') (scanRow fuel axis s j i st) ∧
         ∀ i', 0 ≤ i' < sliceU axis →
               maskAt (scanRow fuel axis s j i st).2 (i' + j * sliceU axis) = None.
Proof.
  intros Haxis Hs Hj. revert i rs st.
  induction fuel as [|fuel IH]; intros i rs st Hi Hfuel Hinv Hdone.
  { exists []. rewrite app_nil_r. split; [done|]. intros i' Hi'. apply Hdone; lia. }
  rewrite scanRow_step. cbv zeta. fold (sliceU axis) (sliceV axis).
  destruct (Z.ltb_spec i (sliceU axis)) as [Hlt|Hge].
  2:{ exists []. rewrite app_nil_r. split; [done|]. intros i' Hi'. apply Hdone; lia. }
  destruct (maskAt st.2 (i + j * sliceU axis)) as [t|] eqn:Hcell.
  2:{ apply IH; [lia|lia|done|]. intros i' Hi' Hlt'.
      destruct (decide (i' = i)) as [->|Hne]; [done|]. apply Hdone; lia. }
  pose proof Hinv as (Hb & Hlen & Hmask & Hvalid & Hdisj).
  set (U := sliceU axis) in *. set (V := sliceV axis) in *.
  assert (0 < U) as HU by (apply dimsAt_pos; [done|by apply Z.mod_pos_bound]).
  destruct (findWidth_spec (Z.to_nat U) st.2 U i j t 1) as (Hw1 & HwU & Hwrun);
    [lia|lia| |].
  { intros k Hk. by replace (i + k) with i by lia. }
  set (w := findWidth (Z.to_nat U) st.2 U i j t 1) in *.
  destruct (findHeight_spec (Z.to_nat V) st.2 U V i j w t 1) as (Hh1 & HhV & Hhrun);
    [lia|lia| |].
  { intros h' k Hh' Hk. replace (j + h') with j by lia. by apply Hwrun. }
  set (h := findHeight (Z.to_nat V) st.2 U V i j w t 1) in *.
  clearbody w h.
  set (r := mkRect axis s i j w h t).
  assert (∀ i' j', i ≤ i' < i + w → j ≤ j' < j + h →
            maskAt st.2 (i' + j' * U) = Some t) as Hrect.
  { intros i' j' Hi' Hj'.
    replace i' with (i + (i' - i)) by lia. replace j' with (j + (j' - j)) by lia.
    apply Hhrun; lia. }
  assert (∀ i' j', i ≤ i' < i + w → j ≤ j' < j + h →
            ¬ covered rs axis s i' j' ∧ maskCell c axis s i' j' = Some t) as Hfresh.
  { intros i' j' Hi' Hj'. pose proof (Hrect i' j' Hi' Hj') as Hm.
    rewrite Hmask in Hm by lia.
    destruct (decide (covered rs axis s i' j')); [done|]. done. }
  destruct (clearMask_spec st.2 U V i j w h) as [Hlen' Hclear]; [lia..|done|].
  assert (sliceInv c axis s b0 (rs ++ [r])
            (sliceQuad axis s i j w h t st.1, clearMask st.2 U i j w h)) as Hinv'.
  { unfold sliceInv. cbn [fst snd]. fold U V. split_and!.
    - rewrite emitRects_app, <- Hb. done.
    - done.
    - intros i' j' Hi' Hj'. rewrite Hclear by done.
      destruct (decide (i ≤ i' < i + w ∧ j ≤ j' < j + h)) as [[Hin1 Hin2]|Hout].
      + rewrite decide_True; [done|]. apply covered_app. right.
        apply Exists_cons. left. unfold inRect. simpl. done.
      + rewrite Hmask by done.
        destruct (decide (covered rs axis s i' j')) as [Hcov|Hnot].
        * rewrite decide_True; [done|]. apply covered_app. by left.
        * rewrite decide_False; [done|]. intros [Hcov|Hcov]%covered_app; [done|].
          apply Exists_cons in Hcov as [Hin|Hnil]; [|by apply Exists_nil in Hnil].
          unfold inRect in Hin. simpl in Hin. apply Hout. lia.
    - apply Forall_app. split; [done|]. apply Forall_singleton.
      split; [|done]. unfold validRect. simpl. fold U V.
      split_and!; try lia. intros i' j' Hi' Hj'. by apply Hfresh.
    - intros n m r1 r2 axis' s' i' j' Hn Hm Hin1 Hin2.
      assert (∀ (k : nat) r0, rs !! k = Some r0 → inRect r0 axis' s' i' j' →
                ¬ inRect r axis' s' i' j') as Hsep.
      { intros k r0 Hk Hin0 (<- & <- & Hri & Hrj). simpl in Hri, Hrj.
        destruct (Hfresh i' j' Hri Hrj) as [Hnot _]. apply Hnot.
        apply covered_lookup. by exists k, r0. }
      destruct (decide (n < length rs)%nat) as [Hn'|Hn'],
               (decide (m < length rs)%nat) as [Hm'|Hm'].
      + rewrite lookup_app_l in Hn, Hm by done. by eapply Hdisj.
      + rewrite lookup_app_l in Hn by done. rewrite lookup_app_r in Hm by lia.
        apply list_lookup_singleton_Some in Hm as [_ <-].
        by destruct (Hsep n r1 Hn Hin1).
      + rewrite lookup_app_l in Hm by done. rewrite lookup_app_r in Hn by lia.
        apply list_lookup_singleton_Some in Hn as [_ <-].
        by destruct (Hsep m r2 Hm Hin2).
      + rewrite lookup_app_r in Hn, Hm by lia.
        apply list_lookup_singleton_Some in Hn as [Hn _].
        apply list_lookup_singleton_Some in Hm as [Hm _]. lia. }
  destruct (IH (i + w) (rs ++ [r])
              (sliceQuad axis s i j w h t st.1, clearMask st.2 U i j w h))
    as (rs' & Hfinal & Hrow); [lia|lia|done| |].
  { intros i' Hi' Hlt'. cbn [snd]. rewrite Hclear by lia.
    destruct (decide (i ≤ i' < i + w ∧ j ≤ j < j + h)) as [|Hout]; [done|].
    apply Hdone; lia. }
  exists (r :: rs'). split; [|done].
  by replace (rs ++ r :: rs') with ((rs ++ [r]) ++ rs') by (by rewrite <- app_assoc).
Qed.
Lemma disjointRects_app rs rs' :
  disjointRects rs → disjointRects rs' →
  (∀ r r' axis s i j, r ∈ rs → r' ∈ rs' →
     inRect r axis s i j → inRect r' axis s i j → False) →
  disjointRects (rs ++ rs').
Proof.
  intros Hd Hd' Hsep n m r1 r2 axis s i j Hn Hm Hin1 Hin2.
  destruct (decide (n < length rs)%nat) as [Hn'|Hn'],
           (decide (m < length rs)%nat) as [Hm'|Hm'].
  - rewrite lookup_app_l in Hn, Hm by done. by eapply Hd.
  - rewrite lookup_app_l in Hn by done. rewrite lookup_app_r in Hm by lia.
    destruct (Hsep r1 r2 axis s i j); try done;
      by eapply list_elem_of_lookup_2.
  - rewrite lookup_app_l in Hm by done. rewrite lookup_app_r in Hn by lia.
    destruct (Hsep r2 r1 axis s i j); try done;
      by eapply list_elem_of_lookup_2.
  - rewrite lookup_app_r in Hn, Hm by lia.
    pose proof (Hd' _ _ _ _ _ _ _ _ Hn Hm Hin1 Hin2). lia.
Qed.

(** One slice: its quads are those of disjoint rectangles of exposed
    faces that cover every exposed face of the slice. *)
Lemma meshSlice_tiling c axis s b :
  0 ≤ axis < 3 → 0 ≤ s < dimsAt axis axis →
  ∃ rs, meshSlice c axis s b = emitRects rs b ∧
        Forall (λ r, validRect c r ∧ raxis r = axis ∧ rslice r = s) rs ∧
        disjointRects rs ∧
        ∀ i j, 0 ≤ i < sliceU axis → 0 ≤ j < sliceV axis →
               maskCell c axis s i j ≠ None → covered rs axis s i j.
Proof.
  intros Haxis Hs. unfold meshSlice. cbv zeta. fold (sliceU axis) (sliceV axis).
  assert (0 < sliceU axis) as HU by (apply dimsAt_pos; [done|by apply Z.mod_pos_bound]).
  assert (0 < sliceV axis) as HV by (apply dimsAt_pos; [done|by apply Z.mod_pos_bound]).
  destruct (buildMask_spec c axis s Haxis) as [Hlen Hbuild].
  fold (sliceU axis) (sliceV axis) in Hlen, Hbuild.
  cut (∃ rs, sliceInv c axis s b rs
               (forZ 0 (sliceV axis)
                  (λ j, scanRow (Z.to_nat (sliceU axis)) axis s j 0)
                  (b, buildMask c axis s)) ∧
             ∀ i' j', 0 ≤ j' < sliceV axis → 0 ≤ i' < sliceU axis →
               maskAt (forZ 0 (sliceV axis)
                         (λ j, scanRow (Z.to_nat (sliceU axis)) axis s j 0)
                         (b, buildMask c axis s)).2 (i' + j' * sliceU axis) = None).
  { intros (rs & (Hb & _ & Hmask & Hvalid & Hdisj) & Hnone).
    exists rs. split_and!; try done. intros i j Hi Hj Hcell.
    pose proof (Hnone i j Hj Hi) as Hm. rewrite Hmask in Hm by done.
    destruct (decide (covered rs axis s i j)); [done|]. done. }
  apply (forZ_ind (λ j st, ∃ rs, sliceInv c axis s b rs st ∧
                     ∀ i' j', 0 ≤ j' < j → 0 ≤ i' < sliceU axis →
                       maskAt st.2 (i' + j' * sliceU axis) = None)); [lia| |].
  - exists []. split; [|intros; lia]. unfold sliceInv. cbn [fst snd].
    split_and!; [done|done| |done|].
    + intros i j Hi Hj. rewrite Hbuild by done.
      rewrite decide_False; [done|]. intros Hcov. by apply Exists_nil in Hcov.
    + intros n m r r' ? ? ? ? Hn. by rewrite lookup_nil in Hn.
  - intros j st Hj (rs & Hinv & Hrows).
    destruct (scanRow_tiling c axis s b (Z.to_nat (sliceU axis)) j 0 rs st)
      as (rs' & Hinv' & Hrow); [done|done|lia|lia|lia|done|intros; lia|].
    exists (rs ++ rs'). split; [done|]. intros i' j' Hj' Hi'.
    destruct (decide (j' = j)) as [->|Hne]; [by apply Hrow|].
    eapply sliceInv_cleared; [exact Hinv|exact Hinv'|done|lia|].
    apply Hrows; lia.
Qed.

(** The quads of the whole sweep. *)
Lemma greedyBuffers_tiling (c : Chunk) :
  ∃ rs : list Rect,
    greedyBuffers c = emitRects rs emptyBuffers ∧
    Forall (validRect c) rs ∧
    disjointRects rs ∧
    ∀ axis s i j,
      0 ≤ axis < 3 → 0 ≤ s < dimsAt axis axis →
      0 ≤ i < sliceU axis → 0 ≤ j < sliceV axis →
      maskCell c axis s i j ≠ None → covered rs axis s i j.
Proof.
  unfold greedyBuffers.
  cut (∃ rs, forZ 0 3 (λ axis, forZ 0 (dimsAt axis axis) (λ s, meshSlice c axis s))
               emptyBuffers = emitRects rs emptyBuffers ∧
             Forall (validRect c) rs ∧ disjointRects rs ∧
             Forall (λ r, raxis r < 3) rs ∧
             ∀ axis s i j, 0 ≤ axis < 3 → 0 ≤ s < dimsAt axis axis →
               0 ≤ i < sliceU axis → 0 ≤ j < sliceV axis →
               maskCell c axis s i j ≠ None → covered rs axis s i j).
  { intros (rs & H1 & H2 & H3 & _ & H4).
    exact (ex_intro _ rs (conj H1 (conj H2 (conj H3 H4)))). }
  apply (forZ_ind (λ axis b, ∃ rs, b = emitRects rs emptyBuffers ∧
                     Forall (validRect c) rs ∧ disjointRects rs ∧
                     Forall (λ r, raxis r < axis) rs ∧
                     ∀ axis' s i j, 0 ≤ axis' < axis → 0 ≤ s < dimsAt axis' axis' →
                       0 ≤ i < sliceU axis' → 0 ≤ j < sliceV axis' →
                       maskCell c axis' s i j ≠ None → covered rs axis' s i j));
    [lia| |].
  { exists []. split_and!; [done|done| |done|intros; lia].
    intros n m r r' ? ? ? ? Hn. by rewrite lookup_nil in Hn. }
  intros axis b Haxis (rs0 & Hb0 & Hvalid0 & Hdisj0 & Htag0 & Hcover0).
  cut (∃ rs, forZ 0 (dimsAt axis axis) (λ s, meshSlice c axis s) b
               = emitRects rs emptyBuffers ∧
             Forall (validRect c) rs ∧ disjointRects rs ∧
             Forall (λ r, raxis r < axis ∨ (raxis r = axis ∧ rslice r < dimsAt axis axis)) rs ∧
             ∀ axis' s i j,
               (0 ≤ axis' < axis ∧ 0 ≤ s < dimsAt axis' axis') ∨
               (axis' = axis ∧ 0 ≤ s < dimsAt axis axis) →
               0 ≤ i < sliceU axis' → 0 ≤ j < sliceV axis' →
               maskCell c axis' s i j ≠ None → covered rs axis' s i j).
  { intros (rs & H1 & H2 & H3 & H4 & H5). exists rs. split_and!; try done.
    - eapply Forall_impl; [exact H4|]. simpl. intros r. lia.
    - intros axis' s i j Ha Hs. apply H5.
      destruct (decide (axis' = axis)) as [->|Hne]; [by right|left; split; [lia|done]]. }
  apply (forZ_ind (λ s b, ∃ rs, b = emitRects rs emptyBuffers ∧
                     Forall (validRect c) rs ∧ disjointRects rs ∧
                     Forall (λ r, raxis r < axis ∨ (raxis r = axis ∧ rslice r < s)) rs ∧
                     ∀ axis' s' i j,
                       (0 ≤ axis' < axis ∧ 0 ≤ s' < dimsAt axis' axis') ∨
                       (axis' = axis ∧ 0 ≤ s' < s) →
                       0 ≤ i < sliceU axis' → 0 ≤ j < sliceV axis' →
                       maskCell c axis' s' i j ≠ None → covered rs axis' s' i j)).
  - apply Z.lt_le_incl, dimsAt_pos; lia.
  - exists rs0. split_and!; try done.
    + eapply Forall_impl; [exact Htag0|]. simpl. intros r. lia.
    + intros axis' s' i j [[Ha Hs']|[_ Hs']]; [|lia]. by apply Hcover0.
  - intros s b' Hs (rs & Hb & Hvalid & Hdisj & Htag & Hcover).
    destruct (meshSlice_tiling c axis s b' Haxis Hs)
      as (rs' & Hb' & Hvalid' & Hdisj' & Hcover').
    exists (rs ++ rs'). split_and!.
    + by rewrite emitRects_app, <- Hb.
    + apply Forall_app. split; [done|].
      eapply Forall_impl; [exact Hvalid'|]. simpl. by intros r [Hr _].
    + apply disjointRects_app; [done|done|].
      intros r r' axis' s' i j Hr Hr' (Ha & Hs1 & _) (Ha' & Hs1' & _).
      rewrite Forall_forall in Htag. rewrite Forall_forall in Hvalid'.
      pose proof (Htag r Hr). destruct (Hvalid' r' Hr') as (_ & ? & ?). lia.
    + apply Forall_app. split.
      * eapply Forall_impl; [exact Htag|]. simpl. intros r. lia.
      * eapply Forall_impl; [exact Hvalid'|]. simpl. intros r (_ & ? & ?). lia.
    + intros axis' s' i j Hrange Hi Hj Hcell. apply covered_app.
      destruct (decide (axis' = axis ∧ s' = s)) as [[-> ->]|Hne].
      * right. by apply Hcover'.
      * left. apply Hcover; try done. lia.
Qed.

(** X13: on every grid the greedy mesher pushes exactly the quads of a
    list of rectangles of slice cells, one quad per rectangle, such that: every rectangle lies
    inside its slice, and each of its cells is an exposed face (a block
    that is not Air with Air next to it in the sweep direction) of the
    rectangle's block type; no cell lies in two rectangles; and every
    exposed face of every slice that is swept lies in a rectangle. *)
Theorem greedy_quads_tile_exposed_faces (c : Chunk) :
  wf_chunk c →
  ∃ rs : list Rect,
    greedyBuffers c = emitRects rs emptyBuffers ∧
    quadCount (greedyBuffers c) = Z.of_nat (length rs) ∧
    Forall (validRect c) rs ∧
    disjointRects rs ∧
    ∀ axis s i j,
      0 ≤ axis < 3 → 0 ≤ s < dimsAt axis axis →
      0 ≤ i < sliceU axis → 0 ≤ j < sliceV axis →
      maskCell c axis s i j ≠ None → covered rs axis s i j.
Proof.
  intros _. destruct (greedyBuffers_tiling c) as (rs & Hrs & Hvalid & Hdisj & Hcover).
  exists rs. split; [exact Hrs|]. split; [|by split_and!].
  unfold quadCount. rewrite Hrs, vertexOffset_emitRects.
  cbn [vertexOffset emptyBuffers]. rewrite Z.add_0_l, Z.mul_comm.
  by apply Z.div_mul.
Qed.

Lemma greedy_quads_tile_exposed_faces_witness :
  ∃ rs : list Rect, greedyBuffers stoneCell = emitRects rs emptyBuffers.
Proof.
  destruct (greedy_quads_tile_exposed_faces stoneCell) as (rs & Hrs & _).
  - apply wf_chunk_gridOf.
  - exact (ex_intro _ rs Hrs).
Defined.

(** * The quads of the naive mesher *)

(** A loop whose body pushes the items of its index, as one fold. *)
Lemma forZ_bind {A S : Type} (step : S → A → S) (body : Z → S → S)
    (items : Z → list A) lo hi s :
  (∀ i s', lo ≤ i < hi → body i s' = fold_left step (items i) s') →
  forZ lo hi body s = fold_left step (seqZ lo (hi - lo) ≫= items) s.
Proof.
  intros Hbody. unfold forZ.
  assert (∀ l : list Z, Forall (λ i, lo ≤ i < hi) l → ∀ s',
            fold_left (λ s i, body i s) l s' = fold_left step (l ≫= items) s') as Hl.
  { induction l as [|i l IH]; intros Hin s'; [done|].
    apply Forall_cons in Hin as [Hi Hin].
    change ((i :: l) ≫= items) with (items i ++ (l ≫= items)).
    rewrite fold_left_app. simpl. rewrite Hbody by done. by apply IH. }
  apply Hl. apply Forall_forall. intros i Hi. apply elem_of_seqZ in Hi. lia.
Qed.

Lemma forZ_bind0 {A S : Type} (step : S → A → S) (body : Z → S → S)
    (items : Z → list A) n s :
  (∀ i s', 0 ≤ i < n → body i s' = fold_left step (items i) s') →
  forZ 0 n body s = fold_left step (seqZ 0 n ≫= items) s.
Proof.
  intros Hbody. rewrite (forZ_bind step body items) by done. by rewrite Z.sub_0_r.
Qed.

Lemma renderCell_faceQuads c x y z b :
  renderCell c x y z b = fold_left (faceQuad c) (cellFaces c x y z) b.
Proof.
  unfold renderCell, cellFaces. destruct (bool_decide _); [done|].
  generalize faces. intros fs. revert b.
  induction fs as [|face fs IH]; intros b; [done|].
  simpl. rewrite filter_cons. unfold renderFace at 2.
  destruct (shouldRenderFace c x y z (fdir face)) eqn:E.
  - rewrite decide_True by done. simpl. apply IH.
  - rewrite decide_False by done. apply IH.
Qed.

Lemma simpleBuffers_faceQuads c :
  simpleBuffers c = fold_left (faceQuad c) (exposedFaces c) emptyBuffers.
Proof.
  unfold simpleBuffers, exposedFaces.
  apply forZ_bind0. intros x b _.
  apply forZ_bind0. intros y b' _.
  apply forZ_bind0. intros z b'' _.
  apply renderCell_faceQuads.
Qed.

Lemma vertexOffset_faceQuads c l b :
  vertexOffset (fold_left (faceQuad c) l b) = vertexOffset b + 4 * Z.of_nat (length l).
Proof.
  revert b. induction l as [|[[[x y] z] face] l IH]; intros b; [simpl; lia|].
  simpl fold_left. rewrite IH. unfold faceQuad.
  assert (∀ vs b0 col, vertexOffset (fold_left (pushFaceVertex x y z face col) vs b0)
                       = vertexOffset b0) as Hvs.
  { induction vs as [|[[vx vy] vz] vs IHvs]; intros b0 col; [done|].
    simpl. rewrite IHvs. unfold pushFaceVertex.
    destruct (fnormal face) as [[nx ny] nz], col as [[r g] bl]. done. }
  unfold pushIndices. cbn [vertexOffset]. rewrite Hvs.
  rewrite length_cons. lia.
Qed.

Lemma elem_of_cellFaces c x y z f :
  f ∈ cellFaces c x y z ↔
  ∃ face, f = (x, y, z, face) ∧ cellAt c x y z ≠ AIR ∧ face ∈ faces ∧
          shouldRenderFace c x y z (fdir face) = true.
Proof.
  unfold cellFaces. destruct (bool_decide_reflect (cellAt c x y z = AIR)) as [Hair|Hsolid].
  - rewrite elem_of_nil. split; [done|]. by intros (face & _ & Hne & _).
  - rewrite list_elem_of_fmap. split.
    + intros (face & -> & Hface). apply list_elem_of_filter in Hface as [Hexp Hin].
      by exists face.
    + intros (face & -> & _ & Hin & Hexp). exists face. split; [done|].
      by apply list_elem_of_filter.
Qed.

Lemma elem_of_exposedFaces c x y z face :
  (x, y, z, face) ∈ exposedFaces c ↔
  inGrid x y z ∧ cellAt c x y z ≠ AIR ∧ face ∈ faces ∧
  shouldRenderFace c x y z (fdir face) = true.
Proof.
  unfold exposedFaces, inGrid. rewrite list_elem_of_bind. split.
  - intros (x' & Hin & Hx). apply elem_of_seqZ in Hx.
    apply list_elem_of_bind in Hin as (y' & Hin & Hy). apply elem_of_seqZ in Hy.
    apply list_elem_of_bind in Hin as (z' & Hin & Hz). apply elem_of_seqZ in Hz.
    apply elem_of_cellFaces in Hin as (face' & [= -> -> -> ->] & Hsolid & Hface & Hexp).
    split_and!; try done; lia.
  - intros ((Hx & Hy & Hz) & Hsolid & Hface & Hexp).
    exists x. split; [|apply elem_of_seqZ; lia].
    apply list_elem_of_bind. exists y. split; [|apply elem_of_seqZ; lia].
    apply list_elem_of_bind. exists z. split; [|apply elem_of_seqZ; lia].
    apply elem_of_cellFaces. by exists face.
Qed.

Lemma NoDup_faces : NoDup faces.
Proof.
  unfold faces.
  repeat (apply NoDup_cons; split;
          [rewrite ?not_elem_of_cons; split_and?; try discriminate; apply not_elem_of_nil|]).
  apply NoDup_nil. done.
Qed.

Lemma NoDup_exposedFaces c : NoDup (exposedFaces c).
Proof.
  unfold exposedFaces.
  apply NoDup_bind; [| |apply NoDup_seqZ].
  { intros x1 x2 f _ _ H1 H2.
    apply list_elem_of_bind in H1 as (y1 & H1 & _).
    apply list_elem_of_bind in H1 as (z1 & H1 & _).
    apply elem_of_cellFaces in H1 as (f1 & -> & _).
    apply list_elem_of_bind in H2 as (y2 & H2 & _).
    apply list_elem_of_bind in H2 as (z2 & H2 & _).
    apply elem_of_cellFaces in H2 as (f2 & [= -> _ _ _] & _). done. }
  intros x _. apply NoDup_bind; [| |apply NoDup_seqZ].
  { intros y1 y2 f _ _ H1 H2.
    apply list_elem_of_bind in H1 as (z1 & H1 & _).
    apply elem_of_cellFaces in H1 as (f1 & -> & _).
    apply list_elem_of_bind in H2 as (z2 & H2 & _).
    apply elem_of_cellFaces in H2 as (f2 & [= -> _ _] & _). done. }
  intros y _. apply NoDup_bind; [| |apply NoDup_seqZ].
  { intros z1 z2 f _ _ H1 H2.
    apply elem_of_cellFaces in H1 as (f1 & -> & _).
    apply elem_of_cellFaces in H2 as (f2 & [= -> _] & _). done. }
  intros z _. unfold cellFaces. destruct (bool_decide _); [apply NoDup_nil; done|].
  apply NoDup_fmap_2; [by intros f1 f2 [= ->]|].
  apply NoDup_filter, NoDup_faces.
Qed.

(** X14: on every grid the naive mesher pushes exactly one unit quad for
    each exposed face of each block (a face of a block that is not Air,
    whose neighbour on that side is Air or lies outside the grid), in the
    order of its cell loops, and no other quad. *)
Theorem naive_quads_are_exposed_faces (c : Chunk) :
  wf_chunk c →
  simpleBuffers c = fold_left (faceQuad c) (exposedFaces c) emptyBuffers ∧
  quadCount (simpleBuffers c) = Z.of_nat (length (exposedFaces c)) ∧
  NoDup (exposedFaces c) ∧
  ∀ x y z face,
    (x, y, z, face) ∈ exposedFaces c ↔
    inGrid x y z ∧ cellAt c x y z ≠ AIR ∧ face ∈ faces ∧
    let '(dx, dy, dz) := fdir face in getBlock c (x + dx) (y + dy) (z + dz) = AIR.
Proof.
  intros _. split_and!.
  - apply simpleBuffers_faceQuads.
  - unfold quadCount. rewrite simpleBuffers_faceQuads, vertexOffset_faceQuads.
    cbn [vertexOffset emptyBuffers]. rewrite Z.add_0_l, Z.mul_comm. by apply Z.div_mul.
  - apply NoDup_exposedFaces.
  - intros x y z face. rewrite elem_of_exposedFaces. unfold shouldRenderFace.
    destruct (fdir face) as [[dx dy] dz]. by rewrite bool_decide_eq_true.
Qed.

Lemma naive_quads_are_exposed_faces_witness :
  quadCount (simpleBuffers stoneCell) = Z.of_nat (length (exposedFaces stoneCell)).
Proof.
  exact (proj1 (proj2 (naive_quads_are_exposed_faces stoneCell (wf_chunk_gridOf _)))).
Defined.

(** * The greedy mesher against the naive one *)

Lemma sweepFace_faces axis : sweepFace axis ∈ faces.
Proof.
  unfold sweepFace, faces.
  destruct (axis =? 0); [|destruct (axis =? 1)]; repeat constructor.
Qed.

Lemma sweepFace_inj axis axis' :
  0 ≤ axis < 3 → 0 ≤ axis' < 3 → sweepFace axis = sweepFace axis' → axis = axis'.
Proof.
  intros Ha Ha'.
  destruct (axis_cases _ Ha) as [-> | [-> | ->]],
           (axis_cases _ Ha') as [-> | [-> | ->]]; try done; discriminate.
Qed.

(** The corner of a rectangle of exposed faces is an exposed face. *)
Lemma cornerFace_exposed c r : validRect c r → cornerFace r ∈ exposedFaces c.
Proof.
  destruct r as [axis s i j w h t]. unfold validRect. simpl.
  intros (Ha & _ & Hi & Hw & _ & Hj & Hh & _ & Hcells).
  pose proof (Hcells i j ltac:(lia) ltac:(lia)) as Hcell.
  destruct (axis_cases _ Ha) as [-> | [-> | ->]].
  - change (cornerFace (mkRect 0 s i j w h t)) with (s, i, j, sweepFace 0).
    rewrite maskCell_x in Hcell.
    destruct (bool_decide_reflect (getBlock c s i j ≠ AIR)) as [Hsolid|]; [|done].
    destruct (bool_decide_reflect (getBlock c (s + 1) (i + 0) (j + 0) = AIR))
      as [Hair|]; [|done].
    rewrite getBlock_inGrid in Hsolid. destruct (decide (inGrid s i j)); [|done].
    apply elem_of_exposedFaces. split_and!; [done|done|apply sweepFace_faces|].
    by apply shouldRenderFace_true.
  - change (cornerFace (mkRect 1 s i j w h t)) with (j, s, i, sweepFace 1).
    rewrite maskCell_y in Hcell.
    destruct (bool_decide_reflect (getBlock c j s i ≠ AIR)) as [Hsolid|]; [|done].
    destruct (bool_decide_reflect (getBlock c (j + 0) (s + 1) (i + 0) = AIR))
      as [Hair|]; [|done].
    rewrite getBlock_inGrid in Hsolid. destruct (decide (inGrid j s i)); [|done].
    apply elem_of_exposedFaces. split_and!; [done|done|apply sweepFace_faces|].
    by apply shouldRenderFace_true.
  - change (cornerFace (mkRect 2 s i j w h t)) with (i, j, s, sweepFace 2).
    rewrite maskCell_z in Hcell.
    destruct (bool_decide_reflect (getBlock c i j s ≠ AIR)) as [Hsolid|]; [|done].
    destruct (bool_decide_reflect (getBlock c (i + 0) (j + 0) (s + 1) = AIR))
      as [Hair|]; [|done].
    rewrite getBlock_inGrid in Hsolid. destruct (decide (inGrid i j s)); [|done].
    apply elem_of_exposedFaces. split_and!; [done|done|apply sweepFace_faces|].
    by apply shouldRenderFace_true.
Qed.

(** Rectangles with the same corner face have the same corner cell. *)
Lemma cornerFace_inj c r r' :
  validRect c r → validRect c r' → cornerFace r = cornerFace r' →
  raxis r' = raxis r ∧ rslice r' = rslice r ∧ ri r' = ri r ∧ rj r' = rj r.
Proof.
  destruct r as [axis s i j w h t], r' as [axis' s' i' j' w' h' t'].
  unfold validRect. simpl. intros (Ha & _) (Ha' & _) Heq.
  assert (axis' = axis) as ->.
  { symmetry. apply sweepFace_inj; [done..|].
    unfold cornerFace in Heq. simpl in Heq. by injection Heq. }
  destruct (axis_cases _ Ha) as [-> | [-> | ->]].
  - change (cornerFace (mkRect 0 s i j w h t)) with (s, i, j, sweepFace 0) in Heq.
    change (cornerFace (mkRect 0 s' i' j' w' h' t')) with (s', i', j', sweepFace 0) in Heq.
    by injection Heq as -> -> ->.
  - change (cornerFace (mkRect 1 s i j w h t)) with (j, s, i, sweepFace 1) in Heq.
    change (cornerFace (mkRect 1 s' i' j' w' h' t')) with (j', s', i', sweepFace 1) in Heq.
    by injection Heq as -> -> ->.
  - change (cornerFace (mkRect 2 s i j w h t)) with (i, j, s, sweepFace 2) in Heq.
    change (cornerFace (mkRect 2 s' i' j' w' h' t')) with (i', j', s', sweepFace 2) in Heq.
    by injection Heq as -> -> ->.
Qed.

(** X15: on every grid the greedy mesher pushes at most as many quads as
    the naive mesher. *)
Theorem greedy_quads_at_most_naive (c : Chunk) :
  wf_chunk c →
  quadCount (greedyBuffers c) ≤ quadCount (simpleBuffers c).
Proof.
  intros _. destruct (greedyBuffers_tiling c) as (rs & Hrs & Hvalid & Hdisj & _).
  assert (∀ n, 4 * n / 4 = n) as Hdiv.
  { intros n. rewrite Z.mul_comm. by apply Z.div_mul. }
  unfold quadCount.
  rewrite Hrs, vertexOffset_emitRects, simpleBuffers_faceQuads, vertexOffset_faceQuads.
  cbn [vertexOffset emptyBuffers]. rewrite !Z.add_0_l, !Hdiv.
  apply inj_le. rewrite <- (length_fmap cornerFace rs).
  apply submseteq_length, NoDup_submseteq.
  - rewrite Forall_forall in Hvalid.
    apply NoDup_alt. intros n m f Hn Hm.
    rewrite list_lookup_fmap in Hn, Hm.
    destruct (rs !! n) as [r|] eqn:Er; [|done].
    destruct (rs !! m) as [r'|] eqn:Er'; [|done].
    simpl in Hn, Hm. injection Hn as Hn. injection Hm as Hm.
    pose proof (Hvalid r (list_elem_of_lookup_2 _ _ _ Er)) as Hr.
    pose proof (Hvalid r' (list_elem_of_lookup_2 _ _ _ Er')) as Hr'.
    destruct (cornerFace_inj c r r' Hr Hr') as (Ha & Hs & Hi & Hj); [congruence|].
    apply (Hdisj n m r r' (raxis r) (rslice r) (ri r) (rj r) Er Er').
    + unfold inRect. unfold validRect in Hr. lia.
    + unfold inRect. unfold validRect in Hr'. lia.
  - intros f Hf. apply list_elem_of_fmap in Hf as (r & -> & Hr).
    apply cornerFace_exposed. rewrite Forall_forall in Hvalid. by apply Hvalid.
Qed.

Lemma greedy_quads_at_most_naive_witness :
  quadCount (greedyBuffers stoneCell) ≤ quadCount (simpleBuffers stoneCell).
Proof. exact (greedy_quads_at_most_naive stoneCell (wf_chunk_gridOf _)). Defined.

(** * Height maps of neighbouring chunks *)


(** * The clouds *)

Lemma driftCloud_inSky cloud : cloudInSky cloud → cloudInSky (Environment.driftCloud cloud).
Proof.
  unfold cloudInSky, Environment.driftCloud. intros (Hx0 & Hx1 & Hrest). simpl.
  pose proof (Qltb_spec 100 (Vec3.x (Environment.position cloud) + (1 # 100))) as Hwrap.
  destruct (Qltb _ _); split_and!; try tauto; lra.
Qed.

(** X17: the 20 clouds are created inside the box -100..100 by 40..60 by
    -100..100 with a scale between 3 and 7, and however many frames they
    drift they stay inside it: a cloud that passes x = 100 is put back at
    x = -100. *)
Theorem clouds_stay_in_sky (random : nat → Q) (PI : Q) (calls0 frames : nat) :
  (∀ n, (0 <= random n)%Q ∧ (random n < 1)%Q) →
  length (Nat.iter frames Environment.driftFrame (Environment.clouds random PI calls0)) = 20%nat ∧
  Forall cloudInSky (Nat.iter frames Environment.driftFrame (Environment.clouds random PI calls0)).
Proof.
  intros Hrandom.
  assert (length (Environment.clouds random PI calls0) = 20%nat ∧
          Forall cloudInSky (Environment.clouds random PI calls0)) as [Hlen Hsky].
  { unfold Environment.clouds.
    apply (forZ_ind (λ i st, length st.1 = Z.to_nat i ∧ Forall cloudInSky st.1));
      [lia|done|].
    intros i [arr n] Hi [Hlen Hall]. unfold Environment.pushCloud. cbn [fst] in *.
    split; [rewrite length_app, Hlen; simpl; lia|].
    apply Forall_app. split; [done|]. apply Forall_singleton.
    unfold cloudInSky. simpl.
    pose proof (Hrandom n). pose proof (Hrandom (n + 1)%nat).
    pose proof (Hrandom (n + 2)%nat). pose proof (Hrandom (n + 3)%nat).
    split_and!; lra. }
  induction frames as [|frames [IHlen IHsky]]; [done|].
  simpl. unfold Environment.driftFrame at 1 3. split.
  - by rewrite length_fmap.
  - apply Forall_fmap. eapply Forall_impl; [exact IHsky|].
    intros cloud. apply driftCloud_inSky.
Qed.

Lemma clouds_stay_in_sky_witness :
  length (Nat.iter 3 Environment.driftFrame (Environment.clouds testRandom 3 0)) = 20%nat.
Proof. exact (proj1 (clouds_stay_in_sky testRandom 3 0 3 testRandom_range)). Defined.

(** * The faces the greedy mesher shows *)

Lemma covered_valid c rs axis s i j :
  Forall (validRect c) rs → covered rs axis s i j →
  0 ≤ s < dimsAt axis axis ∧ 0 ≤ i < sliceU axis ∧ 0 ≤ j < sliceV axis.
Proof.
  intros Hvalid Hcov. apply Exists_exists in Hcov as (r & Hr & <- & <- & Hi & Hj).
  rewrite Forall_forall in Hvalid. pose proof (Hvalid r Hr) as Hv.
  unfold validRect in Hv. lia.
Qed.

(** X18: of the exposed faces of the blocks of a grid, the quads of the
    greedy mesher cover every face towards +X, but a face towards +Y or
    +Z only if its block lies below layer 16. *)
Theorem greedy_covers_low_faces_only (c : Chunk) :
  wf_chunk c →
  ∃ rs : list Rect,
    greedyBuffers c = emitRects rs emptyBuffers ∧
    ∀ axis x y z,
      0 ≤ axis < 3 → (x, y, z, sweepFace axis) ∈ exposedFaces c →
      let '(s, i, j) := sliceCell axis x y z in
      covered rs axis s i j ↔ (axis = 0 ∨ y < CHUNK_SIZE).
Proof.
  intros _. destruct (greedyBuffers_tiling c) as (rs & Hrs & Hvalid & _ & Hcover).
  exists rs. split; [done|]. intros axis x y z Ha Hface.
  apply elem_of_exposedFaces in Hface as (Hin & Hsolid & _ & Hexp).
  pose proof Hin as (Hx & Hy & Hz). unfold CHUNK_SIZE, CHUNK_HEIGHT in *.
  destruct (axis_cases _ Ha) as [-> | [-> | ->]].
  - change (sliceCell 0 x y z) with (x, y, z). split; [by left|]. intros _.
    apply Hcover; [lia| | | |].
    + change (dimsAt 0 0) with 16. lia.
    + change (sliceU 0) with 64. lia.
    + change (sliceV 0) with 16. lia.
    + rewrite maskCell_x. rewrite (getBlock_in c x y z) by done.
      rewrite bool_decide_eq_true_2 by done.
      apply shouldRenderFace_true in Hexp. by rewrite bool_decide_eq_true_2.
  - change (sliceCell 1 x y z) with (y, z, x). split.
    + intros Hcov. right.
      destruct (covered_valid c rs 1 y z x Hvalid Hcov) as (Hs & _).
      change (dimsAt 1 1) with 16 in Hs. lia.
    + intros [|Hlow]; [done|]. apply Hcover; [lia| | | |].
      * change (dimsAt 1 1) with 16. lia.
      * change (sliceU 1) with 16. lia.
      * change (sliceV 1) with 64. lia.
      * rewrite maskCell_y. rewrite (getBlock_in c x y z) by done.
        rewrite bool_decide_eq_true_2 by done.
        apply shouldRenderFace_true in Hexp. by rewrite bool_decide_eq_true_2.
  - change (sliceCell 2 x y z) with (z, x, y). split.
    + intros Hcov. right.
      destruct (covered_valid c rs 2 z x y Hvalid Hcov) as (_ & _ & Hj).
      change (sliceV 2) with 16 in Hj. lia.
    + intros [|Hlow]; [done|]. apply Hcover; [lia| | | |].
      * change (dimsAt 2 2) with 64. lia.
      * change (sliceU 2) with 16. lia.
      * change (sliceV 2) with 16. lia.
      * rewrite maskCell_z. rewrite (getBlock_in c x y z) by done.
        rewrite bool_decide_eq_true_2 by done.
        apply shouldRenderFace_true in Hexp. by rewrite bool_decide_eq_true_2.
Qed.

Lemma greedy_covers_low_faces_only_witness :
  ∃ rs : list Rect, greedyBuffers stoneCell = emitRects rs emptyBuffers.
Proof.
  destruct (greedy_covers_low_faces_only stoneCell (wf_chunk_gridOf _)) as (rs & Hrs & _).
  exact (ex_intro _ rs Hrs).
Defined.

(** * The vertices of both meshes *)

Lemma vertexPoints_app vs ws :
  (∃ k : nat, length vs = (3 * k)%nat) →
  vertexPoints (vs ++ ws) = vertexPoints vs ++ vertexPoints ws.
Proof.
  intros [k Hk]. revert vs Hk. induction k as [|k IH]; intros vs Hk.
  - destruct vs; [done|simpl in Hk; lia].
  - do 3 (destruct vs as [|? vs]; [simpl in Hk; lia|]).
    simpl. f_equal. apply IH. simpl in Hk. lia.
Qed.

(** Four more corners that are points of the box. *)
Lemma verticesInBox_push b vs p1 p2 p3 p4 :
  verticesInBox b → vertexPoints vs = [p1; p2; p3; p4] → length vs = 12%nat →
  inChunkBox p1 → inChunkBox p2 → inChunkBox p3 → inChunkBox p4 →
  Forall inChunkBox (vertexPoints (vertices b ++ vs)) ∧
  ∃ k : nat, length (vertices b ++ vs) = (3 * k)%nat.
Proof.
  intros [[k Hk] Hall] Hvs Hlen H1 H2 H3 H4. split.
  - rewrite vertexPoints_app by (by exists k). rewrite Hvs.
    apply Forall_app. split; [done|]. by repeat constructor.
  - exists (k + 4)%nat. rewrite length_app. lia.
Qed.

Lemma vertices_faceQuad c b x y z face :
  face ∈ faces →
  ∃ v1 v2 v3 v4,
    fvertices face = [v1; v2; v3; v4] ∧
    Forall (λ v : Z * Z * Z, let '(vx, vy, vz) := v in
              0 ≤ vx ≤ 1 ∧ 0 ≤ vy ≤ 1 ∧ 0 ≤ vz ≤ 1) [v1; v2; v3; v4] ∧
    vertices (faceQuad c b (x, y, z, face)) =
      vertices b ++
      [x + v1.1.1; y + v1.1.2; z + v1.2; x + v2.1.1; y + v2.1.2; z + v2.2;
       x + v3.1.1; y + v3.1.2; z + v3.2; x + v4.1.1; y + v4.1.2; z + v4.2].
Proof.
  intros Hface. unfold faceQuad.
  generalize (threeColor (Block.getColor (cellAt c x y z))). intros [[r g] bl].
  unfold faces in Hface. rewrite !elem_of_cons, elem_of_nil in Hface.
  destruct Hface as [-> | [-> | [-> | [-> | [-> | [-> | []]]]]]];
    (eexists _, _, _, _; split; [reflexivity|]; split;
     [repeat constructor; lia|simpl; by rewrite <- !app_assoc]).
Qed.

Lemma verticesInBox_faceQuads c l b :
  (∀ f, f ∈ l → f ∈ exposedFaces c) → verticesInBox b →
  verticesInBox (fold_left (faceQuad c) l b).
Proof.
  revert b. induction l as [|[[[x y] z] face] l IH]; intros b Hl Hb; [done|].
  cbn [fold_left]. apply IH; [intros f Hf; apply Hl; by right|].
  pose proof (Hl (x, y, z, face) ltac:(by left)) as Hf.
  apply elem_of_exposedFaces in Hf as ((Hx & Hy & Hz) & _ & Hface & _).
  destruct (vertices_faceQuad c b x y z face Hface)
    as ([[a1 b1] c1] & [[a2 b2] c2] & [[a3 b3] c3] & [[a4 b4] c4] & _ & Hunit & Hvs).
  apply Forall_cons in Hunit as [H1 Hunit]. apply Forall_cons in Hunit as [H2 Hunit].
  apply Forall_cons in Hunit as [H3 Hunit]. apply Forall_cons in Hunit as [H4 _].
  unfold verticesInBox. rewrite Hvs. simpl in *.
  unfold CHUNK_SIZE, CHUNK_HEIGHT in *.
  apply and_comm.
  eapply verticesInBox_push; [done|reflexivity|done|..];
    unfold inChunkBox, CHUNK_SIZE, CHUNK_HEIGHT; lia.
Qed.

(** An exposed face of a slice belongs to a block of the grid. *)
Lemma maskCell_inGrid c axis s i j :
  0 ≤ axis < 3 → maskCell c axis s i j ≠ None →
  let '(x, y, z) := (at3 (sliceCoord axis s ((axis + 1) `mod` 3) i
                                     ((axis + 2) `mod` 3) j) 0,
                     at3 (sliceCoord axis s ((axis + 1) `mod` 3) i
                                     ((axis + 2) `mod` 3) j) 1,
                     at3 (sliceCoord axis s ((axis + 1) `mod` 3) i
                                     ((axis + 2) `mod` 3) j) 2) in
  inGrid x y z.
Proof.
  intros Ha Hcell. destruct (axis_cases _ Ha) as [-> | [-> | ->]].
  - change (inGrid s i j). rewrite maskCell_x in Hcell.
    destruct (bool_decide_reflect (getBlock c s i j ≠ AIR)) as [Hsolid|]; [|done].
    rewrite getBlock_inGrid in Hsolid. by destruct (decide (inGrid s i j)).
  - change (inGrid j s i). rewrite maskCell_y in Hcell.
    destruct (bool_decide_reflect (getBlock c j s i ≠ AIR)) as [Hsolid|]; [|done].
    rewrite getBlock_inGrid in Hsolid. by destruct (decide (inGrid j s i)).
  - change (inGrid i j s). rewrite maskCell_z in Hcell.
    destruct (bool_decide_reflect (getBlock c i j s ≠ AIR)) as [Hsolid|]; [|done].
    rewrite getBlock_inGrid in Hsolid. by destruct (decide (inGrid i j s)).
Qed.

Lemma verticesInBox_sliceQuad c r b :
  validRect c r → verticesInBox b →
  verticesInBox (sliceQuad (raxis r) (rslice r) (ri r) (rj r) (rw r) (rh r) (rtype r) b).
Proof.
  destruct r as [axis s i j w h t]. unfold validRect. simpl.
  intros (Ha & Hs & Hi & Hw & HiU & Hj & Hh & HjV & Hcells) Hb.
  pose proof (Hcells i j ltac:(lia) ltac:(lia)) as Hlow.
  pose proof (Hcells (i + w - 1) (j + h - 1) ltac:(lia) ltac:(lia)) as Hhigh.
  assert (maskCell c axis s i j ≠ None) as Hlow' by (by rewrite Hlow).
  assert (maskCell c axis s (i + w - 1) (j + h - 1) ≠ None) as Hhigh'
    by (by rewrite Hhigh).
  apply (maskCell_inGrid c axis s _ _ Ha) in Hlow'.
  apply (maskCell_inGrid c axis s _ _ Ha) in Hhigh'.
  unfold sliceQuad, verticesInBox. rewrite vertices_pushQuad. apply and_comm.
  destruct (axis_cases _ Ha) as [-> | [-> | ->]].
  - change (inGrid s i j) in Hlow'. change (inGrid s (i + w - 1) (j + h - 1)) in Hhigh'.
    unfold inGrid, CHUNK_SIZE, CHUNK_HEIGHT in *.
    eapply (verticesInBox_push b _ (s, i, j) (s + 0, i + w, j + 0)
              (s + 0 + 0, i + w + 0, j + 0 + h) (s + 0, i + 0, j + h));
      [done|reflexivity|done|..]; unfold inChunkBox, CHUNK_SIZE, CHUNK_HEIGHT; lia.
  - change (inGrid j s i) in Hlow'. change (inGrid (j + h - 1) s (i + w - 1)) in Hhigh'.
    unfold inGrid, CHUNK_SIZE, CHUNK_HEIGHT in *.
    eapply (verticesInBox_push b _ (j, s, i) (j + 0, s + 0, i + w)
              (j + 0 + h, s + 0 + 0, i + w + 0) (j + h, s + 0, i + 0));
      [done|reflexivity|done|..]; unfold inChunkBox, CHUNK_SIZE, CHUNK_HEIGHT; lia.
  - change (inGrid i j s) in Hlow'. change (inGrid (i + w - 1) (j + h - 1) s) in Hhigh'.
    unfold inGrid, CHUNK_SIZE, CHUNK_HEIGHT in *.
    eapply (verticesInBox_push b _ (i, j, s) (i + w, j + 0, s + 0)
              (i + w + 0, j + 0 + h, s + 0 + 0) (i + 0, j + h, s + 0));
      [done|reflexivity|done|..]; unfold inChunkBox, CHUNK_SIZE, CHUNK_HEIGHT; lia.
Qed.

Lemma verticesInBox_emitRects c rs b :
  Forall (validRect c) rs → verticesInBox b → verticesInBox (emitRects rs b).
Proof.
  intros Hvalid. revert b. induction Hvalid as [|r rs Hr _ IH]; intros b Hb; [done|].
  unfold emitRects in *. simpl fold_left. apply IH.
  by apply (verticesInBox_sliceQuad c).
Qed.

(** X19: every vertex of the naive mesh and of the greedy mesh is a point
    of the box that the grid occupies: its coordinates lie between 0 and
    16 along x and z, and between 0 and 64 along y. *)
Theorem mesh_vertices_in_chunk_box (c : Chunk) :
  wf_chunk c →
  Forall inChunkBox (vertexPoints (vertices (simpleBuffers c))) ∧
  Forall inChunkBox (vertexPoints (vertices (greedyBuffers c))).
Proof.
  intros _.
  assert (verticesInBox emptyBuffers) as Hempty.
  { split; [by exists 0%nat|constructor]. }
  split.
  - rewrite simpleBuffers_faceQuads.
    by apply (verticesInBox_faceQuads c (exposedFaces c) emptyBuffers).
  - destruct (greedyBuffers_tiling c) as (rs & Hrs & Hvalid & _).
    pose proof (verticesInBox_emitRects c rs emptyBuffers Hvalid Hempty) as [_ Hall].
    rewrite <- Hrs in Hall. exact Hall.
Qed.

Lemma mesh_vertices_in_chunk_box_witness :
  Forall inChunkBox (vertexPoints (vertices (simpleBuffers stoneCell))).
Proof.
  exact (proj1 (mesh_vertices_in_chunk_box stoneCell (wf_chunk_gridOf _))).
Defined.
